(** * khmer: sandbox/trim-low-abund.py

    A shallow embedding of the streaming two-pass abundance trimmer and
    the properties of its pipeline.

    The script is a Python 2 program that threads a counting table, a
    handful of counters and the file system through two loops.  It is
    modelled in a state-and-exception monad: a computation takes the
    program state and either returns a value or raises a Python
    exception, in both cases together with the state reached.

    What is printed on standard output is not modelled (only the
    exceptions that evaluating the printed expressions can raise);
    standard error is.  Python floats occur only as the false-positive
    rate and the requested table size; they are modelled as rationals. *)

From Stdlib Require Import ZArith QArith Qround String Ascii.
From stdpp Require Import base strings list sorting gmap.

Local Open Scope string_scope.
Local Open Scope Z_scope.

(** ** Exceptions and the monad *)

(** Errors of the k-mer codec and of the counting table. *)
Inductive khmer_error : Type :=
| TooShort
| InvalidBase
| InvalidLength
| ConfigError.

(** The Python exceptions that can leave [main]. *)
Inductive exn : Type :=
| SystemExit (code : Z)
| IOError
| OSError
| UnboundLocalError (var : string)
| ZeroDivisionError
| KhmerError (e : khmer_error).

Inductive outcome (S A : Type) : Type :=
| Done (a : A) (s : S)
| Raised (e : exn) (s : S).
Arguments Done {S A} a s.
Arguments Raised {S A} e s.

Definition state_of {S A} (o : outcome S A) : S :=
  match o with Done _ s => s | Raised _ s => s end.

Definition exn_of {S A} (o : outcome S A) : option exn :=
  match o with Done _ _ => None | Raised e _ => Some e end.

Definition M (S A : Type) : Type := S -> outcome S A.

#[global] Instance M_ret S : MRet (M S) := fun A a s => Done a s.

#[global] Instance M_bind S : MBind (M S) := fun A B f m s =>
  match m s with
  | Done a s' => f a s'
  | Raised e s' => Raised e s'
  end.

Definition raise {S A} (e : exn) : M S A := fun s => Raised e s.

Definition gets {S A} (f : S -> A) : M S A := fun s => Done (f s) s.

Definition modify {S} (f : S -> S) : M S unit := fun s => Done tt (f s).

(** [for x in xs: body]. *)
Fixpoint forM_ {S X} (body : X -> M S unit) (xs : list X) : M S unit :=
  match xs with
  | [] => mret tt
  | x :: xs' => body x ;; forM_ body xs'
  end.

(** [if c: body] without an [else]. *)
Definition when {S} (c : bool) (body : M S unit) : M S unit :=
  if c then body else mret tt.

(** ** Strings and paths *)

(** [s.replace(old, new)] for one-character arguments. *)
Fixpoint replace (old new : ascii) (s : string) : string :=
  match s with
  | EmptyString => EmptyString
  | String c rest =>
      String (if Ascii.eqb c old then new else c) (replace old new rest)
  end.

(** [s[:n]] for a non-negative [n]. *)
Definition slice_to (n : nat) (s : string) : string := substring 0 n s.

(** [len(s)] as a Python integer. *)
Definition len (s : string) : Z := Z.of_nat (String.length s).

Fixpoint contains (c : ascii) (s : string) : bool :=
  match s with
  | EmptyString => false
  | String d rest => Ascii.eqb d c || contains c rest
  end.

(** [os.path.basename]: what follows the last slash. *)
Fixpoint basename (p : string) : string :=
  match p with
  | EmptyString => EmptyString
  | String c rest =>
      if contains "/" rest then basename rest
      else if Ascii.eqb c "/" then rest else p
  end.

Definition startswith (c : ascii) (s : string) : bool :=
  match s with
  | EmptyString => false
  | String d _ => Ascii.eqb d c
  end.

Fixpoint endswith (c : ascii) (s : string) : bool :=
  match s with
  | EmptyString => false
  | String d EmptyString => Ascii.eqb d c
  | String _ rest => endswith c rest
  end.

(** [os.path.join] of two components. *)
Definition join (a b : string) : string :=
  if startswith "/" b then b
  else if String.eqb a "" || endswith "/" a then a ++ b
  else a ++ "/" ++ b.

(** ** Records *)

(** A screed record; [accuracy] is the optional quality string, present
    exactly when [hasattr(read, 'accuracy')]. *)
Record read : Type := Read {
  name : string;
  sequence : string;
  accuracy : option string
}.

Definition trim_record (r : read) (trim_at : nat) : read :=
  {| name := name r;
     sequence := slice_to trim_at (sequence r);
     accuracy := slice_to trim_at <$> accuracy r |}.

(** What [broken_paired_reader] yields: [(n, is_pair, read1, read2)],
    with [read2 = None] when [is_pair] is false. *)
Inductive chunk : Type :=
| Single (n : Z) (read1 : read)
| Paired (n : Z) (read1 read2 : read).

Definition reads_of (c : chunk) : list read :=
  match c with
  | Single _ r => [r]
  | Paired _ r1 r2 => [r1; r2]
  end.

(** Modelled from the spec: the pairing test of khmer.utils, which is
    not part of the sources at hand.  Two consecutive records form a
    pair when their names are [base/1] and [base/2]. *)
Fixpoint split_mate (nm : string) : option (string * ascii) :=
  match nm with
  | EmptyString => None
  | String c rest =>
      match rest with
      | String "/" (String d EmptyString) => Some (String c EmptyString, d)
      | _ =>
          match split_mate rest with
          | Some (b, d) => Some (String c b, d)
          | None => None
          end
      end
  end.

Definition check_is_pair (r1 r2 : read) : bool :=
  match split_mate (name r1), split_mate (name r2) with
  | Some (b1, d1), Some (b2, d2) =>
      String.eqb b1 b2 && Ascii.eqb d1 "1" && Ascii.eqb d2 "2"
  | _, _ => false
  end.

(** Modelled from the spec: khmer.utils.broken_paired_reader, which is
    not part of the sources at hand.  It groups consecutive records that
    form a pair and yields every other record as a single; [n] counts
    the records yielded before. *)
Fixpoint broken_paired_reader_from (n : Z) (rs : list read) : list chunk :=
  match rs with
  | [] => []
  | r1 :: rest =>
      match rest with
      | r2 :: rest' =>
          if check_is_pair r1 r2
          then Paired n r1 r2 :: broken_paired_reader_from (n + 2) rest'
          else Single n r1 :: broken_paired_reader_from (n + 1) rest
      | [] => [Single n r1]
      end
  end.

Definition broken_paired_reader (rs : list read) : list chunk :=
  broken_paired_reader_from 0 rs.

(** ** The counting table *)

(** The khmer counting table lives in the C++ library, outside the
    sources at hand; the script uses it through these operations.  Each
    one runs on the table and may raise, leaving the table as it was at
    the raise.  Of [get_median_count]'s triple and of
    [trim_on_abundance]'s pair the script keeps one component only, and
    the operations return just that one; the number [consume] returns is
    never looked at. *)
Class CountingTable (T : Type) : Type := {
  new_counting_hash : Z -> Q -> Z -> exn + T;
  get_median_count : string -> M T Z;
  consume : string -> M T unit;
  trim_on_abundance : string -> Z -> M T nat;
  calc_expected_collisions : T -> Q
}.

(** Modelled from the spec: the constructor of the table, which is not
    part of the sources at hand, takes an invalid k-mer size (at most 0)
    for a configuration error. *)
Class ChecksKsize (T : Type) `{CountingTable T} : Prop :=
  new_counting_hash_ksize : forall K sz nt,
    K <= 0 -> new_counting_hash K sz nt = inl (KhmerError ConfigError).

(** ** The environment and the program state *)

(** A line on standard error; the false-positive rate is kept as a
    number, not formatted. *)
Inductive line : Type :=
| Text (s : string)
| FpRateLine (fp_rate : Q).

(** The world outside the script.  A sequence file is the list of its
    records.  [free_space] is the number of records the device can still
    take: a write raises [IOError] when it is zero.  [temp_token] is the
    random part of the next name [tempfile.mkdtemp] draws. *)
Record world : Type := World {
  files : gmap string (list read);
  dirs : list string;
  free_space : nat;
  temp_token : string;
  stderr : list line
}.

(** The counters of the run summary. *)
Record counters : Type := Counters {
  save_pass2_total : Z;
  read_bp : Z;
  read_reads : Z;
  wrote_bp : Z;
  wrote_reads : Z;
  trimmed_reads : Z;
  skipped_n : Z;
  skipped_bp : Z
}.

Definition zero_counters : counters := Counters 0 0 0 0 0 0 0 0.

(** The command line, as argparse leaves it. *)
Record args : Type := Args {
  input_filenames : list string;
  ksize : Z;
  n_hashes : Z;
  min_hashsize : Q;
  abund_cutoff : Z;
  normalize_to : Z;
  variable_coverage : bool;
  tempdir_arg : string
}.

Definition DEFAULT_NORMALIZE_LIMIT : Z := 20.
Definition DEFAULT_CUTOFF : Z := 2.
Definition DEFAULT_K : Z := 32.
Definition DEFAULT_N_HT : Z := 4.
Definition DEFAULT_MIN_HASHSIZE : Q := 1000000.

(** [MAX_FALSE_POSITIVE_RATE = 0.8].  A rate is modelled as the rational
    a Python float stands for, so the constant is the double nearest to
    8/10, and [>] on floats is [<] on these rationals. *)
Definition MAX_FALSE_POSITIVE_RATE : Q := 3602879701896397 # 4503599627370496.

(** The variables of [main] that change once the table exists, and the
    world.  [n] is the loop variable of both passes, unbound until a
    loop has run once. *)
Record state (T : Type) : Type := State {
  ht : T;
  env : world;
  cnt : counters;
  pass2list : list (string * string * string);
  save_pass2 : Z;
  n : option Z
}.
Arguments State {T}.
Arguments ht {T}.
Arguments env {T}.
Arguments cnt {T}.
Arguments pass2list {T}.
Arguments save_pass2 {T}.
Arguments n {T}.

Definition set_files (f : gmap string (list read)) (w : world) : world :=
  World f (dirs w) (free_space w) (temp_token w) (stderr w).
Definition set_dirs (d : list string) (w : world) : world :=
  World (files w) d (free_space w) (temp_token w) (stderr w).
Definition set_free_space (k : nat) (w : world) : world :=
  World (files w) (dirs w) k (temp_token w) (stderr w).
Definition set_stderr (l : list line) (w : world) : world :=
  World (files w) (dirs w) (free_space w) (temp_token w) l.

Definition add_save_pass2_total (k : Z) (c : counters) : counters :=
  Counters (save_pass2_total c + k) (read_bp c) (read_reads c) (wrote_bp c)
           (wrote_reads c) (trimmed_reads c) (skipped_n c) (skipped_bp c).
Definition add_read_bp (k : Z) (c : counters) : counters :=
  Counters (save_pass2_total c) (read_bp c + k) (read_reads c) (wrote_bp c)
           (wrote_reads c) (trimmed_reads c) (skipped_n c) (skipped_bp c).
Definition add_read_reads (k : Z) (c : counters) : counters :=
  Counters (save_pass2_total c) (read_bp c) (read_reads c + k) (wrote_bp c)
           (wrote_reads c) (trimmed_reads c) (skipped_n c) (skipped_bp c).
Definition add_wrote_bp (k : Z) (c : counters) : counters :=
  Counters (save_pass2_total c) (read_bp c) (read_reads c) (wrote_bp c + k)
           (wrote_reads c) (trimmed_reads c) (skipped_n c) (skipped_bp c).
Definition add_wrote_reads (k : Z) (c : counters) : counters :=
  Counters (save_pass2_total c) (read_bp c) (read_reads c) (wrote_bp c)
           (wrote_reads c + k) (trimmed_reads c) (skipped_n c) (skipped_bp c).
Definition add_trimmed_reads (k : Z) (c : counters) : counters :=
  Counters (save_pass2_total c) (read_bp c) (read_reads c) (wrote_bp c)
           (wrote_reads c) (trimmed_reads c + k) (skipped_n c) (skipped_bp c).
Definition add_skipped_n (k : Z) (c : counters) : counters :=
  Counters (save_pass2_total c) (read_bp c) (read_reads c) (wrote_bp c)
           (wrote_reads c) (trimmed_reads c) (skipped_n c + k) (skipped_bp c).
Definition add_skipped_bp (k : Z) (c : counters) : counters :=
  Counters (save_pass2_total c) (read_bp c) (read_reads c) (wrote_bp c)
           (wrote_reads c) (trimmed_reads c) (skipped_n c) (skipped_bp c + k).
Definition reset_skipped (c : counters) : counters :=
  Counters (save_pass2_total c) (read_bp c) (read_reads c) (wrote_bp c)
           (wrote_reads c) (trimmed_reads c) 0 0.

Section Pipeline.
Context {T : Type} `{CountingTable T}.

Definition set_ht (t : T) (s : state T) : state T :=
  State t (env s) (cnt s) (pass2list s) (save_pass2 s) (n s).
Definition set_env (w : world) (s : state T) : state T :=
  State (ht s) w (cnt s) (pass2list s) (save_pass2 s) (n s).
Definition set_cnt (c : counters) (s : state T) : state T :=
  State (ht s) (env s) c (pass2list s) (save_pass2 s) (n s).
Definition set_pass2list (l : list (string * string * string))
    (s : state T) : state T :=
  State (ht s) (env s) (cnt s) l (save_pass2 s) (n s).
Definition set_save_pass2 (k : Z) (s : state T) : state T :=
  State (ht s) (env s) (cnt s) (pass2list s) k (n s).
Definition set_n (k : Z) (s : state T) : state T :=
  State (ht s) (env s) (cnt s) (pass2list s) (save_pass2 s) (Some k).

(** Statements on the counters, the world and the table. *)
Definition count (f : counters -> counters) : M (state T) unit :=
  modify (fun s => set_cnt (f (cnt s)) s).

Definition on_world (f : world -> world) : M (state T) unit :=
  modify (fun s => set_env (f (env s)) s).

Definition on_ht {A} (op : M T A) : M (state T) A := fun s =>
  match op (ht s) with
  | Done a t => Done a (set_ht t s)
  | Raised e t => Raised e (set_ht t s)
  end.

(** *** Files *)

(** [open(path, 'w')]: the file is created or truncated. *)
Definition open_w (path : string) : M (state T) unit :=
  on_world (fun w => set_files (<[path := []]> (files w)) w).

(** [open(path, 'a')]: the file is created when it does not exist. *)
Definition open_a (path : string) : M (state T) unit :=
  on_world (fun w =>
    match files w !! path with
    | Some _ => w
    | None => set_files (<[path := []]> (files w)) w
    end).

(** [screed.open(path)], read to the end. *)
Definition screed_open (path : string) : M (state T) (list read) :=
  fun s =>
    match files (env s) !! path with
    | Some rs => Done rs s
    | None => Raised IOError s
    end.

(** Modelled from the spec: khmer.utils.write_record, which is not
    part of the sources at hand, serializes one record to the sink.  The
    write raises [IOError] when the device is full. *)
Definition write_record (r : read) (fp : string) : M (state T) unit :=
  fun s =>
    let w := env s in
    match free_space w with
    | O => Raised IOError s
    | S k =>
        Done tt (set_env
          (set_free_space k
            (set_files
              (<[fp := (default [] (files w !! fp) ++ [r])%list]> (files w)) w))
          s)
    end.

(** Modelled from the spec: khmer.utils.write_record_pair, which is
    not part of the sources at hand, serializes the two mates one
    after the other. *)
Definition write_record_pair (r1 r2 : read) (fp : string) : M (state T) unit :=
  write_record r1 fp ;; write_record r2 fp.

(** [os.unlink(path)]. *)
Definition unlink (path : string) : M (state T) unit := fun s =>
  match files (env s) !! path with
  | Some _ => Done tt (set_env (set_files (delete path (files (env s))) (env s)) s)
  | None => Raised OSError s
  end.

(** [path] lies in the directory [dir]. *)
Definition under (dir path : string) : bool := String.prefix (dir ++ "/") path.

(** [shutil.rmtree(dir)]: the directory goes, with all it holds. *)
Definition rmtree (dir : string) : M (state T) unit :=
  on_world (fun w =>
    set_dirs (List.filter (fun d => negb (String.eqb d dir)) (dirs w))
      (set_files (filter (fun kv => under dir kv.1 = false) (files w)) w)).

(** [tempfile.mkdtemp(suffix, prefix, dir)], for a directory [dir] that
    exists and can be written to: the [OSError] of a missing [dir] is
    not part of the model. *)
Definition mkdtemp (suffix prefix dir : string) (w : world) : string * world :=
  let d := join dir (prefix ++ temp_token w ++ suffix) in
  (d, set_dirs (d :: dirs w) w).

Definition eprint (l : line) : M (state T) unit :=
  on_world (fun w => set_stderr (stderr w ++ [l])%list w).

(** *** The first pass *)

Definition N_to_A (s : string) : string := replace "N" "A" s.

(** The body of the first-pass loop, lines 163 to 226.  [pass2fp] and
    [trimfp] are the two files open for writing. *)
Definition pass1_chunk (a : args) (pass2fp trimfp : string) (c : chunk)
    : M (state T) unit :=
  let K := ksize a in
  let CUTOFF := abund_cutoff a in
  let NORMALIZE_LIMIT := normalize_to a in
  match c with
  | Paired i read1 read2 =>
      modify (set_n i) ;;
      count (add_read_reads 2) ;;
      count (add_read_bp (len (sequence read1) + len (sequence read2))) ;;
      let seq1 := N_to_A (sequence read1) in
      let seq2 := N_to_A (sequence read2) in
      med1 ← on_ht (get_median_count seq1);
      med2 ← on_ht (get_median_count seq2);
      if (med1 <? NORMALIZE_LIMIT) || (med2 <? NORMALIZE_LIMIT) then
        on_ht (consume seq1) ;;
        on_ht (consume seq2) ;;
        write_record_pair read1 read2 pass2fp ;;
        modify (fun s => set_save_pass2 (save_pass2 s + 2) s)
      else
        trim_at1 ← on_ht (trim_on_abundance seq1 CUTOFF);
        trim_at2 ← on_ht (trim_on_abundance seq2 CUTOFF);
        let read1' :=
          if K <=? Z.of_nat trim_at1 then trim_record read1 trim_at1 else read1 in
        let read2' :=
          if K <=? Z.of_nat trim_at2 then trim_record read2 trim_at2 else read2 in
        when (negb (Z.of_nat trim_at1 =? len seq1)) (count (add_trimmed_reads 1)) ;;
        when (negb (Z.of_nat trim_at2 =? len seq2)) (count (add_trimmed_reads 1)) ;;
        write_record_pair read1' read2' trimfp ;;
        count (add_wrote_reads 2) ;;
        count (add_wrote_bp (Z.of_nat trim_at1 + Z.of_nat trim_at2))
  | Single i read1 =>
      modify (set_n i) ;;
      count (add_read_reads 1) ;;
      count (add_read_bp (len (sequence read1))) ;;
      let seq := N_to_A (sequence read1) in
      med ← on_ht (get_median_count seq);
      if med <? NORMALIZE_LIMIT then
        on_ht (consume seq) ;;
        write_record read1 pass2fp ;;
        modify (fun s => set_save_pass2 (save_pass2 s + 1) s)
      else
        trim_at ← on_ht (trim_on_abundance seq CUTOFF);
        when (K <=? Z.of_nat trim_at)
          (let new_read := trim_record read1 trim_at in
           write_record new_read trimfp ;;
           count (add_wrote_reads 1) ;;
           count (add_wrote_bp (Z.of_nat trim_at)) ;;
           when (negb (Z.of_nat trim_at =? len (sequence read1)))
             (count (add_trimmed_reads 1)))
  end.

Definition pass1_loop (a : args) (pass2fp trimfp : string)
    (chunks : list chunk) : M (state T) unit :=
  forM_ (pass1_chunk a pass2fp trimfp) chunks.

Definition pass2filename_of (dir filename : string) : string :=
  join dir (basename filename ++ ".pass2").

Definition trimfilename_of (filename : string) : string :=
  basename filename ++ ".abundtrim".

(** One turn of the loop over the input files, lines 151 to 233.  The
    summary line printed at the end reads [n], which is unbound when
    no record has been seen in any file so far. *)
Definition pass1_file (a : args) (tempdir filename : string)
    : M (state T) unit :=
  let pass2filename := pass2filename_of tempdir filename in
  let trimfilename := trimfilename_of filename in
  modify (fun s =>
    set_pass2list (pass2list s ++ [(filename, pass2filename, trimfilename)])%list s) ;;
  screed_iter ← screed_open filename;
  open_w pass2filename ;;
  open_w trimfilename ;;
  modify (set_save_pass2 0) ;;
  pass1_loop a pass2filename trimfilename (broken_paired_reader screed_iter) ;;
  bound ← gets n;
  match bound with
  | None => raise (UnboundLocalError "n")
  | Some _ =>
      modify (fun s => set_cnt (add_save_pass2_total (save_pass2 s) (cnt s)) s)
  end.

(** *** The second pass *)

(** The body of the second-pass loop, lines 250 to 277. *)
Definition pass2_record (a : args) (trimfp : string) (ir : nat * read)
    : M (state T) unit :=
  let K := ksize a in
  let CUTOFF := abund_cutoff a in
  let NORMALIZE_LIMIT := normalize_to a in
  let read := ir.2 in
  modify (set_n (Z.of_nat ir.1)) ;;
  let seq := N_to_A (sequence read) in
  med ← on_ht (get_median_count seq);
  if (med <? NORMALIZE_LIMIT) && variable_coverage a then
    write_record read trimfp ;;
    count (add_wrote_reads 1) ;;
    count (add_wrote_bp (len (sequence read))) ;;
    count (add_skipped_n 1) ;;
    count (add_skipped_bp (len (sequence read)))
  else
    trim_at ← on_ht (trim_on_abundance seq CUTOFF);
    when (K <=? Z.of_nat trim_at)
      (let new_read := trim_record read trim_at in
       write_record new_read trimfp ;;
       count (add_wrote_reads 1) ;;
       count (add_wrote_bp (Z.of_nat trim_at)) ;;
       when (negb (Z.of_nat trim_at =? len (sequence read)))
         (count (add_trimmed_reads 1))).

(** [enumerate(l)]. *)
Definition enumerate {A} (l : list A) : list (nat * A) := imap pair l.

Definition pass2_loop (a : args) (trimfp : string) (rs : list read)
    : M (state T) unit :=
  forM_ (pass2_record a trimfp) (enumerate rs).

(** One turn of the loop over [pass2list], lines 240 to 280. *)
Definition pass2_file (a : args) (entry : string * string * string)
    : M (state T) unit :=
  let '(orig_filename, pass2filename, trimfilename) := entry in
  open_a trimfilename ;;
  rs ← screed_open pass2filename;
  pass2_loop a trimfilename rs ;;
  unlink pass2filename.

(** *** The whole run *)

(** Lines 149 to 283: both passes and the removal of the temporary
    directory. *)
Definition passes (a : args) (tempdir : string) : M (state T) unit :=
  modify (set_pass2list []) ;;
  forM_ (pass1_file a tempdir) (input_filenames a) ;;
  count reset_skipped ;;
  l ← gets pass2list;
  forM_ (pass2_file a) l ;;
  rmtree tempdir.

Definition too_small_warning : list line :=
  [ Text "**";
    Text "** ERROR: the k-mer counting table is too small for this data set. Increase tablesize/# tables.";
    Text "**";
    Text "** Do not use these results!!" ].

(** Lines 285 to 310: the summary and the check of the false-positive
    rate.  The percentage of bases removed divides by [read_bp]. *)
Definition report (a : args) : M (state T) unit :=
  bp ← gets (fun s => read_bp (cnt s));
  when (bp =? 0) (raise ZeroDivisionError) ;;
  fp_rate ← gets (fun s => calc_expected_collisions (ht s));
  eprint (FpRateLine fp_rate) ;;
  if negb (Qle_bool fp_rate MAX_FALSE_POSITIVE_RATE) then
    forM_ eprint too_small_warning ;;
    raise (SystemExit 1)
  else mret tt.

Definition duplicate_error : line :=
  Text "Error: Cannot input the same filename multiple times.".

(** Lines 114 to 147: the check of the file names, the table, the
    temporary directory and the counters. *)
Definition startup (a : args) (w : world)
    : exn * world + state T * string :=
  if negb (size (list_to_set (input_filenames a) : gset string)
           =? length (input_filenames a))%nat
  then inl (SystemExit 1, set_stderr (stderr w ++ [duplicate_error])%list w)
  else
    match new_counting_hash (ksize a) (min_hashsize a) (n_hashes a) with
    | inl e => inl (e, w)
    | inr table =>
        let '(tempdir, w') := mkdtemp "khmer" "tmp" (tempdir_arg a) w in
        inr (State table w' zero_counters [] 0 None, tempdir)
    end.

(** What a run leaves: how it ended, the world, and the table when
    one was made. *)
Record run : Type := Run {
  status : option exn;
  final_world : world;
  final_ht : option T
}.

Definition main (a : args) (w : world) : run :=
  match startup a w with
  | inl (e, w') => Run (Some e) w' None
  | inr (s, tempdir) =>
      let o := (passes a tempdir ;; report a) s in
      Run (exn_of o) (env (state_of o)) (Some (ht (state_of o)))
  end.

End Pipeline.

(** ** A counting table after the specification *)

Module Sketch.

(** Modelled from the spec: the counting table of the khmer library,
    which is not part of the sources at hand.  [n_tables] arrays of
    saturating one-byte counters, each of length [table_size]; an
    array is kept as the finite map of its non-zero slots. *)
Record table : Type := Table {
  K : nat;
  table_size : Z;
  counters : list (gmap Z Z)
}.

Definition MAX_COUNT : Z := 255.

(** Modelled from the spec: two bits per base. *)
Definition base_code (c : ascii) : option Z :=
  if Ascii.eqb c "A" then Some 0
  else if Ascii.eqb c "C" then Some 1
  else if Ascii.eqb c "G" then Some 2
  else if Ascii.eqb c "T" then Some 3
  else None.

Fixpoint base_codes (s : string) : option (list Z) :=
  match s with
  | EmptyString => Some []
  | String c rest =>
      match base_code c, base_codes rest with
      | Some d, Some ds => Some (d :: ds)
      | _, _ => None
      end
  end.

Definition number (ds : list Z) : Z := fold_left (fun acc d => 4 * acc + d) ds 0.

Definition reverse_complement (ds : list Z) : list Z := rev (map (fun d => 3 - d) ds).

(** Modelled from the spec: KmerCodec.encode.  The key of the k-mer at
    [position] is the smaller of the encodings of the k-mer and of its
    reverse complement. *)
Definition encode (k : nat) (s : string) (position : nat) : khmer_error + Z :=
  if (String.length s <? position + k)%nat then inl InvalidLength
  else
    match base_codes (substring position k s) with
    | None => inl InvalidBase
    | Some ds => inr (Z.min (number ds) (number (reverse_complement ds)))
    end.

(** Modelled from the spec: the hash functions.  The spec asks for
    [n_tables] independent functions into [[0, table_size)] and names
    none; the i-th one here is an affine map of the key. *)
Definition hash (size : Z) (i : nat) (key : Z) : Z :=
  ((Z.of_nat i + 1) * key + Z.of_nat i) mod size.

Definition slot (size : Z) (key : Z) (i : nat) (m : gmap Z Z) : Z :=
  default 0 (m !! hash size i key).

(** Modelled from the spec: CountingTable.get_count, the minimum over
    the arrays. *)
Definition get_count (t : table) (key : Z) : Z :=
  foldr Z.min MAX_COUNT (imap (slot (table_size t) key) (counters t)).

Definition increment (t : table) (key : Z) : table :=
  Table (K t) (table_size t)
    (imap (fun i m =>
             <[hash (table_size t) i key :=
                 Z.min MAX_COUNT (slot (table_size t) key i m + 1)]> m)
          (counters t)).

(** The start offsets of the k-mers of a sequence of length [l]. *)
Definition positions (k l : nat) : list nat :=
  if (l <? k)%nat then [] else seq 0 (l - k + 1).

Definition key_at (s : string) (p : nat) : M table Z := fun t =>
  match encode (K t) s p with
  | inl e => Raised (KhmerError e) t
  | inr key => Done key t
  end.

(** Modelled from the spec: CountingTable.consume. *)
Definition consume (s : string) : M table unit := fun t =>
  forM_ (fun p => key ← key_at s p; modify (fun t' => increment t' key))
        (positions (K t) (String.length s)) t.

Fixpoint counts (s : string) (ps : list nat) : M table (list Z) :=
  match ps with
  | [] => mret []
  | p :: ps' =>
      key ← key_at s p;
      c ← gets (fun t => get_count t key);
      cs ← counts s ps';
      mret (c :: cs)
  end.

(** The median of a non-empty list: the middle element of the sorted
    list, the upper one of the two when the length is even. *)
Definition median (cs : list Z) : Z :=
  nth (length cs / 2) (merge_sort Z.le cs) 0.

(** Modelled from the spec: CountingTable.get_sequence_profile, of
    which the script reads the median. *)
Definition get_median_count (s : string) : M table Z := fun t =>
  if (String.length s <? K t)%nat then Raised (KhmerError TooShort) t
  else (cs ← counts s (positions (K t) (String.length s)); mret (median cs)) t.

Fixpoint first_below (cutoff : Z) (s : string) (ps : list nat) : M table (option nat) :=
  match ps with
  | [] => mret None
  | p :: ps' =>
      key ← key_at s p;
      c ← gets (fun t => get_count t key);
      if c <? cutoff then mret (Some p) else first_below cutoff s ps'
  end.

(** Modelled from the spec: AbundanceTrimmer.trim_on_abundance. *)
Definition trim_on_abundance (s : string) (cutoff : Z) : M table nat := fun t =>
  if (String.length s <? K t)%nat then Done (String.length s) t
  else
    (found ← first_below cutoff s (positions (K t) (String.length s));
     mret (match found with
           | Some p => (p + K t - 1)%nat
           | None => String.length s
           end)) t.

Definition is_prime (p : Z) : bool :=
  (2 <=? p) && forallb (fun d => negb (p mod d =? 0)) (seqZ 2 (Z.sqrt p - 1)).

Fixpoint next_prime (fuel : nat) (p : Z) : Z :=
  match fuel with
  | O => p
  | S fuel' => if is_prime p then p else next_prime fuel' (p + 1)
  end.

(** Modelled from the spec: the construction of the table.  The
    arrays have a prime length, at least the requested size divided by
    the number of arrays. *)
Definition new_counting_hash (k : Z) (min_size : Q) (n_tables : Z) : exn + table :=
  if k <=? 0 then inl (KhmerError ConfigError)
  else
    let wanted := Z.max 2 (Qceiling (min_size / inject_Z n_tables)) in
    inr (Table (Z.to_nat k) (next_prime (Z.to_nat wanted + 2) wanted)
               (List.repeat ∅ (Z.to_nat n_tables))).

(** Modelled from the spec: CountingTable.estimate_false_positive_rate,
    from the occupancy of the arrays. *)
Definition calc_expected_collisions (t : table) : Q :=
  fold_right Qmult 1%Q
    (map (fun m : gmap Z Z => Qmake (Z.of_nat (size m)) (Z.to_pos (table_size t)))
         (counters t)).

End Sketch.

#[global] Instance sketch_table : CountingTable Sketch.table := {|
  new_counting_hash := Sketch.new_counting_hash;
  get_median_count := Sketch.get_median_count;
  consume := Sketch.consume;
  trim_on_abundance := Sketch.trim_on_abundance;
  calc_expected_collisions := Sketch.calc_expected_collisions
|}.

(** ** A table that records its calls *)

(** A call of the table: the sequence handed over, and the exception
    when the call raised one. *)
Record call : Type := Call {
  arg : string;
  raised : option exn
}.

(** Any counting table can be wrapped so that it keeps, next to the
    table, the calls made, in order. *)
Definition traced (T : Type) : Type := T * list call.

Definition recorded {T A} (q : string) (op : M T A) : M (traced T) A :=
  fun tl =>
    match op tl.1 with
    | Done a t => Done a (t, (tl.2 ++ [Call q None])%list)
    | Raised e t => Raised e (t, (tl.2 ++ [Call q (Some e)])%list)
    end.

Definition traced_new {T} `{CountingTable T} (K : Z) (sz : Q) (nt : Z)
    : exn + traced T :=
  match new_counting_hash K sz nt with
  | inl e => inl e
  | inr t => inr (t, [])
  end.

#[global] Instance traced_table {T} `{CountingTable T} : CountingTable (traced T) := {|
  new_counting_hash := traced_new;
  get_median_count q := recorded q (get_median_count q);
  consume q := recorded q (consume q);
  trim_on_abundance q cutoff := recorded q (trim_on_abundance q cutoff);
  calc_expected_collisions tl := calc_expected_collisions tl.1
|}.

(** The calls a run made of its table. *)
Definition calls_of {T} (r : run (T := traced T)) : list call :=
  match final_ht r with
  | Some tl => tl.2
  | None => []
  end.

(** ** What becomes of a record *)

(** In either pass a record is put aside for the second pass, written
    to the output (as [r'], whole or cut), or dropped. *)
Inductive fate : Type :=
| Deferred
| Emitted (r' : read)
| Dropped.

Definition is_deferred (f : fate) : bool :=
  match f with Deferred => true | _ => false end.
Definition is_emitted (f : fate) : bool :=
  match f with Emitted _ => true | _ => false end.
Definition is_dropped (f : fate) : bool :=
  match f with Dropped => true | _ => false end.

(** The records, among [rs], whose fate satisfies [p]. *)
Fixpoint sources (p : fate -> bool) (rs : list read) (fs : list fate) : list read :=
  match rs, fs with
  | r :: rs', f :: fs' =>
      if p f then r :: sources p rs' fs' else sources p rs' fs'
  | _, _ => []
  end.

(** What the fates put on the output, in order. *)
Fixpoint emitted_of (fs : list fate) : list read :=
  match fs with
  | [] => []
  | Emitted r' :: fs' => r' :: emitted_of fs'
  | _ :: fs' => emitted_of fs'
  end.

(** An output record [r'] comes from the input record [r]: it is [r]
    itself or [r] cut at some position. *)
Definition from_input (r r' : read) : Prop :=
  r' = r \/ exists trim_at, r' = trim_record r trim_at.

Definition fate_ok (r : read) (f : fate) : Prop :=
  match f with
  | Emitted r' => from_input r r'
  | _ => True
  end.

(** The records of a file as the first pass sees them. *)
Definition all_reads (chunks : list chunk) : list read :=
  concat (map reads_of chunks).

(** The content of a file, empty when it does not exist. *)
Definition content {T} (path : string) (s : state T) : list read :=
  default [] (files (env s) !! path).

(** ** Notions used in the statements *)

(** [appended fp l s s']: from [s] to [s'] the records [l] were added at
    the end of the file [fp], and no other file changed. *)
Definition appended {T} (fp : string) (l : list read) (s s' : state T) : Prop :=
  content fp s' = (content fp s ++ l)%list /\
  forall p, p <> fp -> files (env s') !! p = files (env s) !! p.

(** The state after a successful write of [r] to [fp]. *)
Definition written {T} (r : read) (fp : string) (k : nat) (s : state T) : state T :=
  State (ht s)
    (set_free_space k
       (set_files (<[fp := (content fp s ++ [r])%list]> (files (env s))) (env s)))
    (cnt s) (pass2list s) (save_pass2 s) (n s).

(** [always m Q E]: when [m] returns, the state it started in and the
    state it ends in are related by [Q]; when it raises [e], they are
    related by [E e]. *)
Definition always {S A} (m : M S A)
    (Q : S -> S -> Prop) (E : exn -> S -> S -> Prop) : Prop :=
  forall s,
    match m s with
    | Done _ s' => Q s s'
    | Raised e s' => E e s s'
    end.

(** What [Q] and [E] need for [always] to go through a sequence of
    steps: doing nothing satisfies both, and a raise after some steps
    that returned is a raise of the whole. *)
Class Sequential {S} (Q : S -> S -> Prop) (E : exn -> S -> S -> Prop) : Prop := {
  seq_refl : forall s, Q s s;
  seq_trans : forall s1 s2 s3, Q s1 s2 -> Q s2 s3 -> Q s1 s3;
  seq_raise : forall e s, E e s s;
  seq_after : forall e s1 s2 s3, Q s1 s2 -> E e s2 s3 -> E e s1 s3
}.

(** Two states that differ in the local variables only. *)
Definition same_core {T} (s s' : state T) : Prop :=
  ht s' = ht s /\ env s' = env s.

(** A sequence as the table should see it: the N-substituted sequence
    of some record, hence free of [N]. *)
Definition substituted (q : string) : Prop :=
  (exists r : read, q = replace "N" "A" (sequence r)) /\ contains "N" q = false.

(** The calls recorded so far are all on substituted sequences, and
    stay so. *)
Definition calls_clean {T} (s s' : state (traced T)) : Prop :=
  Forall (fun c => substituted (arg c)) (ht s).2 ->
  Forall (fun c => substituted (arg c)) (ht s').2.

(** No call recorded so far has raised. *)
Definition quiet {T} (s : state (traced T)) : Prop :=
  Forall (fun c => raised c = None) (ht s).2.

(** No call raises from [s] to [s']. *)
Definition stays_quiet {T} (s s' : state (traced T)) : Prop :=
  quiet s -> quiet s'.

(** From [s] to [s'] no call raises anything but [e]. *)
Definition raises_only {T} (e : exn) (s s' : state (traced T)) : Prop :=
  quiet s -> forall c e', c ∈ (ht s').2 -> raised c = Some e' -> e' = e.

(** An output record keeps the name and the bases of the input record:
    its sequence is a prefix of the input sequence as read (not of the
    N-substituted one), and the quality string, when there is one, is
    cut to the length of the sequence. *)
Definition preserves_bases (r r' : read) : Prop :=
  name r' = name r /\
  (exists rest, sequence r = sequence r' ++ rest) /\
  match accuracy r with
  | Some q =>
      exists q', accuracy r' = Some q' /\
        (exists rest, q = q' ++ rest) /\
        (String.length q = String.length (sequence r) ->
         String.length q' = String.length (sequence r'))
  | None => accuracy r' = None
  end.

(** [accounted p2 tf rs fs s s']: from [s] to [s'] the records [rs] met
    the fates [fs]; those put aside were added to [p2], those emitted to
    [tf], in order, and no other file changed. *)
Definition accounted {T} (p2 tf : string) (rs : list read) (fs : list fate)
    (s s' : state T) : Prop :=
  Forall2 fate_ok rs fs /\
  content p2 s' = (content p2 s ++ sources is_deferred rs fs)%list /\
  content tf s' = (content tf s ++ emitted_of fs)%list /\
  forall p, p <> p2 -> p <> tf -> files (env s') !! p = files (env s) !! p.

(** ** Inputs for the examples *)

Definition ex_args : args :=
  {| input_filenames := ["reads/x.fa"];
     ksize := 4; n_hashes := 2; min_hashsize := 514;
     abund_cutoff := 2; normalize_to := 3;
     variable_coverage := false; tempdir_arg := "./" |}.

Definition ex_args_vc : args :=
  {| input_filenames := ["reads/x.fa"];
     ksize := 4; n_hashes := 2; min_hashsize := 514;
     abund_cutoff := 2; normalize_to := 3;
     variable_coverage := true; tempdir_arg := "./" |}.

(** The table [new_counting_hash 4 514 2] makes, and the same table
    once it has consumed one read. *)
Definition ex_table : Sketch.table := Sketch.Table 4 257 [∅; ∅].

Definition ex_seen : Sketch.table :=
  state_of (Sketch.consume "ACGTACGTACGTACGT" ex_table).

Definition ex_files (fs : gmap string (list read)) (space : nat) : world :=
  {| files := fs; dirs := []; free_space := space;
     temp_token := "Ab3"; stderr := [] |}.

Definition ex_state (t : Sketch.table) : state Sketch.table :=
  State t (ex_files ∅ 100) zero_counters [] 0 None.

(** A read the seen table knows, one whose first k-mer is new, one
    whose last k-mers are new, one that is all new, one too short. *)
Definition solid : read := Read "s" "ACGTACGTACGTACGT" None.
Definition solid_again : read := Read "s2" "ACGTACGTACGTACGT" None.
Definition mate_low : read := Read "p/1" "TTTTACGTACGTACGTACGT" None.
Definition mate_cut : read :=
  Read "p/2" "ACGTACGTACGTATTT" (Some "IIIIIIIIIIIIIHHH").
Definition mate_solid : read := Read "p/2" "ACGTACGTACGTACGT" None.
Definition novel : read := Read "v" "TTNTGGGGCC" None.
Definition short : read := Read "t" "ACG" None.

(** A run on one file of three records, with room for [space] records
    on the device; the directory [mkdtemp] makes for it and the state
    [startup] leaves. *)
Definition ex_reads : list read := [novel; solid; solid_again].

Definition ex_input (space : nat) : world :=
  ex_files {["reads/x.fa" := ex_reads]} space.

Definition ex_tempdir : string := "./tmpAb3khmer".

Definition ex_started (t : Sketch.table) : state Sketch.table :=
  State t (set_dirs [ex_tempdir] (ex_input 100)) zero_counters [] 0 None.


Definition ex_args_twice : args :=
  {| input_filenames := ["reads/x.fa"; "reads/x.fa"];
     ksize := 4; n_hashes := 2; min_hashsize := 514;
     abund_cutoff := 2; normalize_to := 3;
     variable_coverage := false; tempdir_arg := "./" |}.

Definition ex_args_k0 : args :=
  {| input_filenames := ["reads/x.fa"];
     ksize := 0; n_hashes := 2; min_hashsize := 514;
     abund_cutoff := 2; normalize_to := 3;
     variable_coverage := false; tempdir_arg := "./" |}.


(** ** A table that records which operation was called *)

(** The three operations the script performs on the table. *)
Inductive operation : Type :=
| Median
| Consume
| Trim.

Definition is_operation (o o' : operation) : bool :=
  match o, o' with
  | Median, Median | Consume, Consume | Trim, Trim => true
  | _, _ => false
  end.

(** Any counting table can be wrapped so that it keeps, next to the
    table, the operations called and the sequences handed over, in
    order. *)
Definition logged (T : Type) : Type := T * list (operation * string).

Definition log_call {T A} (o : operation) (q : string) (op : M T A)
    : M (logged T) A :=
  fun tl =>
    match op tl.1 with
    | Done x t => Done x (t, (tl.2 ++ [(o, q)])%list)
    | Raised e t => Raised e (t, (tl.2 ++ [(o, q)])%list)
    end.

Definition logged_new {T} `{CountingTable T} (K : Z) (sz : Q) (nt : Z)
    : exn + logged T :=
  match new_counting_hash K sz nt with
  | inl e => inl e
  | inr t => inr (t, [])
  end.

#[global] Instance logged_table {T} `{CountingTable T} : CountingTable (logged T) := {|
  new_counting_hash := logged_new;
  get_median_count q := log_call Median q (get_median_count q);
  consume q := log_call Consume q (consume q);
  trim_on_abundance q cutoff := log_call Trim q (trim_on_abundance q cutoff);
  calc_expected_collisions tl := calc_expected_collisions tl.1
|}.

(** The sequences handed to the operation [o], in order. *)
Definition calls_to (o : operation) (l : list (operation * string)) : list string :=
  (List.filter (fun c => is_operation o c.1) l).*2.

(** The sequences of the records [rs] as the table sees them. *)
Definition seen (rs : list read) : list string :=
  (fun r => N_to_A (sequence r)) <$> rs.

(** ** Notions used for the counters, the files and the log *)

(** [sum(len(r.sequence) for r in rs)]. *)
Definition total_bp (rs : list read) : Z :=
  foldr (fun r acc => len (sequence r) + acc) 0 rs.

(** The number of records in a file, 0 when it does not exist. *)
Definition size_of {T} (path : string) (s : state T) : Z :=
  Z.of_nat (length (content path s)).

(** [pass1_counted p2 tf rs s s']: from [s] to [s'] the counters moved
    as the first pass moves them on the records [rs], with [p2] the
    deferred store and [tf] the output. *)
Definition pass1_counted {T} (p2 tf : string) (rs : list read)
    (s s' : state T) : Prop :=
  read_reads (cnt s') = read_reads (cnt s) + Z.of_nat (length rs) /\
  read_bp (cnt s') = read_bp (cnt s) + total_bp rs /\
  wrote_reads (cnt s') - wrote_reads (cnt s) = size_of tf s' - size_of tf s /\
  save_pass2 s' - save_pass2 s = size_of p2 s' - size_of p2 s /\
  0 <= trimmed_reads (cnt s') - trimmed_reads (cnt s)
    <= wrote_reads (cnt s') - wrote_reads (cnt s) /\
  save_pass2_total (cnt s') = save_pass2_total (cnt s) /\
  skipped_n (cnt s') = skipped_n (cnt s) /\
  skipped_bp (cnt s') = skipped_bp (cnt s) /\
  pass2list s' = pass2list s.

(** [pass2_counted a tf s s']: from [s] to [s'] the counters moved as
    the second pass moves them, with [tf] the output. *)
Definition pass2_counted {T} (a : args) (tf : string) (s s' : state T) : Prop :=
  read_reads (cnt s') = read_reads (cnt s) /\
  read_bp (cnt s') = read_bp (cnt s) /\
  save_pass2_total (cnt s') = save_pass2_total (cnt s) /\
  save_pass2 s' = save_pass2 s /\
  pass2list s' = pass2list s /\
  wrote_reads (cnt s') - wrote_reads (cnt s) = size_of tf s' - size_of tf s /\
  total_bp (content tf s') - total_bp (content tf s)
    <= wrote_bp (cnt s') - wrote_bp (cnt s) /\
  0 <= trimmed_reads (cnt s') - trimmed_reads (cnt s)
    <= wrote_reads (cnt s') - wrote_reads (cnt s) /\
  0 <= skipped_n (cnt s') - skipped_n (cnt s) /\
  (skipped_n (cnt s') - skipped_n (cnt s))
  + (trimmed_reads (cnt s') - trimmed_reads (cnt s))
    <= wrote_reads (cnt s') - wrote_reads (cnt s) /\
  0 <= skipped_bp (cnt s') - skipped_bp (cnt s)
    <= wrote_bp (cnt s') - wrote_bp (cnt s) /\
  (variable_coverage a = false ->
   skipped_n (cnt s') = skipped_n (cnt s) /\
   skipped_bp (cnt s') = skipped_bp (cnt s)).

(** The triple line 155 appends to [pass2list] for an input file. *)
Definition pass2entry (tempdir filename : string) : string * string * string :=
  (filename, pass2filename_of tempdir filename, trimfilename_of filename).

(** The state in which the first-pass loop over a file starts, lines
    155 to 161: the triple is on [pass2list], the deferred store and
    the output are created or truncated, and [save_pass2] is 0. *)
Definition opened {T} (tempdir filename : string) (s : state T) : state T :=
  State (ht s)
    (set_files
       (<[trimfilename_of filename := []]>
          (<[pass2filename_of tempdir filename := []]> (files (env s))))
       (env s))
    (cnt s) (pass2list s ++ [pass2entry tempdir filename]) 0 (n s).

(** Line 233: [save_pass2_total += save_pass2]. *)
Definition closed {T} (s : state T) : state T :=
  set_cnt (add_save_pass2_total (save_pass2 s) (cnt s)) s.

(** The file [p] is the same, or as absent, in [s'] as in [s]. *)
Definition keeps {T} (p : string) (s s' : state T) : Prop :=
  files (env s') !! p = files (env s) !! p.

(** The table is the same in [s'] as in [s]. *)
Definition same_ht {T} (s s' : state T) : Prop := ht s' = ht s.

(** Nothing was printed on standard error from [s] to [s']. *)
Definition silent {T} (s s' : state T) : Prop :=
  stderr (env s') = stderr (env s).

(** From [s] to [s'] the table was called with [calls]. *)
Definition made {T} (calls : list (operation * string))
    (s s' : state (logged T)) : Prop :=
  (ht s').2 = ((ht s).2 ++ calls)%list.

(** From [s] to [s'] the records [rs] were each looked up once, and
    those added to the deferred store [pass2fp], and only those, were
    consumed. *)
Definition logged_step {T} (pass2fp : string) (rs : list read)
    (s s' : state (logged T)) : Prop :=
  exists deferred calls,
    content pass2fp s' = (content pass2fp s ++ deferred)%list /\
    made calls s s' /\
    calls_to Median calls = seen rs /\
    calls_to Consume calls = seen deferred.

(** From [s] to [s'] no call of the table was a [consume]. *)
Definition no_consume {T} (s s' : state (logged T)) : Prop :=
  exists calls, made calls s s' /\ calls_to Consume calls = [].

(** [q] is [s] with every [N] replaced by [A]: it is as long as [s],
    and at every position it has the character of [s], or [A] where
    [s] has [N]. *)
Definition N_replaced_by_A (s q : string) : Prop :=
  String.length q = String.length s /\
  forall i c, String.get i s = Some c ->
    String.get i q = Some (if Ascii.eqb c "N" then "A"%char else c).

(** From [s] to [s'] the table was called, and every call was on the
    sequence of a record satisfying [inp], with every [N] replaced by
    [A]. *)
Definition asked_of {T} (inp : read -> Prop) (s s' : state (traced T)) : Prop :=
  exists new,
    (ht s').2 = ((ht s).2 ++ new)%list /\
    Forall (fun c => exists r, inp r /\ N_replaced_by_A (sequence r) (arg c)) new.

(** [s'] is [s[:n]]: the first [n] characters of [s], or all of [s]
    when it has fewer. *)
Definition first_chars (n : nat) (s s' : string) : Prop :=
  (exists rest, s = s' ++ rest) /\
  String.length s' = Nat.min n (String.length s).

(** [r'] is [r] cut at [trim_at]: the same name, the first [trim_at]
    characters of the sequence, and of the quality string when there is
    one. *)
Definition cut_at (trim_at : nat) (r r' : read) : Prop :=
  name r' = name r /\
  first_chars trim_at (sequence r) (sequence r') /\
  match accuracy r with
  | Some q => exists q', accuracy r' = Some q' /\ first_chars trim_at q q'
  | None => accuracy r' = None
  end.

(** [r'] is what the script may write for [r]: [r] as it is, or [r] cut
    at a position of at least K that [trim_on_abundance] returned for
    the N-substituted sequence of [r]. *)
Definition written_for {T} `{CountingTable T} (a : args) (r r' : read) : Prop :=
  r' = r \/
  exists trim_at (t t' : T),
    trim_on_abundance (N_to_A (sequence r)) (abund_cutoff a) t = Done trim_at t' /\
    ksize a <= Z.of_nat trim_at /\
    cut_at trim_at r r'.

(** From [s] to [s'] the file [fp] grew, and only by records written
    for a record satisfying [inp]. *)
Definition put_out {T} `{CountingTable T} (a : args) (inp : read -> Prop)
    (fp : string) (s s' : state T) : Prop :=
  exists new,
    content fp s' = (content fp s ++ new)%list /\
    Forall (fun r' => exists r, inp r /\ written_for a r r' /\ preserves_bases r r')
      new.

(** From [s] to [s'] no file and no directory was removed. *)
Definition nothing_removed {T} (s s' : state T) : Prop :=
  (forall p, is_Some (files (env s) !! p) -> is_Some (files (env s') !! p)) /\
  dirs (env s') = dirs (env s).

(** The median queries for the records [rs], made one after the other
    from the table [t], end with the error [e]: the queries before the
    one that raises have returned. *)
Fixpoint medians_raise {T} `{CountingTable T} (rs : list read) (t : T) (e : exn)
    : Prop :=
  match rs with
  | [] => False
  | r :: rs' =>
      match get_median_count (N_to_A (sequence r)) t with
      | Raised e' _ => e' = e
      | Done _ t' => medians_raise rs' t' e
      end
  end.

(** From [s] to [s'] a call of the table raised [e]. *)
Definition raised_in {T} (e : exn) (s s' : state (traced T)) : Prop :=
  exists new c,
    (ht s').2 = ((ht s).2 ++ new)%list /\ c ∈ new /\ raised c = Some e.

(** ** More inputs for the examples *)

(** A run on an input file without records, on a missing input file,
    and on two input files of the same name in different directories. *)
Definition ex_empty_input : world := ex_files {["reads/x.fa" := []]} 100.

Definition ex_no_input : world := ex_files ∅ 100.

Definition ex_args_same_name : args :=
  {| input_filenames := ["a/x.fa"; "b/x.fa"];
     ksize := 4; n_hashes := 2; min_hashsize := 514;
     abund_cutoff := 2; normalize_to := 3;
     variable_coverage := false; tempdir_arg := "./" |}.

Definition ex_same_name_input : world :=
  ex_files {["a/x.fa" := [solid]; "b/x.fa" := [novel]]} 100.

(** The records of the examples of the loops, and the state the first
    loop leaves on them. *)
Definition ex_chunks : list chunk :=
  broken_paired_reader [solid; solid_again; mate_low; mate_cut; novel].

Definition ex_after_pass1 : state Sketch.table :=
  state_of (pass1_loop ex_args "x.pass2" "x.abundtrim" ex_chunks (ex_state ex_table)).

(** A pair whose second mate is shorter than K; an input file with a
    record shorter than K after one that is deferred, and the state
    [startup] leaves on it; a state in which the deferred store holds a
    record shorter than K, and the entry of [pass2list] for it. *)
Definition ex_mate_1 : read := Read "q/1" "ACGTACGTACGTACGT" None.
Definition ex_mate_short : read := Read "q/2" "ACG" None.

Definition ex_short_input : world := ex_files {["reads/x.fa" := [solid; short]]} 100.

Definition ex_short_started : state Sketch.table :=
  State ex_table (set_dirs [ex_tempdir] ex_short_input) zero_counters [] 0 None.

Definition ex_store_short : state Sketch.table :=
  State ex_table
    (ex_files {["./tmpAb3khmer/x.fa.pass2" := [short]; "x.fa.abundtrim" := []]} 100)
    zero_counters [] 0 None.

Definition ex_entry : string * string * string :=
  ("reads/x.fa", "./tmpAb3khmer/x.fa.pass2", "x.fa.abundtrim").

(** ** Tactics *)

Lemma bind_run {S A B} (m : M S A) (f : A -> M S B) s :
  (m ≫= f) s =
  match m s with Done a s' => f a s' | Raised e s' => Raised e s' end.
Proof. reflexivity. Qed.

Lemma bind_Done_inv {S A B} (m : M S A) (f : A -> M S B) s b s' :
  (m ≫= f) s = Done b s' -> exists a s1, m s = Done a s1 /\ f a s1 = Done b s'.
Proof.
  rewrite bind_run. destruct (m s) as [a s1 | e s1]; [eauto | discriminate].
Qed.

Lemma modify_Done {S} (f : S -> S) s u s' : modify f s = Done u s' -> s' = f s.
Proof. now intros [= _ <-]. Qed.

Lemma gets_Done {S A} (f : S -> A) s a s' :
  gets f s = Done a s' -> a = f s /\ s' = s.
Proof. now intros [= <- <-]. Qed.

Lemma mret_Done {S A} (x : A) (s : S) a s' :
  (mret x : M S A) s = Done a s' -> a = x /\ s' = s.
Proof. now intros [= <- <-]. Qed.

Lemma on_ht_Done {T A} (op : M T A) (s : state T) a s' :
  on_ht op s = Done a s' -> exists t, op (ht s) = Done a t /\ s' = set_ht t s.
Proof.
  unfold on_ht. destruct (op (ht s)) as [a' t | e t]; [| discriminate].
  intros [= <- <-]. eauto.
Qed.

Lemma write_record_Done {T} r fp (s : state T) u s' :
  write_record r fp s = Done u s' ->
  exists k, free_space (env s) = S k /\ s' = written r fp k s.
Proof.
  unfold write_record. destruct (free_space (env s)) as [| k]; [discriminate |].
  intros [= <-]. eauto.
Qed.

(** Takes apart a hypothesis that says a computation returned. *)
Ltac minv H :=
  lazymatch type of H with
  | (_ ≫= _) _ = Done _ _ =>
      let a := fresh "a" in
      let s1 := fresh "s" in
      let H1 := fresh "H" in
      apply bind_Done_inv in H; destruct H as (a & s1 & H1 & H);
      minv H1; minv H
  | modify _ _ = Done _ _ => apply modify_Done in H; subst
  | count _ _ = Done _ _ => apply modify_Done in H; subst
  | on_world _ _ = Done _ _ => apply modify_Done in H; subst
  | gets _ _ = Done _ _ => apply gets_Done in H; destruct H; subst
  | mret _ _ = Done _ _ => apply mret_Done in H; destruct H; subst
  | raise _ _ = Done _ _ => discriminate H
  | on_ht _ _ = Done _ _ =>
      let t := fresh "t" in
      let Ht := fresh "Hop" in
      apply on_ht_Done in H; destruct H as (t & Ht & H); subst
  | write_record _ _ _ = Done _ _ =>
      let k := fresh "k" in
      let Hk := fresh "Hfree" in
      apply write_record_Done in H; destruct H as (k & Hk & H); subst
  | write_record_pair _ _ _ _ = Done _ _ => unfold write_record_pair in H; minv H
  | when ?c _ _ = Done _ _ =>
      let Hc := fresh "Hc" in
      destruct c eqn:Hc; unfold when in H; minv H
  | (if ?c then _ else _) _ = Done _ _ =>
      let Hc := fresh "Hc" in
      destruct c eqn:Hc; minv H
  | _ => idtac
  end.

(** Runs a computation forward as far as its primitives allow. *)
Ltac mred :=
  repeat first
    [ rewrite bind_run
    | progress unfold modify, count, on_world, gets, raise, when, mret, M_ret,
        write_record_pair, eprint
    | progress cbn [ht env cnt pass2list save_pass2 n set_ht set_env set_cnt
                    set_pass2list set_save_pass2 set_n files dirs free_space
                    temp_token stderr set_files set_dirs set_free_space
                    set_stderr state_of exn_of fst snd] ].

(** Closes a goal on the files of a state reached through writes. *)
Ltac files_solve :=
  unfold appended;
  repeat (progress (unfold content, written; cbn));
  repeat split; try done; intros;
  repeat (rewrite ?lookup_insert_eq, ?lookup_insert_ne by done; cbn);
  rewrite <- ?app_assoc; done.

(** Runs a step forward through every outcome of the calls of the
    table, of the writes and of the tests it makes. *)
Ltac forward_with unfolding :=
  repeat (mred; unfold on_ht, write_record; mred; unfolding;
    try match goal with
    | |- context [match ?x with Done _ _ => _ | Raised _ _ => _ end] =>
        lazymatch x with
        | context [match _ with Done _ _ => _ | Raised _ _ => _ end] => fail
        | context [if _ then _ else _] => fail
        | context [match _ with O => _ | S _ => _ end] => fail
        | _ => destruct x eqn:?
        end
    | |- context [match ?x with O => _ | S _ => _ end] => destruct x eqn:?
    | |- context [if ?c then _ else _] => destruct c eqn:?
    end).

Ltac forward := forward_with idtac.

Ltac forward_traced :=
  forward_with
    ltac:(cbn [get_median_count consume trim_on_abundance traced_table];
          unfold recorded; mred).

(** ** Strings *)

Lemma slice_to_prefix n s : exists rest, s = slice_to n s ++ rest.
Proof.
  unfold slice_to. revert n.
  induction s as [| c s IH]; intros [| n]; cbn.
  - by exists "".
  - by exists "".
  - by exists (String c s).
  - destruct (IH n) as [rest Hrest]. exists rest.
    change (String c s = String c (substring 0 n s ++ rest)). by f_equal.
Qed.

Lemma slice_to_length n s :
  String.length (slice_to n s) = Nat.min n (String.length s).
Proof.
  unfold slice_to. revert n.
  induction s as [| c s IH]; intros [| n]; cbn; try done.
  by rewrite IH.
Qed.

Lemma append_empty s : s ++ "" = s.
Proof.
  induction s as [| c s IH]; [done |].
  change (String c (s ++ "") = String c s). by rewrite IH.
Qed.

Lemma replace_contains old new s :
  old <> new -> contains old (replace old new s) = false.
Proof.
  intros Hne. induction s as [| c s IH]; cbn; [done |].
  rewrite IH, orb_false_r.
  destruct (Ascii.eqb_spec c old) as [-> | Hc].
  - apply Ascii.eqb_neq. congruence.
  - by apply Ascii.eqb_neq.
Qed.

Lemma N_to_A_substituted (r : read) : substituted (N_to_A (sequence r)).
Proof.
  split; [by exists r |]. unfold N_to_A. by apply replace_contains.
Qed.

(** ** Records *)

Lemma trim_record_preserves_bases r trim_at :
  preserves_bases r (trim_record r trim_at).
Proof.
  unfold preserves_bases. cbn. split; [done |]. split; [apply slice_to_prefix |].
  destruct (accuracy r) as [q |]; cbn; [| done].
  exists (slice_to trim_at q). split; [done |]. split; [apply slice_to_prefix |].
  intros Hlen. by rewrite !slice_to_length, Hlen.
Qed.

Lemma same_record_preserves_bases r : preserves_bases r r.
Proof.
  unfold preserves_bases. split; [done |]. split.
  - exists "". by rewrite append_empty.
  - destruct (accuracy r) as [q |]; [| done].
    exists q. split; [done |]. split; [| done].
    exists "". by rewrite append_empty.
Qed.

Lemma from_input_preserves_bases r r' :
  from_input r r' -> preserves_bases r r'.
Proof.
  intros [-> | [trim_at ->]].
  - apply same_record_preserves_bases.
  - apply trim_record_preserves_bases.
Qed.

Lemma from_input_name r r' : from_input r r' -> name r' = name r.
Proof. intros [-> | [trim_at ->]]; done. Qed.

(** ** Fates *)

Lemma sources_app p rs1 fs1 rs2 fs2 :
  length rs1 = length fs1 ->
  sources p (rs1 ++ rs2) (fs1 ++ fs2)
  = (sources p rs1 fs1 ++ sources p rs2 fs2)%list.
Proof.
  revert fs1. induction rs1 as [| r rs1 IH]; intros [| f fs1] Hlen;
    try discriminate; cbn; [done |].
  injection Hlen as Hlen. rewrite (IH _ Hlen). by destruct (p f).
Qed.

Lemma emitted_of_app fs1 fs2 :
  emitted_of (fs1 ++ fs2) = (emitted_of fs1 ++ emitted_of fs2)%list.
Proof.
  induction fs1 as [| f fs1 IH]; cbn; [done |].
  destruct f; cbn; by rewrite ?IH.
Qed.

(** Every record has one fate: the three kinds split the records. *)
Lemma fates_partition rs fs :
  length rs = length fs ->
  rs ≡ₚ (sources is_deferred rs fs ++ sources is_emitted rs fs
         ++ sources is_dropped rs fs)%list.
Proof.
  revert fs. induction rs as [| r rs IH]; intros [| f fs] Hlen;
    try discriminate; cbn; [done |].
  injection Hlen as Hlen. specialize (IH _ Hlen).
  destruct f; cbn.
  - by constructor.
  - rewrite <- Permutation_middle. by constructor.
  - rewrite app_assoc, <- Permutation_middle, <- app_assoc. by constructor.
Qed.

Lemma emitted_names rs fs :
  Forall2 fate_ok rs fs ->
  name <$> emitted_of fs = name <$> sources is_emitted rs fs.
Proof.
  induction 1 as [| r f rs fs Hok _ IH]; cbn; [done |].
  destruct f; cbn; try done.
  cbn in Hok. by rewrite IH, (from_input_name _ _ Hok).
Qed.

(** ** Sequencing and loops *)

Lemma forM_app {S X} (body : X -> M S unit) xs ys s :
  forM_ body (xs ++ ys)%list s = (forM_ body xs ;; forM_ body ys) s.
Proof.
  revert s. induction xs as [| x xs IH]; intros s; cbn [forM_ app].
  - by rewrite bind_run.
  - rewrite !bind_run. destruct (body x s) as [[] s1 | e s1]; [| done].
    by rewrite IH, bind_run.
Qed.

(** An exception raised in the body leaves the loop: the elements after
    it are not visited. *)
Lemma forM_raises {S X} (body : X -> M S unit) pre x post s s1 e s2 :
  forM_ body pre s = Done tt s1 ->
  body x s1 = Raised e s2 ->
  forM_ body (pre ++ x :: post)%list s = Raised e s2.
Proof.
  intros Hpre Hx. rewrite forM_app, bind_run, Hpre. cbn [forM_].
  by rewrite bind_run, Hx.
Qed.

Lemma steady_sequential {S} (R : S -> S -> Prop) :
  PreOrder R -> Sequential R (fun _ => R).
Proof.
  intros HR. split.
  - intros s. reflexivity.
  - intros s1 s2 s3 H12 H23. by transitivity s2.
  - intros e s. reflexivity.
  - intros e s1 s2 s3 H12 H23. by transitivity s2.
Qed.

(** A relation that holds of the state reached, however it is reached. *)
Lemma always_state_of {S A} (m : M S A) (R : S -> S -> Prop) :
  (forall s, R s (state_of (m s))) -> always m R (fun _ => R).
Proof. intros Hm s. specialize (Hm s). by destruct (m s). Qed.

Section Always.
Context {S : Type} (Q : S -> S -> Prop) (E : exn -> S -> S -> Prop).
Context `{!Sequential Q E}.

Lemma always_ret {A} (x : A) : always (mret x : M S A) Q E.
Proof. intros s. apply seq_refl. Qed.

Lemma always_raise {A} e : always (raise e : M S A) Q E.
Proof. intros s. apply seq_raise. Qed.

Lemma always_gets {A} (f : S -> A) : always (gets f) Q E.
Proof. intros s. apply seq_refl. Qed.

Lemma always_bind {A B} (m : M S A) (f : A -> M S B) :
  always m Q E -> (forall x, always (f x) Q E) -> always (m ≫= f) Q E.
Proof.
  intros Hm Hf s. rewrite bind_run. specialize (Hm s).
  destruct (m s) as [x s1 | e s1]; [| done].
  specialize (Hf x s1). destruct (f x s1) as [y s2 | e s2].
  - by apply seq_trans with s1.
  - by apply seq_after with s1.
Qed.

Lemma always_when c (m : M S unit) : always m Q E -> always (when c m) Q E.
Proof. intros Hm. destruct c; [done | apply always_ret]. Qed.

Lemma always_forM {X} (body : X -> M S unit) xs :
  (forall x, x ∈ xs -> always (body x) Q E) -> always (forM_ body xs) Q E.
Proof.
  induction xs as [| x xs IH]; intros Hbody; cbn [forM_].
  - apply always_ret.
  - apply always_bind.
    + apply Hbody. left.
    + intros _. apply IH. intros y Hy. apply Hbody. by right.
Qed.

End Always.

(** Goes through a computation made of steps that each satisfy the
    relations at hand; what it cannot decide is left. *)
Ltac always_steps :=
  repeat
    lazymatch goal with
    | |- always (_ ≫= _) ?Q ?E => refine (always_bind Q E _ _ _ _); [| intros ?]
    | |- always (when _ _) ?Q ?E => refine (always_when Q E _ _ _)
    | |- always (mret _) ?Q ?E => refine (always_ret Q E _)
    | |- always (raise _) ?Q ?E => refine (always_raise Q E _)
    | |- always (gets _) ?Q ?E => refine (always_gets Q E _)
    | |- always (if ?c then _ else _) _ _ => destruct c
    | |- always (match ?x with Some _ => _ | None => _ end) _ _ => destruct x
    end.

(** ** The steps of the two passes *)

Section Steps.
Context {T : Type} `{CountingTable T}.
Context (Q : state T -> state T -> Prop) (E : exn -> state T -> state T -> Prop).
Context `{!Sequential Q E}.
Context (a : args) (pass2fp trimfp : string) (inp : read -> Prop).

Hypothesis Q_core : forall s s', same_core s s' -> Q s s'.
Hypothesis Q_median : forall r,
  inp r -> always (on_ht (get_median_count (N_to_A (sequence r)))) Q E.
Hypothesis Q_consume : forall r,
  inp r -> always (on_ht (consume (N_to_A (sequence r)))) Q E.
Hypothesis Q_trim : forall r cutoff,
  inp r -> always (on_ht (trim_on_abundance (N_to_A (sequence r)) cutoff)) Q E.
Hypothesis Q_defer : forall r, inp r -> always (write_record r pass2fp) Q E.
Hypothesis Q_emit : forall r r',
  inp r -> from_input r r' -> always (write_record r' trimfp) Q E.

Lemma always_modify_core (f : state T -> state T) :
  (forall s, same_core s (f s)) -> always (modify f) Q E.
Proof. intros Hf s. cbn. apply Q_core, Hf. Qed.

Lemma always_count f : always (count f) Q E.
Proof. by apply always_modify_core. Qed.

Lemma from_input_kept (K : Z) r trim_at :
  from_input r (if K <=? Z.of_nat trim_at then trim_record r trim_at else r).
Proof. destruct (K <=? _); [right; eauto | by left]. Qed.

Lemma pass1_chunk_always c :
  Forall inp (reads_of c) -> always (pass1_chunk a pass2fp trimfp c) Q E.
Proof.
  pose proof always_count as Hcount.
  pose proof always_modify_core as Hmod.
  destruct c as [i r | i r1 r2]; cbn [reads_of]; intros Hin.
  - rewrite Forall_singleton in Hin.
    unfold pass1_chunk. always_steps; eauto.
    + by apply Hmod.
    + by apply Hmod.
    + apply Q_emit with r; [done | right; eauto].
  - rewrite Forall_cons, Forall_singleton in Hin. destruct Hin as [Hin1 Hin2].
    unfold pass1_chunk, write_record_pair. always_steps; eauto.
    all: try (by apply Hmod).
    + apply (Q_emit r1); [done | apply from_input_kept].
    + apply (Q_emit r2); [done | apply from_input_kept].
Qed.

Lemma pass1_loop_always chunks :
  Forall inp (all_reads chunks) ->
  always (pass1_loop a pass2fp trimfp chunks) Q E.
Proof.
  intros Hin. apply always_forM; [done |]. intros c Hc.
  apply pass1_chunk_always. unfold all_reads in Hin.
  rewrite Forall_concat, Forall_fmap in Hin.
  by rewrite Forall_forall in Hin; apply Hin.
Qed.

Lemma pass2_record_always ir :
  inp ir.2 -> always (pass2_record a trimfp ir) Q E.
Proof.
  pose proof always_count as Hcount.
  pose proof always_modify_core as Hmod.
  intros Hin. unfold pass2_record. always_steps; eauto.
  - by apply Hmod.
  - apply Q_emit with ir.2; [done | by left].
  - apply Q_emit with ir.2; [done | right; eauto].
Qed.

Lemma pass2_loop_always rs :
  Forall inp rs -> always (pass2_loop a trimfp rs) Q E.
Proof.
  intros Hin. apply always_forM; [done |]. intros [i r] Hir.
  apply pass2_record_always. cbn.
  unfold enumerate in Hir.
  apply elem_of_lookup_imap in Hir as (j & r' & [= -> ->] & Hr).
  rewrite Forall_forall in Hin. apply Hin. by eapply list_elem_of_lookup_2.
Qed.

End Steps.

(** ** What a completed step did *)

Section Inversion.
Context {T : Type} `{CountingTable T}.
Context (a : args) (pass2fp trimfp : string).

Lemma appended_other fp l (s s' : state T) p :
  appended fp l s s' -> p <> fp -> content p s' = content p s.
Proof. intros [_ Hframe] Hp. unfold content. by rewrite Hframe. Qed.

Lemma same_files_content (s s' : state T) p :
  files (env s') = files (env s) -> content p s' = content p s.
Proof. unfold content. by intros ->. Qed.

(** The step on a single record, lines 204 to 226. *)
Lemma pass1_single_Done i r s s' :
  pass1_chunk a pass2fp trimfp (Single i r) s = Done tt s' ->
  exists med t1,
    get_median_count (N_to_A (sequence r)) (ht s) = Done med t1 /\
    if med <? normalize_to a then
      consume (N_to_A (sequence r)) t1 = Done tt (ht s') /\
      appended pass2fp [r] s s'
    else
      exists trim_at,
        trim_on_abundance (N_to_A (sequence r)) (abund_cutoff a) t1
        = Done trim_at (ht s') /\
        if ksize a <=? Z.of_nat trim_at
        then appended trimfp [trim_record r trim_at] s s'
        else files (env s') = files (env s).
Proof.
  intros Hrun. unfold pass1_chunk in Hrun. cbv zeta in Hrun. minv Hrun.
  all: eexists _, _; (split; [eassumption |]); rewrite Hc.
  - destruct a4. split; [done | files_solve].
  - eexists. split; [eassumption |]. rewrite Hc0. files_solve.
  - eexists. split; [eassumption |]. rewrite Hc0. files_solve.
  - eexists. split; [eassumption |]. by rewrite Hc0.
Qed.

(** The step on a pair, lines 171 to 202. *)
Lemma pass1_paired_Done i r1 r2 s s' :
  pass1_chunk a pass2fp trimfp (Paired i r1 r2) s = Done tt s' ->
  exists med1 med2 t1 t2,
    get_median_count (N_to_A (sequence r1)) (ht s) = Done med1 t1 /\
    get_median_count (N_to_A (sequence r2)) t1 = Done med2 t2 /\
    if (med1 <? normalize_to a) || (med2 <? normalize_to a) then
      (exists t3,
         consume (N_to_A (sequence r1)) t2 = Done tt t3 /\
         consume (N_to_A (sequence r2)) t3 = Done tt (ht s')) /\
      appended pass2fp [r1; r2] s s'
    else
      exists trim_at1 trim_at2 t3,
        trim_on_abundance (N_to_A (sequence r1)) (abund_cutoff a) t2
        = Done trim_at1 t3 /\
        trim_on_abundance (N_to_A (sequence r2)) (abund_cutoff a) t3
        = Done trim_at2 (ht s') /\
        appended trimfp
          [ if ksize a <=? Z.of_nat trim_at1
            then trim_record r1 trim_at1 else r1;
            if ksize a <=? Z.of_nat trim_at2
            then trim_record r2 trim_at2 else r2 ] s s'.
Proof.
  intros Hrun. unfold pass1_chunk in Hrun. cbv zeta in Hrun. minv Hrun.
  all: eexists _, _, _, _; (split; [eassumption |]); (split; [eassumption |]);
    rewrite Hc.
  1: { destruct a5, a6. split; [eauto | files_solve]. }
  all: eexists _, _, _; (split; [eassumption |]); (split; [eassumption |]).
  all: files_solve.
Qed.

(** The step of the second pass, lines 254 to 277. *)
Lemma pass2_record_Done ir s s' :
  pass2_record a trimfp ir s = Done tt s' ->
  exists med t1,
    get_median_count (N_to_A (sequence ir.2)) (ht s) = Done med t1 /\
    if (med <? normalize_to a) && variable_coverage a then
      ht s' = t1 /\ appended trimfp [ir.2] s s'
    else
      exists trim_at,
        trim_on_abundance (N_to_A (sequence ir.2)) (abund_cutoff a) t1
        = Done trim_at (ht s') /\
        if ksize a <=? Z.of_nat trim_at
        then appended trimfp [trim_record ir.2 trim_at] s s'
        else files (env s') = files (env s).
Proof.
  intros Hrun. unfold pass2_record in Hrun. cbv zeta in Hrun. minv Hrun.
  all: eexists _, _; (split; [eassumption |]); rewrite Hc.
  - split; [done | files_solve].
  - eexists. split; [eassumption |]. rewrite Hc0. files_solve.
  - eexists. split; [eassumption |]. rewrite Hc0. files_solve.
  - eexists. split; [eassumption |]. by rewrite Hc0.
Qed.

End Inversion.

(** ** Accounting for every record *)

Section Accounting.
Context {T : Type} `{CountingTable T}.
Context (a : args) (pass2fp trimfp : string).
Hypothesis distinct : pass2fp <> trimfp.

Lemma appended_trans fp l1 l2 (s s1 s2 : state T) :
  appended fp l1 s s1 -> appended fp l2 s1 s2 -> appended fp (l1 ++ l2) s s2.
Proof.
  intros [Hc1 Hf1] [Hc2 Hf2]. split.
  - by rewrite Hc2, Hc1, app_assoc.
  - intros p Hp. by rewrite Hf2, Hf1.
Qed.

Lemma accounted_nil (s : state T) : accounted pass2fp trimfp [] [] s s.
Proof.
  split; [constructor |]. cbn. by rewrite !app_nil_r.
Qed.

Lemma accounted_trans rs1 fs1 rs2 fs2 (s s1 s2 : state T) :
  accounted pass2fp trimfp rs1 fs1 s s1 ->
  accounted pass2fp trimfp rs2 fs2 s1 s2 ->
  accounted pass2fp trimfp (rs1 ++ rs2) (fs1 ++ fs2) s s2.
Proof.
  intros (Hok1 & Hd1 & He1 & Hf1) (Hok2 & Hd2 & He2 & Hf2).
  split; [by apply Forall2_app |].
  rewrite sources_app by (by eapply Forall2_length).
  rewrite emitted_of_app, Hd2, Hd1, He2, He1, !app_assoc.
  repeat split; try done. intros p Hp2 Htf. by rewrite Hf2, Hf1.
Qed.

Lemma deferred_accounted rs (s s' : state T) :
  appended pass2fp rs s s' ->
  accounted pass2fp trimfp rs (const Deferred <$> rs) s s'.
Proof.
  intros Happ. pose proof Happ as [Hc Hf].
  assert (Hsrc : forall l, sources is_deferred l (const Deferred <$> l) = l)
    by (induction l; cbn; congruence).
  assert (Hemit : forall l : list read, emitted_of (const Deferred <$> l) = [])
    by (induction l; cbn; congruence).
  split; [| rewrite Hsrc, Hemit, app_nil_r; repeat split].
  - apply Forall2_fmap_r, Forall_Forall2_diag, Forall_true. done.
  - done.
  - by eapply appended_other.
  - intros p Hp _. by apply Hf.
Qed.

Lemma emitted_accounted r r' (s s' : state T) :
  from_input r r' ->
  appended trimfp [r'] s s' ->
  accounted pass2fp trimfp [r] [Emitted r'] s s'.
Proof.
  intros Hfrom Happ. pose proof Happ as [Hc Hf].
  split; [constructor; [exact Hfrom | constructor] |]. cbn. rewrite app_nil_r.
  repeat split; [by eapply appended_other | done |].
  intros p _ Hp. by apply Hf.
Qed.

Lemma dropped_accounted r (s s' : state T) :
  files (env s') = files (env s) ->
  accounted pass2fp trimfp [r] [Dropped] s s'.
Proof.
  intros Hsame. split; [constructor; [exact I | constructor] |].
  cbn. rewrite !app_nil_r.
  repeat split; try by apply same_files_content. intros. by rewrite Hsame.
Qed.

(** A completed first-pass step gives each of its records one fate. *)
Lemma pass1_chunk_accounted c s s' :
  pass1_chunk a pass2fp trimfp c s = Done tt s' ->
  exists fs, accounted pass2fp trimfp (reads_of c) fs s s'.
Proof.
  destruct c as [i r | i r1 r2]; intros Hrun; cbn [reads_of].
  - apply pass1_single_Done in Hrun as (med & t1 & _ & Hcase).
    destruct (med <? normalize_to a).
    + destruct Hcase as [_ Happ].
      exists (const Deferred <$> [r]). by apply deferred_accounted.
    + destruct Hcase as (trim_at & _ & Hcase).
      destruct (ksize a <=? Z.of_nat trim_at).
      * exists [Emitted (trim_record r trim_at)].
        apply emitted_accounted; [right; eauto | done].
      * exists [Dropped]. by apply dropped_accounted.
  - apply pass1_paired_Done in Hrun as (med1 & med2 & t1 & t2 & _ & _ & Hcase).
    destruct ((med1 <? normalize_to a) || (med2 <? normalize_to a)).
    + destruct Hcase as [_ Happ].
      exists (const Deferred <$> [r1; r2]). by apply deferred_accounted.
    + destruct Hcase as (trim_at1 & trim_at2 & t3 & _ & _ & Happ).
      destruct Happ as [Hc Hf].
      exists
        [ Emitted (if ksize a <=? Z.of_nat trim_at1
                   then trim_record r1 trim_at1 else r1);
          Emitted (if ksize a <=? Z.of_nat trim_at2
                   then trim_record r2 trim_at2 else r2) ].
      split; [do 2 (constructor; [exact (from_input_kept _ _ _) |]);
              constructor |].
      cbn. rewrite app_nil_r. repeat split; [| exact Hc |].
      * unfold content. by rewrite Hf.
      * intros p _ Hp. by apply Hf.
Qed.

Lemma pass1_loop_accounted chunks s s' :
  pass1_loop a pass2fp trimfp chunks s = Done tt s' ->
  exists fs, accounted pass2fp trimfp (all_reads chunks) fs s s'.
Proof.
  unfold pass1_loop, all_reads. revert s.
  induction chunks as [| c chunks IH]; intros s Hrun; cbn in Hrun |- *.
  - apply mret_Done in Hrun as [_ ->]. exists []. apply accounted_nil.
  - apply bind_Done_inv in Hrun as ([] & s1 & Hc & Hrest).
    apply pass1_chunk_accounted in Hc as [fs1 Hacc1].
    apply IH in Hrest as [fs2 Hacc2].
    exists (fs1 ++ fs2)%list. by eapply accounted_trans.
Qed.

(** A completed second-pass step emits its record or drops it, and
    touches no file but the output. *)
Lemma pass2_record_fate ir s s' :
  pass2_record a trimfp ir s = Done tt s' ->
  exists f, fate_ok ir.2 f /\ is_deferred f = false /\
            appended trimfp (emitted_of [f]) s s'.
Proof.
  intros Hrun.
  apply pass2_record_Done in Hrun as (med & t1 & _ & Hcase).
  destruct ((med <? normalize_to a) && variable_coverage a).
  - destruct Hcase as [_ Happ]. exists (Emitted ir.2).
    repeat split; [by left | apply Happ..].
  - destruct Hcase as (trim_at & _ & Hcase).
    destruct (ksize a <=? Z.of_nat trim_at).
    + exists (Emitted (trim_record ir.2 trim_at)).
      repeat split; [right; eauto | apply Hcase..].
    + exists Dropped. repeat split; cbn.
      * rewrite app_nil_r. by apply same_files_content.
      * intros. by rewrite Hcase.
Qed.

Lemma pass2_steps_fates irs s s' :
  forM_ (pass2_record a trimfp) irs s = Done tt s' ->
  exists fs, Forall2 fate_ok irs.*2 fs /\
             Forall (fun f => is_deferred f = false) fs /\
             appended trimfp (emitted_of fs) s s'.
Proof.
  revert s. induction irs as [| ir irs IH]; intros s Hrun; cbn in Hrun |- *.
  - apply mret_Done in Hrun as [_ ->]. exists [].
    repeat split; [constructor.. | by rewrite app_nil_r].
  - apply bind_Done_inv in Hrun as ([] & s1 & Hr & Hrest).
    apply pass2_record_fate in Hr as (f & Hok & Hnd & Happ1).
    apply IH in Hrest as (fs & Hoks & Hnds & Happ2).
    exists (f :: fs). split; [by constructor |]. split; [by constructor |].
    change (f :: fs) with ([f] ++ fs)%list. rewrite emitted_of_app.
    by eapply appended_trans.
Qed.

Lemma enumerate_snd {A} (l : list A) : (enumerate l).*2 = l.
Proof.
  unfold enumerate. rewrite fmap_imap. cbn.
  rewrite <- (list_fmap_id l) at 2. apply imap_const.
Qed.

Lemma pass2_loop_fates rs s s' :
  pass2_loop a trimfp rs s = Done tt s' ->
  exists fs, Forall2 fate_ok rs fs /\
             Forall (fun f => is_deferred f = false) fs /\
             appended trimfp (emitted_of fs) s s'.
Proof.
  intros Hrun. apply pass2_steps_fates in Hrun.
  by rewrite enumerate_snd in Hrun.
Qed.

End Accounting.

(** ** Pairs in the first pass *)

(** C2.  A pair that completes the first-pass step was handled as one
    unit.  When the median of either mate is below the limit, both mates
    were consumed into the table and both were added to the deferred
    store, and the output did not change; only when both medians reach
    the limit were the mates trimmed and added to the output, and then
    the deferred store did not change. *)
Theorem pass1_pair_atomic {T} `{CountingTable T} a pass2fp trimfp i r1 r2
    (s s' : state T) :
  pass2fp <> trimfp ->
  pass1_chunk a pass2fp trimfp (Paired i r1 r2) s = Done tt s' ->
  exists med1 med2 t1 t2,
    get_median_count (N_to_A (sequence r1)) (ht s) = Done med1 t1 /\
    get_median_count (N_to_A (sequence r2)) t1 = Done med2 t2 /\
    if (med1 <? normalize_to a) || (med2 <? normalize_to a) then
      (exists t3,
         consume (N_to_A (sequence r1)) t2 = Done tt t3 /\
         consume (N_to_A (sequence r2)) t3 = Done tt (ht s')) /\
      content pass2fp s' = (content pass2fp s ++ [r1; r2])%list /\
      content trimfp s' = content trimfp s
    else
      exists trim_at1 trim_at2 t3,
        trim_on_abundance (N_to_A (sequence r1)) (abund_cutoff a) t2
        = Done trim_at1 t3 /\
        trim_on_abundance (N_to_A (sequence r2)) (abund_cutoff a) t3
        = Done trim_at2 (ht s') /\
        content pass2fp s' = content pass2fp s /\
        content trimfp s' =
          (content trimfp s ++
           [ if ksize a <=? Z.of_nat trim_at1
             then trim_record r1 trim_at1 else r1;
             if ksize a <=? Z.of_nat trim_at2
             then trim_record r2 trim_at2 else r2 ])%list.
Proof.
  intros Hne Hrun.
  apply pass1_paired_Done in Hrun as (med1 & med2 & t1 & t2 & Hm1 & Hm2 & Hcase).
  exists med1, med2, t1, t2. split; [done |]. split; [done |].
  destruct ((med1 <? normalize_to a) || (med2 <? normalize_to a)).
  - destruct Hcase as [Hcons Happ]. split; [done |]. split; [apply Happ |].
    by eapply appended_other.
  - destruct Hcase as (trim_at1 & trim_at2 & t3 & Ht1 & Ht2 & Happ).
    exists trim_at1, trim_at2, t3. repeat split; try done; [| apply Happ].
    by eapply appended_other.
Qed.

Lemma pass1_pair_atomic_witness :
  let s' := state_of (pass1_chunk ex_args "x.pass2" "x.abundtrim"
                        (Paired 0 mate_low mate_cut) (ex_state ex_table)) in
  content "x.pass2" s' = [mate_low; mate_cut] /\ content "x.abundtrim" s' = [].
Proof.
  intros s'.
  destruct (pass1_pair_atomic ex_args "x.pass2" "x.abundtrim" 0 mate_low mate_cut
              (ex_state ex_table) s')
    as (med1 & med2 & t1 & t2 & Hm1 & Hm2 & Hcase).
  - done.
  - vm_compute. reflexivity.
  - vm_compute in Hm1. injection Hm1 as <- <-.
    vm_compute in Hm2. injection Hm2 as <- <-.
    cbn in Hcase. destruct Hcase as (_ & Hp2 & Htf).
    split; [exact Hp2 | exact Htf].
Defined.

(** ** Records that reach the limit in the first pass *)

(** C1, on a pair.  Both mates have a median of 4, over the limit of 3,
    and [trim_on_abundance] gives 3 for the first mate, under K = 4.
    As a single record that mate is dropped; as the mate of a pair it
    is written to the output, whole.  So it is in a whole run: the file
    with the pair has the 20 bases of the mate on its output, while
    [wrote_bp] counts 3 for them; the file without the second mate has
    not. *)
Lemma pass1_pair_short_mate_written :
  let s := ex_state ex_seen in
  let seq := N_to_A (sequence mate_low) in
  let paired := ex_files {["reads/x.fa" := [solid; mate_low; mate_solid]]} 100 in
  let alone := ex_files {["reads/x.fa" := [solid; mate_low]]} 100 in
  get_median_count seq ex_seen = Done 4 ex_seen /\
  get_median_count (N_to_A (sequence mate_solid)) ex_seen = Done 4 ex_seen /\
  trim_on_abundance seq (abund_cutoff ex_args) ex_seen = Done 3%nat ex_seen /\
  content "x.abundtrim"
    (state_of (pass1_chunk ex_args "x.pass2" "x.abundtrim" (Single 0 mate_low) s))
  = [] /\
  content "x.abundtrim"
    (state_of (pass1_chunk ex_args "x.pass2" "x.abundtrim"
                 (Paired 0 mate_low mate_solid) s))
  = [mate_low; mate_solid] /\
  files (final_world (main (T := Sketch.table) ex_args paired)) !! "x.fa.abundtrim"
  = Some [mate_low; mate_solid; solid] /\
  files (final_world (main (T := Sketch.table) ex_args alone)) !! "x.fa.abundtrim"
  = Some [solid] /\
  wrote_bp (cnt (state_of
    (passes ex_args ex_tempdir
       (State ex_table (set_dirs [ex_tempdir] paired) zero_counters [] 0 None))))
  = 3 + 16 + 16.
Proof. repeat split; vm_compute; reflexivity. Qed.

(** ** The second pass *)

(** C3.  A record that completes the second-pass step was handled by
    the policy: with [variable_coverage] on and a median still below
    the limit it was added to the output as it is; otherwise it was cut
    at [trim_at] and added to the output when [trim_at >= K], and
    dropped when not.  No other file changed. *)
Theorem pass2_record_policy {T} `{CountingTable T} a trimfp ir (s s' : state T) :
  pass2_record a trimfp ir s = Done tt s' ->
  (forall p, p <> trimfp -> files (env s') !! p = files (env s) !! p) /\
  exists med t1,
    get_median_count (N_to_A (sequence ir.2)) (ht s) = Done med t1 /\
    if (med <? normalize_to a) && variable_coverage a then
      ht s' = t1 /\
      content trimfp s' = (content trimfp s ++ [ir.2])%list
    else
      exists trim_at,
        trim_on_abundance (N_to_A (sequence ir.2)) (abund_cutoff a) t1
        = Done trim_at (ht s') /\
        content trimfp s' =
          (content trimfp s ++
           if ksize a <=? Z.of_nat trim_at
           then [trim_record ir.2 trim_at] else [])%list.
Proof.
  intros Hrun. split.
  - apply pass2_record_fate in Hrun as (f & _ & _ & Happ). apply Happ.
  - apply pass2_record_Done in Hrun as (med & t1 & Hmed & Hcase).
    exists med, t1. split; [done |].
    destruct ((med <? normalize_to a) && variable_coverage a).
    + destruct Hcase as [Hht Happ]. split; [done | apply Happ].
    + destruct Hcase as (trim_at & Htrim & Hcase). exists trim_at.
      split; [done |]. destruct (ksize a <=? Z.of_nat trim_at).
      * apply Hcase.
      * rewrite app_nil_r. by apply same_files_content.
Qed.

Lemma pass2_record_policy_witness :
  let s := ex_state ex_seen in
  let s' := state_of (pass2_record ex_args_vc "x.abundtrim" (0%nat, novel) s) in
  pass2_record ex_args_vc "x.abundtrim" (0%nat, novel) s = Done tt s' /\
  content "x.abundtrim" s' = [novel].
Proof.
  intros s s'.
  assert (Hrun : pass2_record ex_args_vc "x.abundtrim" (0%nat, novel) s
                 = Done tt s') by (vm_compute; reflexivity).
  split; [exact Hrun |].
  destruct (pass2_record_policy ex_args_vc "x.abundtrim" (0%nat, novel) s s' Hrun)
    as (_ & med & t1 & Hmed & Hcase).
  vm_compute in Hmed. injection Hmed as <- <-.
  cbn in Hcase. destruct Hcase as [_ Hout]. exact Hout.
Defined.

(** ** One outcome for every record *)

Lemma sources_none p rs fs :
  Forall (fun f => p f = false) fs -> sources p rs fs = [].
Proof.
  intros Hfs. revert rs. induction Hfs as [| f fs Hf _ IH]; intros [| r rs];
    cbn; try done. by rewrite Hf.
Qed.

Lemma NoDup_part {A} (l k rest : list A) :
  l ≡ₚ (k ++ rest)%list -> NoDup l -> NoDup k.
Proof. intros ->. rewrite NoDup_app. tauto. Qed.

(** C4.  Take the first-pass loop over the records of a file, started
    with an empty deferred store and an empty output, and the
    second-pass loop over what the deferred store then holds, started in
    any later state that left the two files as they were.  When both
    loops complete, every input record has met exactly one fate in the
    first pass (deferred, emitted or dropped) and every deferred record
    exactly one in the second (emitted or dropped, never deferred
    again): the deferred store holds the records deferred, the second
    pass leaves it as it is, and the output holds what the first pass
    emitted followed by what the second pass emitted.  In particular no
    record is on the output twice. *)
Theorem every_record_one_outcome {T} `{CountingTable T} a pass2fp trimfp chunks
    (s s1 s1' s2 : state T) :
  pass2fp <> trimfp ->
  content pass2fp s = [] ->
  content trimfp s = [] ->
  pass1_loop a pass2fp trimfp chunks s = Done tt s1 ->
  content pass2fp s1' = content pass2fp s1 ->
  content trimfp s1' = content trimfp s1 ->
  pass2_loop a trimfp (content pass2fp s1) s1' = Done tt s2 ->
  let rs := all_reads chunks in
  let deferred := content pass2fp s1 in
  exists fs1 fs2,
    Forall2 fate_ok rs fs1 /\
    Forall2 fate_ok deferred fs2 /\
    Forall (fun f => is_deferred f = false) fs2 /\
    deferred = sources is_deferred rs fs1 /\
    content trimfp s1 = emitted_of fs1 /\
    content pass2fp s2 = deferred /\
    content trimfp s2 = (emitted_of fs1 ++ emitted_of fs2)%list /\
    rs ≡ₚ (deferred ++ sources is_emitted rs fs1
           ++ sources is_dropped rs fs1)%list /\
    deferred ≡ₚ (sources is_emitted deferred fs2
                 ++ sources is_dropped deferred fs2)%list /\
    (NoDup (name <$> rs) -> NoDup (name <$> content trimfp s2)).
Proof.
  intros Hne Hp2 Htf Hpass1 Hsame2 Hsametf Hpass2 rs deferred.
  apply pass1_loop_accounted in Hpass1 as (fs1 & Hok1 & Hdef & Hemit & _);
    [| done].
  apply pass2_loop_fates in Hpass2 as (fs2 & Hok2 & Hnodef & Happ).
  fold rs in Hok1, Hdef, Hemit. fold deferred in Hok2, Hdef.
  rewrite Hp2 in Hdef. rewrite Htf in Hemit. cbn in Hdef, Hemit.
  assert (Hout : content trimfp s2 = (emitted_of fs1 ++ emitted_of fs2)%list).
  { destruct Happ as [-> _]. by rewrite Hsametf, Hemit. }
  assert (Hperm1 : rs ≡ₚ (deferred ++ sources is_emitted rs fs1
                          ++ sources is_dropped rs fs1)%list).
  { rewrite Hdef. apply fates_partition. by eapply Forall2_length. }
  assert (Hperm2 : deferred ≡ₚ (sources is_emitted deferred fs2
                                ++ sources is_dropped deferred fs2)%list).
  { rewrite (fates_partition deferred fs2) at 1 by (by eapply Forall2_length).
    by rewrite (sources_none is_deferred). }
  exists fs1, fs2. repeat split; try done.
  - destruct Happ as [_ Hframe]. unfold deferred, content in *.
    rewrite Hframe by done. exact Hsame2.
  - intros Hnodup. rewrite Hout, fmap_app.
    rewrite (emitted_names _ _ Hok1), (emitted_names _ _ Hok2), <- fmap_app.
    revert Hperm1 Hperm2.
    generalize (sources is_emitted rs fs1) (sources is_dropped rs fs1)
      (sources is_emitted deferred fs2) (sources is_dropped deferred fs2).
    intros E1 X1 E2 X2 Hperm1 Hperm2.
    apply (NoDup_part (name <$> rs) _ (name <$> (X2 ++ X1)%list)); [| done].
    rewrite <- fmap_app. apply fmap_Permutation.
    rewrite Hperm1, Hperm2, Permutation_app_swap_app.
    by rewrite <- !app_assoc.
Qed.

Lemma every_record_one_outcome_witness :
  let chunks := broken_paired_reader [solid; solid_again; mate_low; mate_cut; novel] in
  let s := ex_state ex_table in
  let s1 := state_of (pass1_loop ex_args "x.pass2" "x.abundtrim" chunks s) in
  let s2 := state_of (pass2_loop ex_args "x.abundtrim" (content "x.pass2" s1) s1) in
  pass1_loop ex_args "x.pass2" "x.abundtrim" chunks s = Done tt s1 /\
  pass2_loop ex_args "x.abundtrim" (content "x.pass2" s1) s1 = Done tt s2 /\
  content "x.pass2" s1 = [solid; novel] /\
  NoDup (name <$> content "x.abundtrim" s2).
Proof.
  intros chunks s s1 s2.
  assert (Hpass1 : pass1_loop ex_args "x.pass2" "x.abundtrim" chunks s = Done tt s1)
    by (vm_compute; reflexivity).
  assert (Hpass2 : pass2_loop ex_args "x.abundtrim" (content "x.pass2" s1) s1
                   = Done tt s2) by (vm_compute; reflexivity).
  split; [exact Hpass1 |]. split; [exact Hpass2 |].
  split; [vm_compute; reflexivity |].
  destruct (every_record_one_outcome ex_args "x.pass2" "x.abundtrim" chunks
              s s1 s1 s2)
    as (fs1 & fs2 & _ & _ & _ & _ & _ & _ & _ & _ & _ & Hnodup);
    [done | reflexivity | reflexivity | exact Hpass1 | reflexivity | reflexivity
     | exact Hpass2 |].
  apply Hnodup. vm_compute.
  apply NoDup_ListNoDup; repeat constructor; cbn; intuition discriminate.
Defined.

(** ** What reaches the output *)

Lemma always_reached {S A} (m : M S A) (R : S -> S -> Prop) s :
  always m R (fun _ => R) -> R s (state_of (m s)).
Proof. intros Hm. specialize (Hm s). by destruct (m s). Qed.

Section Output.
Context {T : Type} `{CountingTable T}.

Lemma on_ht_env {A} (op : M T A) (s : state T) :
  env (state_of (on_ht op s)) = env s.
Proof. unfold on_ht. by destruct (op (ht s)). Qed.

End Output.

Lemma slice_to_first_chars n s : first_chars n s (slice_to n s).
Proof. split; [apply slice_to_prefix | apply slice_to_length]. Qed.

Lemma trim_record_cut_at r trim_at : cut_at trim_at r (trim_record r trim_at).
Proof.
  unfold cut_at. cbn. split; [done |]. split; [apply slice_to_first_chars |].
  destruct (accuracy r) as [q |]; cbn; [| done].
  exists (slice_to trim_at q). split; [done | apply slice_to_first_chars].
Qed.

Section PutOut.
Context {T : Type} `{CountingTable T}.
Context (a : args) (inp : read -> Prop) (fp : string).

Lemma put_out_preorder : PreOrder (put_out (T := T) a inp fp).
Proof.
  split.
  - intros s. exists []. split; [by rewrite app_nil_r | constructor].
  - intros s1 s2 s3 (new1 & Hc1 & Hall1) (new2 & Hc2 & Hall2).
    exists (new1 ++ new2)%list. split.
    + by rewrite Hc2, Hc1, app_assoc.
    + by apply Forall_app.
Qed.

Lemma put_out_whole r :
  inp r -> exists r0, inp r0 /\ written_for a r0 r /\ preserves_bases r0 r.
Proof.
  intros Hr. exists r. split; [done |]. split; [by left |].
  apply same_record_preserves_bases.
Qed.

Lemma put_out_cut r trim_at (t t' : T) :
  inp r ->
  trim_on_abundance (N_to_A (sequence r)) (abund_cutoff a) t = Done trim_at t' ->
  (ksize a <=? Z.of_nat trim_at) = true ->
  exists r0, inp r0 /\ written_for a r0 (trim_record r trim_at) /\
             preserves_bases r0 (trim_record r trim_at).
Proof.
  intros Hr Htrim HK. exists r. split; [done |]. split.
  - right. exists trim_at, t, t'. split; [done |]. split; [lia |].
    apply trim_record_cut_at.
  - apply trim_record_preserves_bases.
Qed.

(** Closes the goal on the output at the end of one way through a
    step. *)
Ltac put_out_solve :=
  unfold put_out, content; cbn;
  rewrite ?lookup_insert_eq, ?lookup_insert_ne by done; cbn;
  rewrite ?lookup_insert_eq, ?lookup_insert_ne by done; cbn;
  rewrite <- ?app_assoc;
  first
    [ by (exists []; split; [by rewrite app_nil_r | constructor])
    | eexists; split; [reflexivity |];
      repeat constructor;
      eauto using put_out_whole, put_out_cut ].

(** Whatever the step of the first pass does, what it adds to the
    output was written for a record of its chunk. *)
Lemma pass1_chunk_put_out pass2fp c (s : state T) :
  pass2fp <> fp ->
  Forall inp (reads_of c) ->
  put_out a inp fp s (state_of (pass1_chunk a pass2fp fp c s)).
Proof.
  intros Hne Hin. destruct c as [i r | i r1 r2]; cbn [reads_of] in Hin.
  - rewrite Forall_singleton in Hin.
    unfold pass1_chunk. cbv zeta. forward; put_out_solve.
  - rewrite Forall_cons, Forall_singleton in Hin. destruct Hin as [Hin1 Hin2].
    unfold pass1_chunk. cbv zeta. forward; put_out_solve.
Qed.

Lemma pass2_record_put_out ir (s : state T) :
  inp ir.2 ->
  put_out a inp fp s (state_of (pass2_record a fp ir s)).
Proof.
  intros Hin. unfold pass2_record. cbv zeta. forward; put_out_solve.
Qed.

Lemma pass1_loop_put_out pass2fp chunks (s : state T) :
  pass2fp <> fp ->
  Forall inp (all_reads chunks) ->
  put_out a inp fp s (state_of (pass1_loop a pass2fp fp chunks s)).
Proof.
  intros Hne Hin. apply always_reached.
  apply (always_forM _ _ (Sequential0 := steady_sequential _ put_out_preorder)).
  intros c Hc. apply always_state_of. intros s0.
  apply pass1_chunk_put_out; [done |].
  unfold all_reads in Hin. rewrite Forall_concat, Forall_fmap in Hin.
  by rewrite Forall_forall in Hin; apply Hin.
Qed.

Lemma pass2_loop_put_out rs (s : state T) :
  Forall inp rs ->
  put_out a inp fp s (state_of (pass2_loop a fp rs s)).
Proof.
  intros Hin. apply always_reached.
  apply (always_forM _ _ (Sequential0 := steady_sequential _ put_out_preorder)).
  intros [i r] Hir. apply always_state_of. intros s0.
  apply pass2_record_put_out. cbn.
  unfold enumerate in Hir.
  apply elem_of_lookup_imap in Hir as (j & r' & [= -> ->] & Hr).
  rewrite Forall_forall in Hin. apply Hin. by eapply list_elem_of_lookup_2.
Qed.

End PutOut.

(** C10.  [trim_record] cuts a record at [trim_at]: it keeps the name,
    the first [trim_at] characters of the sequence and, when there is a
    quality string, the first [trim_at] characters of that.  Whatever
    the loops of the two passes do, and also when they are cut short by
    an exception, every record they add to the output was written for
    a record of their input: it is that record as it was read, or that
    record cut at a position that the table returned from
    [trim_on_abundance] for its N-substituted sequence and that is at
    least K.  In both cases the sequence written is a prefix of the
    sequence as it was read, so the substitution of [N] made for
    counting is not in it, and a quality string as long as the sequence
    stays as long as the sequence. *)
Theorem output_preserves_bases {T} `{CountingTable T} a pass2fp trimfp chunks rs
    (s s2 : state T) :
  (forall r trim_at, cut_at trim_at r (trim_record r trim_at)) /\
  (pass2fp <> trimfp ->
   exists new,
     content trimfp (state_of (pass1_loop a pass2fp trimfp chunks s))
     = (content trimfp s ++ new)%list /\
     Forall (fun r' => exists r, r ∈ all_reads chunks /\
                                written_for a r r' /\ preserves_bases r r') new) /\
  (exists new,
     content trimfp (state_of (pass2_loop a trimfp rs s2))
     = (content trimfp s2 ++ new)%list /\
     Forall (fun r' => exists r, r ∈ rs /\
                                written_for a r r' /\ preserves_bases r r') new).
Proof.
  split_and!.
  - intros r trim_at. apply trim_record_cut_at.
  - intros Hne.
    apply (pass1_loop_put_out a (fun r => r ∈ all_reads chunks)); [done |].
    by apply Forall_forall.
  - apply (pass2_loop_put_out a (fun r => r ∈ rs)). by apply Forall_forall.
Qed.

(** The output of the first loop on five records: the second record,
    whole; the pair, of which the first mate is written whole and the
    second is cut at 13, sequence and quality string. *)
Lemma output_preserves_bases_witness :
  content "x.abundtrim" ex_after_pass1
  = [solid_again; mate_low; Read "p/2" "ACGTACGTACGTA" (Some "IIIIIIIIIIIII")] /\
  Forall (fun r' => exists r, r ∈ all_reads ex_chunks /\
                             written_for ex_args r r' /\ preserves_bases r r')
    (content "x.abundtrim" ex_after_pass1).
Proof.
  split; [vm_compute; reflexivity |].
  destruct (output_preserves_bases ex_args "x.pass2" "x.abundtrim" ex_chunks []
              (ex_state ex_table) (ex_state ex_table))
    as (_ & Hloop & _).
  destruct Hloop as (new & Hc & Hall); [done |].
  unfold ex_after_pass1. rewrite Hc. exact Hall.
Defined.

(** ** Runs on a table that records its calls *)

Section Traced.
Context {T : Type} `{CountingTable T}.
Context (Q : state (traced T) -> state (traced T) -> Prop).
Context (E : exn -> state (traced T) -> state (traced T) -> Prop).
Context `{!Sequential Q E}.

Hypothesis Q_ht : forall s s', ht s' = ht s -> Q s s'.
Hypothesis E_ht : forall e s s', ht s' = ht s -> E e s s'.
Hypothesis Q_recorded : forall A (op : M T A) r,
  always (on_ht (recorded (N_to_A (sequence r)) op)) Q E.

(** Steps that leave the table alone. *)
Lemma keeps_ht_always {A} (m : M (state (traced T)) A) :
  (forall s, ht (state_of (m s)) = ht s) -> always m Q E.
Proof.
  intros Hm s. specialize (Hm s).
  destruct (m s) as [x s' | e s']; [by apply Q_ht | by apply E_ht].
Qed.

Lemma write_record_run r fp : always (write_record (T := traced T) r fp) Q E.
Proof.
  apply keeps_ht_always. intros s. unfold write_record.
  by destruct (free_space (env s)).
Qed.

Lemma screed_open_run path : always (screed_open (T := traced T) path) Q E.
Proof.
  apply keeps_ht_always. intros s. unfold screed_open.
  by destruct (files (env s) !! path).
Qed.

Lemma unlink_run path : always (unlink (T := traced T) path) Q E.
Proof.
  apply keeps_ht_always. intros s. unfold unlink.
  by destruct (files (env s) !! path).
Qed.

Lemma modify_run (f : state (traced T) -> state (traced T)) :
  (forall s, ht (f s) = ht s) -> always (modify f) Q E.
Proof. intros Hf. by apply keeps_ht_always. Qed.

Lemma pass1_loop_run a pass2fp trimfp chunks :
  always (pass1_loop (T := traced T) a pass2fp trimfp chunks) Q E.
Proof.
  apply pass1_loop_always with (inp := fun _ => True); try done.
  - intros s s' [Hht _]. by apply Q_ht.
  - intros r _. apply Q_recorded.
  - intros r _. apply Q_recorded.
  - intros r cutoff _. apply Q_recorded.
  - intros r _. apply write_record_run.
  - intros r r' _ _. apply write_record_run.
  - by apply Forall_true.
Qed.

Lemma pass2_loop_run a trimfp rs :
  always (pass2_loop (T := traced T) a trimfp rs) Q E.
Proof.
  apply pass2_loop_always with (inp := fun _ => True); try done.
  - intros s s' [Hht _]. by apply Q_ht.
  - intros r _. apply Q_recorded.
  - intros r cutoff _. apply Q_recorded.
  - intros r r' _ _. apply write_record_run.
  - by apply Forall_true.
Qed.

Lemma pass1_file_run a tempdir filename :
  always (pass1_file (T := traced T) a tempdir filename) Q E.
Proof.
  unfold pass1_file. cbv zeta. always_steps.
  - by apply modify_run.
  - apply screed_open_run.
  - by apply modify_run.
  - by apply modify_run.
  - by apply modify_run.
  - apply pass1_loop_run.
  - by apply modify_run.
Qed.

Lemma pass2_file_run a entry :
  always (pass2_file (T := traced T) a entry) Q E.
Proof.
  destruct entry as [[orig pass2filename] trimfilename].
  unfold pass2_file. always_steps.
  - apply modify_run. intros s. cbn.
    by destruct (files (env s) !! trimfilename).
  - apply screed_open_run.
  - apply pass2_loop_run.
  - apply unlink_run.
Qed.

Lemma passes_run a tempdir : always (passes (T := traced T) a tempdir) Q E.
Proof.
  unfold passes. always_steps.
  - by apply modify_run.
  - apply always_forM; [done |]. intros f _. apply pass1_file_run.
  - by apply modify_run.
  - apply always_forM; [done |]. intros e _. apply pass2_file_run.
  - by apply modify_run.
Qed.

Lemma report_run a : always (report (T := traced T) a) Q E.
Proof.
  unfold report. always_steps.
  - by apply modify_run.
  - apply always_forM; [done |]. intros l _. by apply modify_run.
Qed.

Lemma main_run a tempdir :
  always (passes (T := traced T) a tempdir ;; report a) Q E.
Proof.
  apply always_bind; [done | apply passes_run |]. intros _. apply report_run.
Qed.

End Traced.

Lemma startup_no_calls {T} `{CountingTable T} a w s tempdir :
  startup (T := traced T) a w = inr (s, tempdir) -> (ht s).2 = [].
Proof.
  unfold startup. destruct (negb _); [discriminate |].
  cbn [new_counting_hash traced_table]. unfold traced_new.
  destruct (new_counting_hash _ _ _) as [e | t]; [discriminate |].
  by intros [= <- _].
Qed.

(** ** What the table is asked *)

Section Calls.
Context {T : Type} `{CountingTable T}.

Lemma calls_clean_preorder : PreOrder (calls_clean (T := T)).
Proof.
  split.
  - by intros s Hs.
  - intros s1 s2 s3 H12 H23 Hs. by apply H23, H12.
Qed.

Lemma calls_clean_same_ht (s s' : state (traced T)) :
  ht s' = ht s -> calls_clean s s'.
Proof. unfold calls_clean. by intros ->. Qed.

Lemma recorded_clean {A} (op : M T A) r :
  always (on_ht (recorded (N_to_A (sequence r)) op))
    calls_clean (fun _ => calls_clean).
Proof.
  apply always_state_of. intros s Hs. unfold on_ht, recorded.
  destruct (op (ht s).1) as [x t | e t]; cbn;
    (apply Forall_app; split; [done |]);
    (constructor; [apply N_to_A_substituted | constructor]).
Qed.

End Calls.

Lemma N_to_A_replaced s : N_replaced_by_A s (N_to_A s).
Proof.
  unfold N_replaced_by_A, N_to_A. split.
  - induction s as [| d s IH]; cbn; [done | by rewrite IH].
  - induction s as [| d s IH]; intros [| i] c; cbn; try done.
    + by intros [= ->].
    + apply IH.
Qed.

Section Asked.
Context {T : Type} `{CountingTable T}.
Context (inp : read -> Prop).

Lemma asked_of_preorder : PreOrder (asked_of (T := T) inp).
Proof.
  split.
  - intros s. exists []. by rewrite app_nil_r.
  - intros s1 s2 s3 (new1 & H1 & Hall1) (new2 & H2 & Hall2).
    exists (new1 ++ new2)%list. split; [by rewrite H2, H1, app_assoc |].
    by apply Forall_app.
Qed.

Lemma asked_of_same_ht (s s' : state (traced T)) : ht s' = ht s -> asked_of inp s s'.
Proof. intros Hht. exists []. by rewrite Hht, app_nil_r. Qed.

Lemma recorded_asked {A} (op : M T A) r :
  inp r ->
  always (on_ht (recorded (N_to_A (sequence r)) op))
    (asked_of inp) (fun _ => asked_of inp).
Proof.
  intros Hr. apply always_state_of. intros s. unfold on_ht, recorded.
  destruct (op (ht s).1) as [x t | e t]; cbn;
    (eexists; split; [reflexivity |]);
    (constructor; [| constructor]); exists r; split; try done;
    apply N_to_A_replaced.
Qed.

Lemma write_record_asked r fp :
  always (write_record (T := traced T) r fp) (asked_of inp) (fun _ => asked_of inp).
Proof.
  apply always_state_of. intros s. apply asked_of_same_ht. unfold write_record.
  by destruct (free_space (env s)).
Qed.

Ltac asked_steps :=
  first
    [ intros ? ? [Hht _]; by apply asked_of_same_ht
    | intros; by apply recorded_asked
    | intros; apply write_record_asked ].

Lemma pass1_chunk_asked a pass2fp trimfp c :
  Forall inp (reads_of c) ->
  always (pass1_chunk (T := traced T) a pass2fp trimfp c)
    (asked_of inp) (fun _ => asked_of inp).
Proof.
  apply (pass1_chunk_always _ _ (Sequential0 := steady_sequential _ asked_of_preorder));
    asked_steps.
Qed.

Lemma pass1_loop_asked a pass2fp trimfp chunks :
  Forall inp (all_reads chunks) ->
  always (pass1_loop (T := traced T) a pass2fp trimfp chunks)
    (asked_of inp) (fun _ => asked_of inp).
Proof.
  apply (pass1_loop_always _ _ (Sequential0 := steady_sequential _ asked_of_preorder));
    asked_steps.
Qed.

Lemma pass2_record_asked a trimfp ir :
  inp ir.2 ->
  always (pass2_record (T := traced T) a trimfp ir)
    (asked_of inp) (fun _ => asked_of inp).
Proof.
  apply (pass2_record_always _ _ (Sequential0 := steady_sequential _ asked_of_preorder));
    asked_steps.
Qed.

Lemma pass2_loop_asked a trimfp rs :
  Forall inp rs ->
  always (pass2_loop (T := traced T) a trimfp rs)
    (asked_of inp) (fun _ => asked_of inp).
Proof.
  apply (pass2_loop_always _ _ (Sequential0 := steady_sequential _ asked_of_preorder));
    asked_steps.
Qed.

End Asked.

(** C9.  Run the script on a table that records its calls.  Whatever
    the step of the first pass on a chunk does, and also when it
    raises, every call it makes of the table, a median query, a
    [consume] or a [trim_on_abundance], is on the sequence of a record
    of that chunk with every [N] replaced by [A]: as long as the
    sequence, with [A] where the sequence has [N] and the character of
    the sequence everywhere else.  The same holds of the step of the
    second pass and its record, of the loop of the first pass and the
    records of its chunks, and of the loop of the second pass and its
    records.  However a run ends, no sequence that was handed to the
    table in it holds an [N]. *)
Theorem table_sees_substituted_sequences {T} `{CountingTable T} a :
  (forall pass2fp trimfp c (s : state (traced T)),
     asked_of (fun r => r ∈ reads_of c) s
       (state_of (pass1_chunk a pass2fp trimfp c s))) /\
  (forall trimfp i r (s : state (traced T)),
     asked_of (fun r' => r' = r) s (state_of (pass2_record a trimfp (i, r) s))) /\
  (forall pass2fp trimfp chunks (s : state (traced T)),
     asked_of (fun r => r ∈ all_reads chunks) s
       (state_of (pass1_loop a pass2fp trimfp chunks s))) /\
  (forall trimfp rs (s : state (traced T)),
     asked_of (fun r => r ∈ rs) s (state_of (pass2_loop a trimfp rs s))) /\
  (forall w,
     Forall (fun c => contains "N" (arg c) = false)
       (calls_of (main (T := traced T) a w))).
Proof.
  split_and!.
  - intros pass2fp trimfp c s. apply always_reached.
    apply pass1_chunk_asked. by apply Forall_forall.
  - intros trimfp i r s. apply always_reached.
    by apply pass2_record_asked.
  - intros pass2fp trimfp chunks s. apply always_reached.
    apply pass1_loop_asked. by apply Forall_forall.
  - intros trimfp rs s. apply always_reached.
    apply pass2_loop_asked. by apply Forall_forall.
  - intros w. unfold main, calls_of.
    destruct (startup a w) as [[e w'] | [s tempdir]] eqn:Hstart; cbn.
    + constructor.
    + apply startup_no_calls in Hstart.
      apply (Forall_impl (fun c => substituted (arg c))); [| by intros c [_ Hc]].
      eapply (always_reached _ calls_clean s).
      * apply (main_run _ _ (Sequential0 := steady_sequential _ calls_clean_preorder)).
        -- apply calls_clean_same_ht.
        -- intros _. apply calls_clean_same_ht.
        -- intros A op r. apply recorded_clean.
      * rewrite Hstart. constructor.
Qed.

(** The step of the first pass on the record [TTNTGGGGCC]: the median
    query and the [consume] are both on [TTATGGGGCC]. *)
Lemma table_sees_substituted_sequences_witness :
  let s : state (traced Sketch.table) :=
    State (ex_table, []) (set_dirs [ex_tempdir] (ex_input 100))
      zero_counters [] 0 None in
  let s' := state_of (pass1_chunk ex_args "x.pass2" "x.abundtrim" (Single 0 novel) s) in
  arg <$> (ht s').2 = ["TTATGGGGCC"; "TTATGGGGCC"] /\
  Forall (fun c => N_replaced_by_A "TTNTGGGGCC" (arg c)) (ht s').2.
Proof.
  intros s s'. split; [vm_compute; reflexivity |].
  destruct (proj1 (table_sees_substituted_sequences (T := Sketch.table) ex_args)
              "x.pass2" "x.abundtrim" (Single 0 novel) s) as (new & Hnew & Hall).
  subst s'. rewrite Hnew.
  eapply Forall_impl; [exact Hall |].
  intros c (r & Hr & Hc). apply list_elem_of_singleton in Hr. by subst r.
Defined.

(** The calls of one run: in the first pass a median query and a
    [consume] for each of the first two records, a median query and a
    trim for the third; in the second pass a median query and a trim
    for each of the two deferred records. *)
Example calls_of_a_run :
  arg <$> calls_of (main (T := traced Sketch.table) ex_args (ex_input 100))
  = ["TTATGGGGCC"; "TTATGGGGCC"; "ACGTACGTACGTACGT"; "ACGTACGTACGTACGT";
     "ACGTACGTACGTACGT"; "ACGTACGTACGTACGT"; "TTATGGGGCC"; "TTATGGGGCC";
     "ACGTACGTACGTACGT"; "ACGTACGTACGTACGT"].
Proof. vm_compute. reflexivity. Qed.

(** ** Paths *)

Lemma append_cons c s t : (String c s ++ t) = String c (s ++ t).
Proof. reflexivity. Qed.

Lemma append_assoc_string s t u : (s ++ t) ++ u = s ++ (t ++ u).
Proof.
  induction s as [| c s IH]; [done |]. by rewrite !append_cons, IH.
Qed.

Lemma prefix_append s t : String.prefix s (s ++ t) = true.
Proof.
  induction s as [| c s IH]; [by destruct t |].
  rewrite append_cons. cbn. by destruct (ascii_dec c c).
Qed.

Lemma endswith_append c s t : t <> "" -> endswith c (s ++ t) = endswith c t.
Proof.
  intros Ht. induction s as [| d s IH]; [done |].
  rewrite append_cons. cbn. rewrite IH.
  destruct (s ++ t) eqn:Hst; [| done].
  destruct s; [by destruct t | discriminate].
Qed.

Lemma basename_no_slash p : contains "/" (basename p) = false.
Proof.
  induction p as [| c p IH]; [done |].
  change (basename (String c p))
    with (if contains "/" p then basename p
          else if Ascii.eqb c "/" then p else String c p).
  destruct (contains "/" p) eqn:Hp; [done |].
  destruct (Ascii.eqb c "/") eqn:Hc; [done |].
  change (Ascii.eqb c "/" || contains "/" p = false). by rewrite Hc, Hp.
Qed.

Lemma startswith_no_slash b t :
  contains "/" b = false -> startswith "/" t = false ->
  startswith "/" (b ++ t) = false.
Proof.
  destruct b as [| c b]; [done |]. intros Hb _.
  change (Ascii.eqb c "/" || contains "/" b = false) in Hb.
  change (Ascii.eqb c "/" = false).
  by apply orb_false_elim in Hb as [-> _].
Qed.

(** The directory [mkdtemp] makes has a name that is not empty and does
    not end in a slash. *)
Lemma mkdtemp_name dir w :
  let d := (mkdtemp "khmer" "tmp" dir w).1 in
  String.eqb d "" = false /\ endswith "/" d = false.
Proof.
  cbn. unfold join. cbn [startswith append Ascii.eqb].
  change (startswith "/" ("tmp" ++ temp_token w ++ "khmer")) with false.
  cbv iota.
  assert (Hend : forall s, endswith "/" (s ++ "tmp" ++ temp_token w ++ "khmer") = false).
  { intros s. rewrite <- !append_assoc_string.
    by rewrite endswith_append. }
  assert (Hne : forall s, String.eqb (s ++ "tmp" ++ temp_token w ++ "khmer") "" = false).
  { intros s. apply String.eqb_neq. rewrite <- !append_assoc_string.
    by destruct ((s ++ "tmp") ++ temp_token w). }
  destruct (String.eqb dir "" || endswith "/" dir).
  - split; [apply Hne | apply Hend].
  - rewrite <- append_assoc_string. split; [apply Hne | apply Hend].
Qed.

(** A deferred store lies in the temporary directory. *)
Lemma pass2filename_under d filename :
  String.eqb d "" = false -> endswith "/" d = false ->
  under d (pass2filename_of d filename) = true.
Proof.
  intros Hne Hend. unfold under, pass2filename_of, join.
  rewrite startswith_no_slash by (done || apply basename_no_slash).
  rewrite Hne, Hend. cbn [orb].
  rewrite <- append_assoc_string. apply prefix_append.
Qed.

(** ** Cleaning up *)

Section Cleanup.
Context {T : Type} `{CountingTable T}.

Lemma report_world a (s : state T) :
  files (env (state_of (report a s))) = files (env s) /\
  dirs (env (state_of (report a s))) = dirs (env s).
Proof.
  unfold report. mred. destruct (read_bp (cnt s) =? 0); mred; [done |].
  destruct (negb (Qle_bool _ _)); cbn [forM_ too_small_warning]; mred; done.
Qed.

Lemma rmtree_Done dir (s : state T) u s' :
  rmtree dir s = Done u s' ->
  (forall p, under dir p = true -> files (env s') !! p = None) /\
  dir ∉ dirs (env s').
Proof.
  intros Hrm. apply modify_Done in Hrm as ->. cbn. split.
  - intros p Hp. apply map_lookup_filter_None_2. right.
    intros x _ Hfalse. change (under dir p = false) in Hfalse. congruence.
  - rewrite list_elem_of_In, filter_In. intros [_ Hd].
    by rewrite String.eqb_refl in Hd.
Qed.

Lemma pass2_file_unlinks a entry (s s' : state T) :
  pass2_file a entry s = Done tt s' -> files (env s') !! entry.1.2 = None.
Proof.
  destruct entry as [[orig pass2filename] trimfilename]. intros Hrun.
  unfold pass2_file in Hrun.
  apply bind_Done_inv in Hrun as (_ & s1 & _ & Hrun).
  apply bind_Done_inv in Hrun as (rs & s2 & _ & Hrun).
  apply bind_Done_inv in Hrun as (_ & s3 & _ & Hrun).
  unfold unlink in Hrun. destruct (files (env s3) !! pass2filename); [| done].
  injection Hrun as <-. cbn. apply lookup_delete_eq.
Qed.

Lemma passes_Done_clean a tempdir (s s' : state T) :
  passes a tempdir s = Done tt s' ->
  (forall p, under tempdir p = true -> files (env s') !! p = None) /\
  tempdir ∉ dirs (env s').
Proof.
  intros Hrun. unfold passes in Hrun.
  apply bind_Done_inv in Hrun as (_ & s1 & _ & Hrun).
  apply bind_Done_inv in Hrun as (_ & s2 & _ & Hrun).
  apply bind_Done_inv in Hrun as (_ & s3 & _ & Hrun).
  apply bind_Done_inv in Hrun as (l & s4 & _ & Hrun).
  apply bind_Done_inv in Hrun as (_ & s5 & _ & Hrun).
  by apply rmtree_Done in Hrun.
Qed.

Lemma startup_tempdir a w (s : state T) tempdir :
  startup a w = inr (s, tempdir) ->
  String.eqb tempdir "" = false /\ endswith "/" tempdir = false.
Proof.
  unfold startup. destruct (negb _); [discriminate |].
  destruct (new_counting_hash _ _ _) as [e | t]; [discriminate |].
  pose proof (mkdtemp_name (tempdir_arg a) w) as Hname.
  destruct (mkdtemp "khmer" "tmp" (tempdir_arg a) w) as [d w'].
  by intros [= _ <-].
Qed.

End Cleanup.

(** ** The false-positive rate *)



(** ** Configuration errors *)

Lemma size_list_to_set_le (l : list string) :
  (size (list_to_set l : gset string) <= length l)%nat.
Proof.
  induction l as [| x l IH]; [done |].
  rewrite list_to_set_cons, size_union_alt, size_singleton. cbn [length].
  apply le_n_S. etrans; [| exact IH].
  apply subseteq_size. intros y Hy. by apply elem_of_difference in Hy as [? _].
Qed.

Lemma no_duplicates_check (l : list string) :
  (size (list_to_set l : gset string) =? length l)%nat = true <-> NoDup l.
Proof.
  rewrite Nat.eqb_eq. split; [| apply size_list_to_set].
  induction l as [| x l IH]; [constructor |].
  rewrite list_to_set_cons. cbn [length]. intros Hsize.
  pose proof (size_list_to_set_le l) as Hle.
  destruct (decide (x ∈ l)) as [Hin | Hnotin].
  - assert (Hsame : {[x]} ∪ list_to_set l = (list_to_set l : gset string)).
    { apply subseteq_union_1_L, singleton_subseteq_l.
      by apply elem_of_list_to_set. }
    rewrite Hsame in Hsize. lia.
  - rewrite size_union, size_singleton in Hsize
      by (by apply disjoint_singleton_l; rewrite elem_of_list_to_set).
    constructor; [done |]. apply IH. lia.
Qed.

#[global] Instance sketch_checks_ksize : ChecksKsize Sketch.table.
Proof.
  intros K sz nt HK. cbn. unfold Sketch.new_counting_hash.
  destruct (Z.leb_spec K 0) as [_ | Hgt]; [reflexivity | lia].
Qed.

(** C8.  A file name given twice ends the run with [sys.exit(1)] and a
    line on standard error; a k-mer size of 0 or less ends it with the
    table's configuration error.  In both cases nothing else has
    happened: no table is left, and the world is as it was, with no
    file read, written or created. *)
Theorem config_errors_before_processing {T} `{CountingTable T} `{!ChecksKsize T}
    a w :
  (~ NoDup (input_filenames a) ->
   main a w
   = {| status := Some (SystemExit 1);
        final_world := set_stderr (stderr w ++ [duplicate_error])%list w;
        final_ht := None |}) /\
  (NoDup (input_filenames a) -> ksize a <= 0 ->
   main a w
   = {| status := Some (KhmerError ConfigError);
        final_world := w;
        final_ht := None |}).
Proof.
  unfold main, startup. split.
  - intros Hdup.
    destruct (size _ =? _)%nat eqn:Hcheck; [| done].
    by apply no_duplicates_check in Hcheck.
  - intros Hnodup HK. apply no_duplicates_check in Hnodup as ->. cbn [negb].
    by rewrite new_counting_hash_ksize.
Qed.

Lemma config_errors_before_processing_witness :
  files (final_world (main (T := Sketch.table) ex_args_twice (ex_input 100)))
  = files (ex_input 100) /\
  main (T := Sketch.table) ex_args_k0 (ex_input 100)
  = {| status := Some (KhmerError ConfigError);
       final_world := ex_input 100;
       final_ht := None |}.
Proof.
  split.
  - rewrite (proj1 (config_errors_before_processing ex_args_twice (ex_input 100))).
    + reflexivity.
    + intros Hnodup. apply NoDup_cons in Hnodup as [Hnotin _].
      apply Hnotin. left.
  - apply (proj2 (config_errors_before_processing ex_args_k0 (ex_input 100))).
    + apply NoDup_singleton.
    + vm_compute. discriminate.
Defined.

(** ** Errors of the table *)

Section Errors.
Context {T : Type} `{CountingTable T}.
Context (a : args) (pass2fp trimfp : string).

(** A median query that raises makes the step raise, before anything
    is written: for a pair, the query for the first mate or, when that
    one has returned, the query for the second. *)
Lemma pass1_chunk_medians_raise c (s : state T) e :
  medians_raise (reads_of c) (ht s) e ->
  exists s', pass1_chunk a pass2fp trimfp c s = Raised e s' /\ env s' = env s.
Proof.
  destruct c as [i r | i r1 r2]; cbn [reads_of medians_raise]; intros Hmed;
    unfold pass1_chunk; cbv zeta; mred; unfold on_ht at 1; mred.
  - destruct (get_median_count _ (ht s)) as [med t1 | e' t1]; [done |].
    subst e'. eauto.
  - destruct (get_median_count _ (ht s)) as [med1 t1 | e' t1].
    2: { subst e'. eauto. }
    mred. unfold on_ht at 1. mred.
    destruct (get_median_count _ t1) as [med2 t2 | e' t2]; [done |].
    subst e'. eauto.
Qed.

(** Closes the goal at the end of one way through a step on a table
    that records its calls: the calls made are at hand, and the one
    that raised, if any, is the last. *)
Ltac calls_solve :=
  intros (new & c & Hnew & Hin & Hraised); cbn in Hnew;
  rewrite <- ?app_assoc in Hnew; apply app_inv_head in Hnew; subst new;
  cbn in Hin;
  repeat (apply elem_of_cons in Hin as [-> | Hin]);
  try (by apply elem_of_nil in Hin);
  cbn in Hraised; try discriminate;
  injection Hraised as ->; eauto.

(** Any call of the table that raises, a median query, a [consume] or
    a [trim_on_abundance], makes the step raise, and the step has
    written nothing: every write of a step comes after its last call
    of the table. *)
Lemma pass1_chunk_call_raised c (s : state (traced T)) e :
  raised_in e s (state_of (pass1_chunk a pass2fp trimfp c s)) ->
  exists s', pass1_chunk a pass2fp trimfp c s = Raised e s' /\ env s' = env s.
Proof.
  destruct c as [i r | i r1 r2]; unfold pass1_chunk; cbv zeta;
    forward_traced; calls_solve.
Qed.

Lemma pass2_record_call_raised ir (s : state (traced T)) e :
  raised_in e s (state_of (pass2_record a trimfp ir s)) ->
  exists s', pass2_record a trimfp ir s = Raised e s' /\ env s' = env s.
Proof. unfold pass2_record; cbv zeta; forward_traced; calls_solve. Qed.

Lemma pass2_record_median_raises ir (s : state T) e t :
  get_median_count (N_to_A (sequence ir.2)) (ht s) = Raised e t ->
  exists s', pass2_record a trimfp ir s = Raised e s' /\ env s' = env s.
Proof.
  intros Hmed. unfold pass2_record; cbv zeta; mred.
  unfold on_ht at 1; mred; rewrite Hmed; eauto.
Qed.

Lemma enumerate_app {A} (l1 l2 : list A) :
  enumerate (l1 ++ l2)
  = (enumerate l1 ++ imap (fun i x => (length l1 + i, x)%nat) l2)%list.
Proof. unfold enumerate. by rewrite imap_app. Qed.

Lemma quiet_no_raise (s : state (traced T)) c e :
  quiet s -> c ∈ (ht s).2 -> raised c = Some e -> False.
Proof.
  unfold quiet. rewrite Forall_forall. intros Hquiet Hc Hraised.
  specialize (Hquiet c Hc). congruence.
Qed.

Lemma quiet_sequential :
  Sequential (stays_quiet (T := T)) raises_only.
Proof.
  split.
  - by intros s Hs.
  - intros s1 s2 s3 H12 H23 Hs. by apply H23, H12.
  - intros e s Hs c e' Hc Hraised. by destruct (quiet_no_raise s c e').
  - intros e s1 s2 s3 H12 H23 Hs. by apply H23, H12.
Qed.

Lemma stays_quiet_same_ht (s s' : state (traced T)) :
  ht s' = ht s -> stays_quiet s s'.
Proof. unfold stays_quiet, quiet. by intros ->. Qed.

Lemma raises_only_same_ht e (s s' : state (traced T)) :
  ht s' = ht s -> raises_only e s s'.
Proof.
  intros Hht Hs c e' Hc Hraised. rewrite Hht in Hc.
  by destruct (quiet_no_raise s c e').
Qed.

Lemma recorded_quiet {A} (op : M T A) q :
  always (on_ht (recorded q op)) stays_quiet raises_only.
Proof.
  intros s. unfold on_ht, recorded.
  destruct (op (ht s).1) as [x t | e t]; cbn.
  - intros Hs. unfold quiet. cbn. apply Forall_app. split; [done |].
    by repeat constructor.
  - intros Hs c e' Hc Hraised. cbn in Hc.
    apply elem_of_app in Hc as [Hc | Hc].
    + by destruct (quiet_no_raise s c e').
    + apply list_elem_of_singleton in Hc as ->. cbn in Hraised. congruence.
Qed.

(** A run ends with the error of any call of the table that raised. *)
Lemma table_error_ends_main a' w c e :
  c ∈ calls_of (main (T := traced T) a' w) ->
  raised c = Some e ->
  status (main (T := traced T) a' w) = Some e.
Proof.
  unfold main, calls_of.
  destruct (startup a' w) as [[e0 w'] | [s tempdir]] eqn:Hstart; cbn.
  - by intros ?%elem_of_nil.
  - apply startup_no_calls in Hstart.
    assert (Hquiet : quiet s) by (unfold quiet; rewrite Hstart; constructor).
    pose proof (main_run _ _ (Sequential0 := quiet_sequential)
                  stays_quiet_same_ht raises_only_same_ht
                  (fun A op r => recorded_quiet op _) a' tempdir s) as Hrun.
    destruct ((passes a' tempdir ;; report a') s) as [u s' | e0 s']; cbn.
    + intros Hc Hraised. by destruct (quiet_no_raise s' c e); [apply Hrun | |].
    + intros Hc Hraised. f_equal. symmetry. by apply (Hrun Hquiet c e).
Qed.

End Errors.

(** C5, as the code has it.  An error the table raises is not caught:
    when any call of the table has raised, the run has ended with that
    error.  When the median query of a record raises, in either pass,
    for a single record, for the first mate of a pair, or for the
    second mate after the query for the first has returned, the step
    raises before it has written anything: neither the record nor its
    mate is deferred or emitted, the loop ends there with the same
    error, what was written before stays as it was, and the records
    after it are not looked at.  On a table that records its calls the
    same holds of every call that raises, also a [consume] and a
    [trim_on_abundance]. *)
Theorem table_errors_abort {T} `{CountingTable T} a pass2fp trimfp :
  (forall w c e,
     c ∈ calls_of (main (T := traced T) a w) ->
     raised c = Some e ->
     status (main (T := traced T) a w) = Some e) /\
  (forall pre c post (s s1 : state T) e,
     pass1_loop a pass2fp trimfp pre s = Done tt s1 ->
     medians_raise (reads_of c) (ht s1) e ->
     exists s2,
       pass1_loop a pass2fp trimfp (pre ++ c :: post) s = Raised e s2 /\
       env s2 = env s1) /\
  (forall pre r post (s s1 : state T) e t,
     pass2_loop a trimfp pre s = Done tt s1 ->
     get_median_count (N_to_A (sequence r)) (ht s1) = Raised e t ->
     exists s2,
       pass2_loop a trimfp (pre ++ r :: post) s = Raised e s2 /\
       env s2 = env s1) /\
  (forall pre c post (s s1 : state (traced T)) e,
     pass1_loop a pass2fp trimfp pre s = Done tt s1 ->
     raised_in e s1 (state_of (pass1_chunk a pass2fp trimfp c s1)) ->
     exists s2,
       pass1_loop a pass2fp trimfp (pre ++ c :: post) s = Raised e s2 /\
       env s2 = env s1) /\
  (forall pre r post (s s1 : state (traced T)) e,
     pass2_loop a trimfp pre s = Done tt s1 ->
     raised_in e s1 (state_of (pass2_record a trimfp (length pre, r) s1)) ->
     exists s2,
       pass2_loop a trimfp (pre ++ r :: post) s = Raised e s2 /\
       env s2 = env s1).
Proof.
  split_and!.
  - intros w c e. apply table_error_ends_main.
  - intros pre c post s s1 e Hpre Hmed.
    destruct (pass1_chunk_medians_raise a pass2fp trimfp c s1 e Hmed)
      as (s2 & Hstep & Henv).
    exists s2. split; [| done]. by apply forM_raises with s1.
  - intros pre r post s s1 e t Hpre Hmed.
    destruct (pass2_record_median_raises a trimfp (length pre, r) s1 e t Hmed)
      as (s2 & Hstep & Henv).
    exists s2. split; [| done]. unfold pass2_loop.
    rewrite enumerate_app. cbn [imap]. rewrite Nat.add_0_r.
    by apply forM_raises with s1.
  - intros pre c post s s1 e Hpre Hcall.
    destruct (pass1_chunk_call_raised a pass2fp trimfp c s1 e Hcall)
      as (s2 & Hstep & Henv).
    exists s2. split; [| done]. by apply forM_raises with s1.
  - intros pre r post s s1 e Hpre Hcall.
    destruct (pass2_record_call_raised a trimfp (length pre, r) s1 e Hcall)
      as (s2 & Hstep & Henv).
    exists s2. split; [| done]. unfold pass2_loop.
    rewrite enumerate_app. cbn [imap]. rewrite Nat.add_0_r.
    by apply forM_raises with s1.
Qed.

(** A run on a file with a record shorter than K ends with
    [TooShort].  A first-pass loop over a record, then a pair whose
    second mate is shorter than K, then another record: the first
    record is deferred, the loop raises at the second mate, and neither
    mate is written.  A second-pass loop raises at a short record, and
    so do both loops on a table that records its calls. *)
Lemma table_errors_abort_witness :
  let s := ex_state ex_table in
  let s1 := state_of (pass1_loop ex_args "x.pass2" "x.abundtrim" [Single 0 solid] s) in
  let st : state (traced Sketch.table) :=
    State (ex_table, []) (ex_files ∅ 100) zero_counters [] 0 None in
  status (main (T := traced Sketch.table) ex_args
            (ex_files {["reads/x.fa" := [solid; short; solid_again]]} 100))
  = Some (KhmerError TooShort) /\
  (exists s2,
     pass1_loop ex_args "x.pass2" "x.abundtrim"
       [Single 0 solid; Paired 1 ex_mate_1 ex_mate_short; Single 3 solid_again] s
     = Raised (KhmerError TooShort) s2 /\
     env s2 = env s1) /\
  content "x.pass2" s1 = [solid] /\
  content "x.abundtrim" s1 = [] /\
  (exists s2,
     pass2_loop ex_args "x.abundtrim" [short; solid] s
     = Raised (KhmerError TooShort) s2 /\
     env s2 = env s) /\
  (exists s2,
     pass1_loop ex_args "x.pass2" "x.abundtrim"
       [Paired 0 ex_mate_1 ex_mate_short; Single 2 solid] st
     = Raised (KhmerError TooShort) s2 /\
     env s2 = env st) /\
  (exists s2,
     pass2_loop ex_args "x.abundtrim" [short; solid] st
     = Raised (KhmerError TooShort) s2 /\
     env s2 = env st).
Proof.
  intros s s1 st.
  destruct (table_errors_abort (T := Sketch.table) ex_args "x.pass2" "x.abundtrim")
    as (Hmain & Hpass1 & Hpass2 & Hcall1 & Hcall2).
  split_and!.
  - apply (Hmain _ (Call "ACG" (Some (KhmerError TooShort)))); [| reflexivity].
    vm_compute. do 2 right. left.
  - apply (Hpass1 [Single 0 solid] (Paired 1 ex_mate_1 ex_mate_short)
             [Single 3 solid_again] s s1 (KhmerError TooShort)).
    + vm_compute. reflexivity.
    + vm_compute. reflexivity.
  - vm_compute. reflexivity.
  - vm_compute. reflexivity.
  - apply (Hpass2 [] short [solid] s s (KhmerError TooShort) ex_table).
    + reflexivity.
    + vm_compute. reflexivity.
  - apply (Hcall1 [] (Paired 0 ex_mate_1 ex_mate_short) [Single 2 solid] st st
             (KhmerError TooShort)).
    + reflexivity.
    + exists [Call "ACGTACGTACGTACGT" None; Call "ACG" (Some (KhmerError TooShort))],
             (Call "ACG" (Some (KhmerError TooShort))).
      split; [vm_compute; reflexivity |]. split; [right; left | reflexivity].
  - apply (Hcall2 [] short [solid] st st (KhmerError TooShort)).
    + reflexivity.
    + exists [Call "ACG" (Some (KhmerError TooShort))],
             (Call "ACG" (Some (KhmerError TooShort))).
      split; [vm_compute; reflexivity |]. split; [left | reflexivity].
Defined.

(** C5, as stated, fails.  A record shorter than K makes the median
    query raise [TooShort]; the run ends with that error, the short
    record is not written to the output, and the record after it is
    never processed. *)
Lemma table_error_ends_run :
  let r := main (T := Sketch.table) ex_args
             (ex_files {["reads/x.fa" := [short; solid]]} 100) in
  status r = Some (KhmerError TooShort) /\
  files (final_world r) !! "x.fa.abundtrim" = Some [] /\
  files (final_world r) !! "./tmpAb3khmer/x.fa.pass2" = Some [].
Proof. repeat split; vm_compute; reflexivity. Qed.

(** ** Cutting a record *)

Lemma slice_to_all n s : (String.length s <= n)%nat -> slice_to n s = s.
Proof.
  unfold slice_to. revert n.
  induction s as [| c s IH]; intros [| n] Hn; cbn in *; try done; try lia.
  f_equal. apply IH. lia.
Qed.

Lemma slice_to_slice_to n m s :
  slice_to m (slice_to n s) = slice_to (Nat.min n m) s.
Proof.
  unfold slice_to. revert n m.
  induction s as [| c s IH]; intros [| n] [| m]; cbn; try done.
  by rewrite IH.
Qed.

Lemma slice_to_replace old new n s :
  replace old new (slice_to n s) = slice_to n (replace old new s).
Proof.
  unfold slice_to. revert n.
  induction s as [| c s IH]; intros [| n]; cbn; try done.
  by rewrite IH.
Qed.

Lemma replace_length old new s :
  String.length (replace old new s) = String.length s.
Proof. induction s as [| c s IH]; cbn; [done | by rewrite IH]. Qed.

Lemma replace_absent old new s :
  contains old s = false -> replace old new s = s.
Proof.
  induction s as [| c s IH]; cbn; [done |]. intros Hc.
  apply orb_false_elim in Hc as [Hc Hs]. by rewrite Hc, IH.
Qed.

(** X1.  [trim_record] slices as Python does: a cut position at or
    beyond the end of the sequence and of the quality string is no
    error and cuts nothing; the record returned has the name, the
    sequence and the quality string of the record given. *)
Theorem trim_record_beyond_end r trim_at :
  (String.length (sequence r) <= trim_at)%nat ->
  (forall q, accuracy r = Some q -> (String.length q <= trim_at)%nat) ->
  trim_record r trim_at = r.
Proof.
  destruct r as [nm sq [q |]]; unfold trim_record; cbn; intros Hs Hq.
  - by rewrite !slice_to_all by auto.
  - by rewrite slice_to_all.
Qed.

Lemma trim_record_beyond_end_witness :
  trim_record mate_cut 16 = mate_cut /\ trim_record short 40 = short.
Proof.
  split.
  - apply (trim_record_beyond_end mate_cut 16).
    + cbn. lia.
    + intros q [= <-]. cbn. lia.
  - apply (trim_record_beyond_end short 40).
    + cbn. lia.
    + intros q [=].
Defined.

(** X2.  Cutting a record twice is cutting it once at the smaller of
    the two positions; the name is kept. *)
Theorem trim_record_twice r n m :
  trim_record (trim_record r n) m = trim_record r (Nat.min n m).
Proof.
  destruct r as [nm sq [q |]]; unfold trim_record; cbn;
    by rewrite !slice_to_slice_to.
Qed.

(** X3.  The substitution of [N] made for the table keeps the length
    of the sequence and commutes with cutting, so a position found on
    the substituted sequence is the same position in the record, and
    the two ways the script tests whether a read was trimmed (against
    the length of the substituted sequence for pairs, of the sequence
    as read for singles) are one test.  A sequence without [N] is
    handed over as it is, and substituting twice changes nothing. *)
Theorem N_to_A_keeps_positions (r : read) (trim_at : nat) :
  len (N_to_A (sequence r)) = len (sequence r) /\
  N_to_A (sequence (trim_record r trim_at))
  = slice_to trim_at (N_to_A (sequence r)) /\
  N_to_A (N_to_A (sequence r)) = N_to_A (sequence r) /\
  (contains "N" (sequence r) = false -> N_to_A (sequence r) = sequence r).
Proof.
  unfold N_to_A, len. split_and!.
  - by rewrite replace_length.
  - cbn. apply slice_to_replace.
  - apply replace_absent. by apply replace_contains.
  - apply replace_absent.
Qed.

Lemma N_to_A_keeps_positions_witness :
  N_to_A (sequence solid) = sequence solid /\
  len (N_to_A (sequence novel)) = 10.
Proof.
  destruct (N_to_A_keeps_positions solid 0) as (_ & _ & _ & Hsame).
  destruct (N_to_A_keeps_positions novel 0) as (Hlen & _).
  split.
  - apply Hsame. vm_compute. reflexivity.
  - rewrite Hlen. vm_compute. reflexivity.
Defined.

(** ** The paths of the working files *)

Lemma length_append s t :
  String.length (s ++ t) = (String.length s + String.length t)%nat.
Proof.
  induction s as [| c s IH]; [done |]. rewrite append_cons. cbn. by rewrite IH.
Qed.

Lemma contains_append c s t : contains c (s ++ t) = contains c s || contains c t.
Proof.
  induction s as [| d s IH]; [done |].
  rewrite append_cons. cbn. by rewrite IH, orb_assoc.
Qed.

Lemma append_inj_r s1 s2 t : s1 ++ t = s2 ++ t -> s1 = s2.
Proof.
  revert s2. induction s1 as [| c s1 IH]; intros [| d s2] Heq.
  - done.
  - apply (f_equal String.length) in Heq.
    rewrite !length_append in Heq. cbn in Heq. lia.
  - apply (f_equal String.length) in Heq.
    rewrite !length_append in Heq. cbn in Heq. lia.
  - rewrite !append_cons in Heq. injection Heq as -> Heq. f_equal. by apply IH.
Qed.

Lemma prefix_contains c s t :
  String.prefix s t = true -> contains c s = true -> contains c t = true.
Proof.
  revert t. induction s as [| d s IH]; intros [| e t]; cbn; try done.
  destruct (ascii_dec d e) as [-> | _]; [| done].
  intros Hpre. destruct (Ascii.eqb e c); [done |]. cbn. by apply IH.
Qed.

Lemma basename_id b : contains "/" b = false -> basename b = b.
Proof.
  destruct b as [| c b]; [done |]. intros Hb.
  change (Ascii.eqb c "/" || contains "/" b = false) in Hb.
  apply orb_false_elim in Hb as [Hc Hb].
  change (basename (String c b))
    with (if contains "/" b then basename b
          else if Ascii.eqb c "/" then b else String c b).
  by rewrite Hb, Hc.
Qed.

Lemma basename_after_slash x b :
  contains "/" b = false -> basename (x ++ String "/" b) = b.
Proof.
  intros Hb. induction x as [| c x IH].
  - change ("" ++ String "/" b) with (String "/" b).
    change (basename (String "/" b))
      with (if contains "/" b then basename b
            else if Ascii.eqb "/" "/" then b else String "/" b).
    by rewrite Hb.
  - rewrite append_cons.
    change (basename (String c (x ++ String "/" b)))
      with (if contains "/" (x ++ String "/" b) then basename (x ++ String "/" b)
            else if Ascii.eqb c "/" then x ++ String "/" b
                 else String c (x ++ String "/" b)).
    rewrite contains_append. cbn [contains]. rewrite Ascii.eqb_refl.
    cbn [orb]. by rewrite orb_true_r.
Qed.

Lemma endswith_split c d : endswith c d = true -> exists x, d = x ++ String c "".
Proof.
  induction d as [| e d IH]; [done |]. intros Hd.
  destruct d as [| e' d'].
  - cbn in Hd. apply Ascii.eqb_eq in Hd as ->. by exists "".
  - destruct IH as [x Hx]; [exact Hd |]. exists (String e x).
    by rewrite append_cons, <- Hx.
Qed.

(** [basename] undoes [join] for a name without a slash. *)
Lemma basename_join d b : contains "/" b = false -> basename (join d b) = b.
Proof.
  intros Hb. unfold join.
  assert (Hstart : startswith "/" b = false).
  { destruct b as [| c b]; [done |].
    change (Ascii.eqb c "/" || contains "/" b = false) in Hb.
    change (Ascii.eqb c "/" = false).
    by apply orb_false_elim in Hb as [-> _]. }
  rewrite Hstart.
  destruct (String.eqb_spec d "") as [-> | Hd]; cbn [orb].
  - by apply basename_id.
  - destruct (endswith "/" d) eqn:Hend.
    + apply endswith_split in Hend as [x ->].
      rewrite append_assoc_string. by apply basename_after_slash.
    + by apply basename_after_slash.
Qed.

Lemma basename_pass2filename d filename :
  basename (pass2filename_of d filename) = basename filename ++ ".pass2".
Proof. apply basename_join. by rewrite contains_append, basename_no_slash. Qed.

Lemma trimfilename_no_slash filename :
  contains "/" (trimfilename_of filename) = false.
Proof. unfold trimfilename_of. by rewrite contains_append, basename_no_slash. Qed.

Lemma pass2filename_ne_trimfilename d filename filename' :
  pass2filename_of d filename <> trimfilename_of filename'.
Proof.
  intros Heq. apply (f_equal basename) in Heq.
  rewrite basename_pass2filename,
    (basename_id _ (trimfilename_no_slash filename')) in Heq.
  apply (f_equal (endswith "2")) in Heq. unfold trimfilename_of in Heq.
  by rewrite !endswith_append in Heq.
Qed.

Lemma pass2filename_ne_input d filename : pass2filename_of d filename <> filename.
Proof.
  intros Heq. apply (f_equal basename) in Heq.
  rewrite basename_pass2filename in Heq.
  apply (f_equal String.length) in Heq. rewrite length_append in Heq.
  cbn in Heq. lia.
Qed.

Lemma trimfilename_ne_input filename : trimfilename_of filename <> filename.
Proof.
  intros Heq. pose proof (trimfilename_no_slash filename) as Hno.
  rewrite Heq in Hno. unfold trimfilename_of in Heq.
  rewrite (basename_id _ Hno) in Heq.
  apply (f_equal String.length) in Heq. rewrite length_append in Heq.
  cbn in Heq. lia.
Qed.

Lemma pass2filename_inj d filename filename' :
  pass2filename_of d filename = pass2filename_of d filename'
  <-> basename filename = basename filename'.
Proof.
  split; [| unfold pass2filename_of; by intros ->].
  intros Heq. apply (f_equal basename) in Heq.
  rewrite !basename_pass2filename in Heq. by apply append_inj_r in Heq.
Qed.

(** An output file is not in the temporary directory. *)
Lemma trimfilename_not_under d filename :
  under d (trimfilename_of filename) = false.
Proof.
  unfold under. destruct (String.prefix _ _) eqn:Hpre; [| done].
  apply (prefix_contains "/") in Hpre.
  - by rewrite trimfilename_no_slash in Hpre.
  - rewrite contains_append. cbn. by rewrite orb_true_r.
Qed.

(** X4.  The two files the script writes for an input file are never
    one file, and neither is the input file itself: the deferred store
    and the output differ whatever the temporary directory and the
    names, also across input files.  The output has no directory part,
    so it lands in the working directory; the deferred store keeps the
    base name of the input.  Two input files get the same output, and
    the same deferred store, exactly when their base names agree. *)
Theorem work_files_apart tempdir filename filename' :
  pass2filename_of tempdir filename <> trimfilename_of filename' /\
  pass2filename_of tempdir filename <> filename /\
  trimfilename_of filename <> filename /\
  contains "/" (trimfilename_of filename) = false /\
  basename (pass2filename_of tempdir filename) = basename filename ++ ".pass2" /\
  (trimfilename_of filename = trimfilename_of filename'
   <-> basename filename = basename filename') /\
  (pass2filename_of tempdir filename = pass2filename_of tempdir filename'
   <-> basename filename = basename filename').
Proof.
  split; [apply pass2filename_ne_trimfilename |].
  split; [apply pass2filename_ne_input |].
  split; [apply trimfilename_ne_input |].
  split; [apply trimfilename_no_slash |].
  split; [apply basename_pass2filename |].
  split; [| apply pass2filename_inj].
  split; [apply append_inj_r | unfold trimfilename_of; by intros ->].
Qed.

(** ** The counters *)

Lemma total_bp_app rs1 rs2 : total_bp (rs1 ++ rs2) = total_bp rs1 + total_bp rs2.
Proof. unfold total_bp. induction rs1 as [| r rs1 IH]; cbn; [done | lia]. Qed.

Lemma total_bp_snoc rs r : total_bp (rs ++ [r]) = total_bp rs + len (sequence r).
Proof. rewrite total_bp_app. unfold total_bp. cbn. lia. Qed.

Lemma sources_length_le p rs fs : (length (sources p rs fs) <= length rs)%nat.
Proof.
  revert fs. induction rs as [| r rs IH]; intros [| f fs]; cbn; try lia.
  specialize (IH fs). destruct (p f); cbn; lia.
Qed.

Lemma emitted_of_length rs fs :
  Forall2 fate_ok rs fs ->
  length (emitted_of fs) = length (sources is_emitted rs fs).
Proof.
  intros Hok. apply emitted_names in Hok.
  apply (f_equal length) in Hok. by rewrite !length_fmap in Hok.
Qed.

(** Closes a goal on the counters and the sizes of the files of a state
    reached through writes. *)
Ltac tally_solve :=
  unfold size_of;
  repeat (progress (unfold content, written; cbn -[total_bp];
                    rewrite ?lookup_insert_eq, ?lookup_insert_ne by done));
  rewrite ?length_app, ?total_bp_snoc; unfold len; cbn -[total_bp];
  rewrite ?slice_to_length;
  repeat split; try lia.

Section Tally.
Context {T : Type} `{CountingTable T}.
Context (a : args) (pass2fp trimfp : string).
Hypothesis distinct : pass2fp <> trimfp.

Lemma pass1_chunk_counted c (s s' : state T) :
  pass1_chunk a pass2fp trimfp c s = Done tt s' ->
  pass1_counted pass2fp trimfp (reads_of c) s s'.
Proof.
  unfold pass1_counted.
  destruct c as [i r | i r1 r2]; intros Hrun; unfold pass1_chunk in Hrun;
    cbv zeta in Hrun; minv Hrun.
  all: unfold total_bp; tally_solve.
Qed.

Lemma pass1_counted_trans rs1 rs2 (s s1 s2 : state T) :
  pass1_counted pass2fp trimfp rs1 s s1 ->
  pass1_counted pass2fp trimfp rs2 s1 s2 ->
  pass1_counted pass2fp trimfp (rs1 ++ rs2) s s2.
Proof.
  unfold pass1_counted. rewrite length_app, total_bp_app.
  intros (? & ? & ? & ? & ? & ? & ? & ? & ?) (? & ? & ? & ? & ? & ? & ? & ? & ?).
  repeat split; try lia; congruence.
Qed.

Lemma pass1_loop_counted chunks (s s' : state T) :
  pass1_loop a pass2fp trimfp chunks s = Done tt s' ->
  pass1_counted pass2fp trimfp (all_reads chunks) s s'.
Proof.
  unfold pass1_loop, all_reads. revert s.
  induction chunks as [| c chunks IH]; intros s Hrun; cbn in Hrun |- *.
  - apply mret_Done in Hrun as [_ ->]. unfold pass1_counted. cbn.
    repeat split; lia.
  - apply bind_Done_inv in Hrun as ([] & s1 & Hc & Hrest).
    eapply pass1_counted_trans; [by apply pass1_chunk_counted | by apply IH].
Qed.

(** The records a completed first-pass loop added to its two files are
    no more than the records it read. *)
Lemma pass1_loop_split chunks (s s' : state T) :
  pass1_loop a pass2fp trimfp chunks s = Done tt s' ->
  0 <= size_of pass2fp s' - size_of pass2fp s /\
  0 <= size_of trimfp s' - size_of trimfp s /\
  (size_of pass2fp s' - size_of pass2fp s)
  + (size_of trimfp s' - size_of trimfp s)
    <= Z.of_nat (length (all_reads chunks)).
Proof.
  intros Hrun.
  apply pass1_loop_accounted in Hrun as (fs & Hok & Hdef & Hemit & _); [| done].
  assert (Hlen : length (all_reads chunks) = length fs)
    by (by eapply Forall2_length).
  pose proof (fates_partition _ fs Hlen) as Hperm.
  apply Permutation_length in Hperm. rewrite !length_app in Hperm.
  rewrite <- (emitted_of_length _ fs Hok) in Hperm.
  unfold size_of. rewrite Hdef, Hemit, !length_app. lia.
Qed.

Lemma pass2_record_counted ir (s s' : state T) :
  pass2_record a trimfp ir s = Done tt s' -> pass2_counted a trimfp s s'.
Proof.
  unfold pass2_counted. intros Hrun. unfold pass2_record in Hrun.
  cbv zeta in Hrun. minv Hrun.
  all: tally_solve.
  all: match goal with Hvc : variable_coverage a = false |- _ =>
         rewrite Hvc, andb_false_r in Hc; discriminate end.
Qed.

Lemma pass2_counted_preorder : PreOrder (pass2_counted (T := T) a trimfp).
Proof.
  split.
  - intros s. unfold pass2_counted. repeat split; lia.
  - intros s1 s2 s3. unfold pass2_counted.
    intros (? & ? & ? & ? & ? & ? & ? & ? & ? & ? & ? & Hvc1)
           (? & ? & ? & ? & ? & ? & ? & ? & ? & ? & ? & Hvc2).
    repeat split; try lia; try congruence.
    all: match goal with Hvc : variable_coverage a = false |- _ =>
           destruct (Hvc1 Hvc), (Hvc2 Hvc); congruence end.
Qed.

Lemma pass2_loop_counted rs (s s' : state T) :
  pass2_loop a trimfp rs s = Done tt s' -> pass2_counted a trimfp s s'.
Proof.
  pose proof pass2_counted_preorder as Hpre.
  unfold pass2_loop. generalize (enumerate rs). intros irs. revert s.
  induction irs as [| ir irs IH]; intros s Hrun; cbn in Hrun.
  - apply mret_Done in Hrun as [_ ->]. reflexivity.
  - apply bind_Done_inv in Hrun as ([] & s1 & Hr & Hrest).
    etrans; [by eapply pass2_record_counted | by apply IH].
Qed.

End Tally.

(** X5.  When the first-pass loop over the records of a file
    completes, its counters agree with what it did: [read_reads] grew
    by the number of records and [read_bp] by the sum of the lengths of
    their sequences as read; [save_pass2] grew by the number of records
    added to the deferred store and [wrote_reads] by the number added
    to the output.  Deferred and emitted records together are no more
    than the records read, and [trimmed_reads] grew by no more than
    [wrote_reads] did. *)
Theorem pass1_counters_follow_the_files {T} `{CountingTable T} a pass2fp trimfp
    chunks (s s' : state T) :
  pass2fp <> trimfp ->
  pass1_loop a pass2fp trimfp chunks s = Done tt s' ->
  let rs := all_reads chunks in
  let deferred := size_of pass2fp s' - size_of pass2fp s in
  let emitted := size_of trimfp s' - size_of trimfp s in
  read_reads (cnt s') = read_reads (cnt s) + Z.of_nat (length rs) /\
  read_bp (cnt s') = read_bp (cnt s) + total_bp rs /\
  save_pass2 s' = save_pass2 s + deferred /\
  wrote_reads (cnt s') = wrote_reads (cnt s) + emitted /\
  0 <= deferred /\ 0 <= emitted /\
  deferred + emitted <= Z.of_nat (length rs) /\
  0 <= trimmed_reads (cnt s') - trimmed_reads (cnt s) <= emitted.
Proof.
  intros Hne Hrun. cbv zeta.
  pose proof (pass1_loop_counted a _ _ Hne _ _ _ Hrun)
    as (Hreads & Hbp & Hwrote & Hsave & Htrim & _).
  pose proof (pass1_loop_split a _ _ Hne _ _ _ Hrun) as (Hdef & Hemit & Hsum).
  split_and!; lia.
Qed.

Lemma pass1_counters_follow_the_files_witness :
  let s := ex_state ex_table in
  let s' := ex_after_pass1 in
  pass1_loop ex_args "x.pass2" "x.abundtrim" ex_chunks s = Done tt s' /\
  read_reads (cnt s') = 5 /\
  save_pass2 s' = size_of "x.pass2" s' /\
  wrote_reads (cnt s') = size_of "x.abundtrim" s'.
Proof.
  intros s s'.
  assert (Hrun : pass1_loop ex_args "x.pass2" "x.abundtrim" ex_chunks s = Done tt s')
    by (vm_compute; reflexivity).
  split; [exact Hrun |].
  destruct (pass1_counters_follow_the_files ex_args "x.pass2" "x.abundtrim"
              ex_chunks s s')
    as (Hreads & _ & Hsave & Hwrote & _); [done | exact Hrun |].
  assert (Hp2 : size_of "x.pass2" s = 0) by (vm_compute; reflexivity).
  assert (Htf : size_of "x.abundtrim" s = 0) by (vm_compute; reflexivity).
  split; [rewrite Hreads; vm_compute; reflexivity |].
  split; [rewrite Hsave, Hp2 | rewrite Hwrote, Htf]; cbn; lia.
Defined.

(** X6.  When the second-pass loop completes, it has read nothing new
    and deferred nothing: [read_reads], [read_bp] and
    [save_pass2_total] are as before.  [wrote_reads] grew by the number
    of records added to the output, which is at most the number of
    records looked at; [wrote_bp] grew by at least the bases written.
    The records skipped for low coverage and the records trimmed are
    together no more than the records written, and without
    [--variable-coverage] nothing is skipped. *)
Theorem pass2_counters_follow_the_output {T} `{CountingTable T} a trimfp rs
    (s s' : state T) :
  pass2_loop a trimfp rs s = Done tt s' ->
  let emitted := size_of trimfp s' - size_of trimfp s in
  let skipped := skipped_n (cnt s') - skipped_n (cnt s) in
  let trimmed := trimmed_reads (cnt s') - trimmed_reads (cnt s) in
  read_reads (cnt s') = read_reads (cnt s) /\
  read_bp (cnt s') = read_bp (cnt s) /\
  save_pass2_total (cnt s') = save_pass2_total (cnt s) /\
  wrote_reads (cnt s') = wrote_reads (cnt s) + emitted /\
  0 <= emitted <= Z.of_nat (length rs) /\
  0 <= skipped /\ 0 <= trimmed /\ skipped + trimmed <= emitted /\
  total_bp (content trimfp s') - total_bp (content trimfp s)
    <= wrote_bp (cnt s') - wrote_bp (cnt s) /\
  0 <= skipped_bp (cnt s') - skipped_bp (cnt s)
    <= wrote_bp (cnt s') - wrote_bp (cnt s) /\
  (variable_coverage a = false ->
   skipped_n (cnt s') = skipped_n (cnt s) /\
   skipped_bp (cnt s') = skipped_bp (cnt s)).
Proof.
  intros Hrun. cbv zeta.
  pose proof (pass2_loop_counted a trimfp _ _ _ Hrun)
    as (Hreads & Hbp & Htotal & _ & _ & Hwrote & Hwbp & Htrim & Hskip0 & Hskip
        & Hsbp & Hvc).
  apply pass2_loop_fates in Hrun as (fs & Hok & _ & [Hemit _]).
  pose proof (emitted_of_length rs fs Hok) as Hlen.
  pose proof (sources_length_le is_emitted rs fs) as Hle.
  assert (Hsize : size_of trimfp s'
                  = size_of trimfp s + Z.of_nat (length (emitted_of fs))).
  { unfold size_of. rewrite Hemit, length_app. lia. }
  split_and!; try lia; intros Hv; by destruct (Hvc Hv).
Qed.

Lemma pass2_counters_follow_the_output_witness :
  let s := ex_after_pass1 in
  let s' := state_of (pass2_loop ex_args "x.abundtrim" (content "x.pass2" s) s) in
  pass2_loop ex_args "x.abundtrim" (content "x.pass2" s) s = Done tt s' /\
  read_reads (cnt s') = 5 /\
  skipped_n (cnt s') = 0.
Proof.
  intros s s'.
  assert (Hrun : pass2_loop ex_args "x.abundtrim" (content "x.pass2" s) s
                 = Done tt s') by (vm_compute; reflexivity).
  split; [exact Hrun |].
  destruct (pass2_counters_follow_the_output ex_args "x.abundtrim"
              (content "x.pass2" s) s s' Hrun)
    as (Hreads & _ & _ & _ & _ & _ & _ & _ & _ & _ & Hvc).
  split.
  - rewrite Hreads. vm_compute. reflexivity.
  - destruct Hvc as [-> _]; [reflexivity |]. vm_compute. reflexivity.
Defined.

(** ** A turn of the loop over the input files *)

Section Files.
Context {T : Type} `{CountingTable T}.
Context (a : args) (tempdir : string).

(** Once the input file is open, a turn of the first loop is the loop
    over its records from the state [opened], then the summary line. *)
Lemma pass1_file_opened filename rs (s : state T) :
  files (env s) !! filename = Some rs ->
  pass1_file a tempdir filename s
  = (pass1_loop a (pass2filename_of tempdir filename) (trimfilename_of filename)
       (broken_paired_reader rs) ;;
     bound ← gets n;
     match bound with
     | None => raise (UnboundLocalError "n")
     | Some _ => modify closed
     end) (opened tempdir filename s).
Proof.
  intros Hfile. unfold pass1_file. cbv zeta.
  rewrite bind_run. cbn [modify].
  rewrite bind_run. unfold screed_open at 1. cbn [env set_pass2list].
  rewrite Hfile.
  rewrite bind_run. cbn [open_w on_world modify].
  rewrite bind_run. cbn [open_w on_world modify].
  rewrite bind_run. cbn [modify].
  reflexivity.
Qed.

Lemma pass1_file_missing filename (s : state T) :
  files (env s) !! filename = None ->
  pass1_file a tempdir filename s
  = Raised IOError
      (set_pass2list (pass2list s ++ [pass2entry tempdir filename]) s).
Proof.
  intros Hfile. unfold pass1_file. cbv zeta.
  rewrite bind_run. cbn [modify].
  rewrite bind_run. unfold screed_open. cbn [env set_pass2list].
  by rewrite Hfile.
Qed.

Lemma pass1_file_Done filename (s s' : state T) :
  pass1_file a tempdir filename s = Done tt s' ->
  exists rs s1,
    files (env s) !! filename = Some rs /\
    pass1_loop a (pass2filename_of tempdir filename) (trimfilename_of filename)
      (broken_paired_reader rs) (opened tempdir filename s) = Done tt s1 /\
    is_Some (n s1) /\
    s' = closed s1.
Proof.
  intros Hrun.
  destruct (files (env s) !! filename) as [rs |] eqn:Hfile;
    [| by rewrite pass1_file_missing in Hrun].
  rewrite (pass1_file_opened _ rs) in Hrun by done.
  apply bind_Done_inv in Hrun as ([] & s1 & Hloop & Hrun).
  apply bind_Done_inv in Hrun as (bound & s2 & Hn & Hrun).
  apply gets_Done in Hn as [-> ->].
  exists rs, s1. split; [done |]. split; [done |].
  destruct (n s1) as [k |]; [| discriminate].
  apply modify_Done in Hrun as ->. eauto.
Qed.

Lemma opened_sizes filename (s : state T) :
  size_of (pass2filename_of tempdir filename) (opened tempdir filename s) = 0 /\
  size_of (trimfilename_of filename) (opened tempdir filename s) = 0.
Proof.
  unfold size_of, content, opened. cbn.
  rewrite lookup_insert_eq.
  rewrite lookup_insert_ne by (intros Heq; by eapply pass2filename_ne_trimfilename).
  by rewrite lookup_insert_eq.
Qed.

Lemma pass1_file_pass2list filename (s s' : state T) :
  pass1_file a tempdir filename s = Done tt s' ->
  pass2list s' = (pass2list s ++ [pass2entry tempdir filename])%list.
Proof.
  intros Hrun. apply pass1_file_Done in Hrun as (rs & s1 & _ & Hloop & _ & ->).
  apply pass1_loop_counted in Hloop; [| apply pass2filename_ne_trimfilename].
  destruct Hloop as (_ & _ & _ & _ & _ & _ & _ & _ & Hlist). exact Hlist.
Qed.

Lemma pass1_files_pass2list filenames (s s' : state T) :
  forM_ (pass1_file a tempdir) filenames s = Done tt s' ->
  pass2list s' = (pass2list s ++ (pass2entry tempdir <$> filenames))%list.
Proof.
  revert s. induction filenames as [| f fs IH]; intros s Hrun; cbn in Hrun.
  - apply mret_Done in Hrun as [_ ->]. by rewrite app_nil_r.
  - apply bind_Done_inv in Hrun as ([] & s1 & Hf & Hrest).
    rewrite (IH _ Hrest), (pass1_file_pass2list _ _ _ Hf), <- app_assoc. done.
Qed.

End Files.

(** X7.  When the turn of the first loop over an input file completes,
    the counters agree with the files it leaves: [read_reads] and
    [read_bp] grew by the records the reader yielded and their bases,
    [save_pass2] is the number of records in the deferred store of the
    file, [save_pass2_total] grew by that number, [wrote_reads] grew
    by the number of records in the output, and the two files together
    hold no more records than were read. *)
Theorem pass1_file_totals {T} `{CountingTable T} a tempdir filename
    (s s' : state T) :
  pass1_file a tempdir filename s = Done tt s' ->
  let deferred := size_of (pass2filename_of tempdir filename) s' in
  let emitted := size_of (trimfilename_of filename) s' in
  exists rs,
    files (env s) !! filename = Some rs /\
    let records := all_reads (broken_paired_reader rs) in
    read_reads (cnt s') = read_reads (cnt s) + Z.of_nat (length records) /\
    read_bp (cnt s') = read_bp (cnt s) + total_bp records /\
    save_pass2 s' = deferred /\
    save_pass2_total (cnt s') = save_pass2_total (cnt s) + deferred /\
    wrote_reads (cnt s') = wrote_reads (cnt s) + emitted /\
    deferred + emitted <= Z.of_nat (length records).
Proof.
  intros Hrun. cbv zeta.
  apply pass1_file_Done in Hrun as (rs & s1 & Hfile & Hloop & _ & ->).
  exists rs. split; [done |].
  pose proof (pass2filename_ne_trimfilename tempdir filename filename) as Hne.
  pose proof (pass1_loop_counted a _ _ Hne _ _ _ Hloop)
    as (Hreads & Hbp & Hwrote & Hsave & _ & Htotal & _).
  pose proof (pass1_loop_split a _ _ Hne _ _ _ Hloop) as (_ & _ & Hsum).
  destruct (opened_sizes tempdir filename s) as [Hp2 Htf].
  rewrite Hp2, Htf in *. cbn in Hreads, Hbp, Hwrote, Hsave, Htotal.
  unfold closed, size_of, content in *. cbn.
  split_and!; lia.
Qed.

Lemma pass1_file_totals_witness :
  let s := ex_started ex_table in
  let s' := state_of (pass1_file ex_args ex_tempdir "reads/x.fa" s) in
  pass1_file ex_args ex_tempdir "reads/x.fa" s = Done tt s' /\
  save_pass2_total (cnt s') = size_of "./tmpAb3khmer/x.fa.pass2" s' /\
  wrote_reads (cnt s') = size_of "x.fa.abundtrim" s'.
Proof.
  intros s s'.
  assert (Hrun : pass1_file ex_args ex_tempdir "reads/x.fa" s = Done tt s')
    by (vm_compute; reflexivity).
  split; [exact Hrun |].
  destruct (pass1_file_totals ex_args ex_tempdir "reads/x.fa" s s' Hrun)
    as (rs & _ & _ & _ & _ & Htotal & Hwrote & _).
  split; [exact Htotal | exact Hwrote].
Defined.

(** X8.  An input file that is missing ends the turn of the first loop
    with [IOError] at once: the deferred store and the output of the
    file are not created, and the table and the counters are as they
    were.  When it is the first input file, the run ends so, and all
    it leaves is the temporary directory it made. *)
Theorem missing_input_file {T} `{CountingTable T} a :
  (forall tempdir filename (s : state T),
     files (env s) !! filename = None ->
     let o := pass1_file a tempdir filename s in
     exn_of o = Some IOError /\ env (state_of o) = env s /\
     ht (state_of o) = ht s /\ cnt (state_of o) = cnt s) /\
  (forall w (s : state T) tempdir filename rest,
     startup a w = inr (s, tempdir) ->
     input_filenames a = filename :: rest ->
     files w !! filename = None ->
     main a w
     = Run (Some IOError) (set_dirs (tempdir :: dirs w) w) (Some (ht s))).
Proof.
  split.
  - intros tempdir filename s Hfile o. unfold o.
    by rewrite pass1_file_missing.
  - intros w s tempdir filename rest Hstart Hin Hfile.
    unfold main, passes. rewrite Hstart, Hin. cbn [forM_].
    rewrite !bind_run. cbn [modify]. rewrite !bind_run.
    unfold startup in Hstart. destruct (negb _); [discriminate |].
    destruct (new_counting_hash _ _ _) as [e | table]; [discriminate |].
    cbn in Hstart. injection Hstart as <- <-.
    by rewrite pass1_file_missing.
Qed.

Lemma missing_input_file_witness :
  main (T := Sketch.table) ex_args ex_no_input
  = Run (Some IOError) (set_dirs [ex_tempdir] ex_no_input) (Some ex_table).
Proof.
  apply (proj2 (missing_input_file ex_args) ex_no_input
           (State ex_table (set_dirs [ex_tempdir] ex_no_input) zero_counters [] 0 None)
           ex_tempdir "reads/x.fa" []).
  - vm_compute. reflexivity.
  - reflexivity.
  - vm_compute. reflexivity.
Defined.

(** X9.  The summary line of a file reads the loop variable [n].  A
    completed turn of the first loop leaves [n] bound.  On an input
    file for which the reader yields no record the turn creates the
    (empty) deferred store and output and then, when no record has
    been seen in any file before, raises [UnboundLocalError]; when [n]
    is bound it completes with nothing counted. *)
Theorem empty_input_file {T} `{CountingTable T} a tempdir :
  (forall filename (s s' : state T),
     pass1_file a tempdir filename s = Done tt s' -> is_Some (n s')) /\
  (forall filename (s : state T),
     files (env s) !! filename = Some [] ->
     pass1_file a tempdir filename s
     = match n s with
       | None => Raised (UnboundLocalError "n") (opened tempdir filename s)
       | Some _ => Done tt (closed (opened tempdir filename s))
       end).
Proof.
  split.
  - intros filename s s' Hrun.
    by apply pass1_file_Done in Hrun as (rs & s1 & _ & _ & Hn & ->).
  - intros filename s Hfile. rewrite (pass1_file_opened _ _ _ []) by done.
    cbn [broken_paired_reader broken_paired_reader_from pass1_loop forM_].
    mred. unfold opened at 1. cbn [n]. by destruct (n s).
Qed.

Lemma empty_input_file_witness :
  let unbound := State ex_table ex_empty_input zero_counters [] 0 None in
  let bound := State ex_table ex_empty_input zero_counters [] 0 (Some 7) in
  exn_of (pass1_file ex_args ex_tempdir "reads/x.fa" unbound)
  = Some (UnboundLocalError "n") /\
  exn_of (pass1_file ex_args ex_tempdir "reads/x.fa" bound) = None /\
  is_Some (n (state_of (pass1_file ex_args ex_tempdir "reads/x.fa"
                          (ex_started ex_table)))).
Proof.
  intros unbound bound.
  destruct (empty_input_file (T := Sketch.table) ex_args ex_tempdir)
    as [Hbound Hempty].
  split; [| split].
  - rewrite (Hempty "reads/x.fa" unbound); vm_compute; reflexivity.
  - rewrite (Hempty "reads/x.fa" bound); vm_compute; reflexivity.
  - apply (Hbound "reads/x.fa" (ex_started ex_table)). vm_compute. reflexivity.
Defined.

(** X10.  A run whose first input file yields no record ends with
    [UnboundLocalError] for [n], for any table and any further input
    files.  It leaves the empty deferred store and the empty output of
    that file, and the temporary directory; nothing is printed on
    standard error and the table is as it was made. *)
Theorem leading_empty_file_ends_run {T} `{CountingTable T} a w (s : state T)
    tempdir filename rest :
  startup a w = inr (s, tempdir) ->
  input_filenames a = filename :: rest ->
  files w !! filename = Some [] ->
  let r := main a w in
  status r = Some (UnboundLocalError "n") /\
  files (final_world r)
  = <[trimfilename_of filename := []]>
      (<[pass2filename_of tempdir filename := []]> (files w)) /\
  dirs (final_world r) = tempdir :: dirs w /\
  stderr (final_world r) = stderr w /\
  final_ht r = Some (ht s).
Proof.
  intros Hstart Hin Hfile r. unfold r, main, passes.
  rewrite Hstart, Hin. cbn [forM_].
  rewrite !bind_run. cbn [modify]. rewrite !bind_run.
  unfold startup in Hstart. destruct (negb _); [discriminate |].
  destruct (new_counting_hash _ _ _) as [e | table]; [discriminate |].
  cbn in Hstart. injection Hstart as <- <-.
  rewrite (pass1_file_opened _ _ _ []) by done.
  cbn [broken_paired_reader broken_paired_reader_from pass1_loop forM_].
  mred. done.
Qed.

Lemma leading_empty_file_ends_run_witness :
  status (main (T := Sketch.table) ex_args ex_empty_input)
  = Some (UnboundLocalError "n") /\
  files (final_world (main (T := Sketch.table) ex_args ex_empty_input))
    !! "x.fa.abundtrim" = Some [].
Proof.
  destruct (leading_empty_file_ends_run (T := Sketch.table) ex_args ex_empty_input
              (State ex_table (set_dirs [ex_tempdir] ex_empty_input)
                 zero_counters [] 0 None)
              ex_tempdir "reads/x.fa" [])
    as (Hstatus & Hfiles & _).
  - vm_compute. reflexivity.
  - reflexivity.
  - vm_compute. reflexivity.
  - split; [exact Hstatus |]. rewrite Hfiles. vm_compute. reflexivity.
Defined.

(** X11.  When the loop over the input files completes, [pass2list]
    has gained one triple for each of them, in the order of the command
    line: the input file, its deferred store in the temporary
    directory, and its output.  The second loop visits the files in
    that order. *)
Theorem pass2list_follows_the_command_line {T} `{CountingTable T} a tempdir
    filenames (s s' : state T) :
  forM_ (pass1_file a tempdir) filenames s = Done tt s' ->
  pass2list s'
  = (pass2list s
     ++ ((fun filename =>
            (filename, pass2filename_of tempdir filename, trimfilename_of filename))
         <$> filenames))%list.
Proof.
  change (fun filename => _) with (pass2entry tempdir).
  revert s. induction filenames as [| f fs IH]; intros s Hrun; cbn in Hrun.
  - apply mret_Done in Hrun as [_ ->]. by rewrite app_nil_r.
  - apply bind_Done_inv in Hrun as ([] & s1 & Hf & Hrest).
    apply pass1_file_pass2list in Hf. apply IH in Hrest.
    by rewrite Hrest, Hf, <- app_assoc.
Qed.

Lemma pass2list_follows_the_command_line_witness :
  let s := ex_started ex_table in
  let s' := state_of (forM_ (pass1_file ex_args ex_tempdir) ["reads/x.fa"] s) in
  pass2list s' = [("reads/x.fa", "./tmpAb3khmer/x.fa.pass2", "x.fa.abundtrim")].
Proof.
  intros s s'.
  rewrite (pass2list_follows_the_command_line ex_args ex_tempdir
             ["reads/x.fa"] s s').
  - vm_compute. reflexivity.
  - vm_compute. reflexivity.
Defined.

(** ** The files a run leaves alone *)

Section Keeps.
Context {T : Type} `{CountingTable T}.
Context (p : string).

Lemma keeps_preorder : PreOrder (keeps (T := T) p).
Proof.
  split; [by intros s |]. intros s1 s2 s3 H12 H23. unfold keeps in *. congruence.
Qed.

Lemma keeps_sequential : Sequential (keeps (T := T) p) (fun _ => keeps p).
Proof. apply steady_sequential, keeps_preorder. Qed.

Lemma keeps_env (s s' : state T) : env s' = env s -> keeps p s s'.
Proof. unfold keeps. by intros ->. Qed.

Lemma keeps_state {A} (m : M (state T) A) :
  (forall s, keeps p s (state_of (m s))) -> always m (keeps p) (fun _ => keeps p).
Proof. apply always_state_of. Qed.

Lemma on_ht_keeps {A} (op : M T A) :
  always (on_ht op) (keeps p) (fun _ => keeps p).
Proof. apply keeps_state. intros s. apply keeps_env, on_ht_env. Qed.

Lemma write_record_keeps r fp :
  fp <> p -> always (write_record (T := T) r fp) (keeps p) (fun _ => keeps p).
Proof.
  intros Hfp. apply keeps_state. intros s. unfold write_record, keeps.
  destruct (free_space (env s)) as [| k]; cbn; [done |].
  by rewrite lookup_insert_ne.
Qed.

Lemma open_w_keeps fp :
  fp <> p -> always (open_w (T := T) fp) (keeps p) (fun _ => keeps p).
Proof.
  intros Hfp. apply keeps_state. intros s. unfold keeps. cbn.
  by rewrite lookup_insert_ne.
Qed.

Lemma open_a_keeps fp :
  fp <> p -> always (open_a (T := T) fp) (keeps p) (fun _ => keeps p).
Proof.
  intros Hfp. apply keeps_state. intros s. unfold keeps. cbn.
  destruct (files (env s) !! fp); cbn; [done |]. by rewrite lookup_insert_ne.
Qed.

Lemma screed_open_keeps path :
  always (screed_open (T := T) path) (keeps p) (fun _ => keeps p).
Proof.
  apply keeps_state. intros s. unfold screed_open.
  by destruct (files (env s) !! path).
Qed.

Lemma unlink_keeps path :
  path <> p -> always (unlink (T := T) path) (keeps p) (fun _ => keeps p).
Proof.
  intros Hp. apply keeps_state. intros s. unfold unlink, keeps.
  destruct (files (env s) !! path); cbn; [| done]. by rewrite lookup_delete_ne.
Qed.

Lemma rmtree_keeps dir :
  under dir p = false -> always (rmtree (T := T) dir) (keeps p) (fun _ => keeps p).
Proof.
  intros Hp. apply keeps_state. intros s. unfold keeps. cbn.
  destruct (files (env s) !! p) as [rs |] eqn:Hl.
  - by apply map_lookup_filter_Some_2.
  - apply map_lookup_filter_None_2. by left.
Qed.

Lemma modify_keeps (f : state T -> state T) :
  (forall s, env (f s) = env s) -> always (modify f) (keeps p) (fun _ => keeps p).
Proof. intros Hf. apply keeps_state. intros s. apply keeps_env, Hf. Qed.

Lemma pass1_loop_keeps a pass2fp trimfp chunks :
  pass2fp <> p -> trimfp <> p ->
  always (pass1_loop (T := T) a pass2fp trimfp chunks) (keeps p) (fun _ => keeps p).
Proof.
  intros Hp2 Htf.
  apply (pass1_loop_always _ _ (Sequential0 := keeps_sequential)
           a pass2fp trimfp (fun _ => True)).
  - intros s s' [_ Henv]. by apply keeps_env.
  - intros r _. apply on_ht_keeps.
  - intros r _. apply on_ht_keeps.
  - intros r cutoff _. apply on_ht_keeps.
  - intros r _. by apply write_record_keeps.
  - intros r r' _ _. by apply write_record_keeps.
  - by apply Forall_true.
Qed.

Lemma pass2_loop_keeps a trimfp rs :
  trimfp <> p ->
  always (pass2_loop (T := T) a trimfp rs) (keeps p) (fun _ => keeps p).
Proof.
  intros Htf.
  apply (pass2_loop_always _ _ (Sequential0 := keeps_sequential)
           a trimfp (fun _ => True)).
  - intros s s' [_ Henv]. by apply keeps_env.
  - intros r _. apply on_ht_keeps.
  - intros r cutoff _. apply on_ht_keeps.
  - intros r r' _ _. by apply write_record_keeps.
  - by apply Forall_true.
Qed.

Lemma pass1_file_keeps a tempdir filename :
  pass2filename_of tempdir filename <> p -> trimfilename_of filename <> p ->
  always (pass1_file (T := T) a tempdir filename) (keeps p) (fun _ => keeps p).
Proof.
  intros Hp2 Htf. pose proof keeps_sequential.
  unfold pass1_file. cbv zeta. always_steps.
  - by apply modify_keeps.
  - apply screed_open_keeps.
  - by apply open_w_keeps.
  - by apply open_w_keeps.
  - by apply modify_keeps.
  - by apply pass1_loop_keeps.
  - by apply modify_keeps.
Qed.

Lemma pass2_file_keeps a entry :
  entry.1.2 <> p -> entry.2 <> p ->
  always (pass2_file (T := T) a entry) (keeps p) (fun _ => keeps p).
Proof.
  destruct entry as [[orig pass2filename] trimfilename]. cbn.
  intros Hp2 Htf. pose proof keeps_sequential.
  unfold pass2_file. always_steps.
  - by apply open_a_keeps.
  - apply screed_open_keeps.
  - by apply pass2_loop_keeps.
  - by apply unlink_keeps.
Qed.

Lemma passes_keeps a tempdir :
  (forall f, f ∈ input_filenames a ->
     pass2filename_of tempdir f <> p /\ trimfilename_of f <> p) ->
  under tempdir p = false ->
  always (passes (T := T) a tempdir) (keeps p) (fun _ => keeps p).
Proof.
  intros Hin Hunder s. pose proof keeps_sequential as Hseq.
  pose proof keeps_preorder as Hpre.
  assert (Hpass1 : always (forM_ (pass1_file (T := T) a tempdir) (input_filenames a))
                     (keeps p) (fun _ => keeps p)).
  { apply always_forM; [done |]. intros f Hf.
    destruct (Hin f Hf). by apply pass1_file_keeps. }
  assert (Hpass2 : always (forM_ (pass2_file (T := T) a)
                             (pass2entry tempdir <$> input_filenames a) ;;
                           rmtree tempdir)
                     (keeps p) (fun _ => keeps p)).
  { always_steps; [| by apply rmtree_keeps].
    apply always_forM; [done |]. intros e He.
    apply list_elem_of_fmap in He as (f & -> & Hf).
    destruct (Hin f Hf). by apply pass2_file_keeps. }
  unfold passes. rewrite bind_run. cbn [modify]. rewrite bind_run.
  specialize (Hpass1 (set_pass2list [] s)).
  destruct (forM_ _ _ (set_pass2list [] s)) as [[] s1 | e s1] eqn:Hrun;
    [| exact Hpass1].
  apply pass1_files_pass2list in Hrun. cbn in Hrun.
  rewrite bind_run. cbn [count modify]. rewrite bind_run. cbn [gets].
  cbn [pass2list set_cnt]. rewrite Hrun.
  specialize (Hpass2 (set_cnt (reset_skipped (cnt s1)) s1)).
  change (keeps p s s1) in Hpass1.
  destruct ((_ ;; rmtree tempdir) _) as [[] s2 | e s2];
    (etrans; [exact Hpass1 | exact Hpass2]).
Qed.

End Keeps.

Section Runs.
Context {T : Type} `{CountingTable T}.

Lemma startup_inr a w (s : state T) tempdir :
  startup a w = inr (s, tempdir) ->
  NoDup (input_filenames a) /\
  tempdir = (mkdtemp "khmer" "tmp" (tempdir_arg a) w).1 /\
  exists table,
    new_counting_hash (ksize a) (min_hashsize a) (n_hashes a) = inr table /\
    s = State table (set_dirs (tempdir :: dirs w) w) zero_counters [] 0 None.
Proof.
  unfold startup.
  destruct (size _ =? _)%nat eqn:Hcheck; cbn [negb]; [| discriminate].
  apply no_duplicates_check in Hcheck.
  destruct (new_counting_hash _ _ _) as [e | t]; [discriminate |].
  cbn. intros [= <- <-]. eauto.
Qed.

Lemma startup_inl_files a w e w' :
  startup (T := T) a w = inl (e, w') -> files w' = files w.
Proof.
  unfold startup. destruct (negb _); [by intros [= _ <-] |].
  destruct (new_counting_hash _ _ _) as [e' | t]; [by intros [= _ <-] |].
  discriminate.
Qed.

(** The files a run leaves are those its passes leave: the report
    changes standard error only. *)
Lemma main_files a w (s : state T) tempdir :
  startup a w = inr (s, tempdir) ->
  files (final_world (main a w)) = files (env (state_of (passes a tempdir s))).
Proof.
  intros Hstart. unfold main. rewrite Hstart. cbn [final_world].
  rewrite bind_run. destruct (passes a tempdir s) as [[] s' | e s']; [| done].
  apply report_world.
Qed.

End Runs.

(** X12.  However a run ends, it has changed no file other than the
    outputs of its input files and what lies in the temporary directory
    it made: every other file, and every path that was free, is as
    before.  In particular an input file is as it was unless it has the
    name of an output or lies in that directory. *)
Theorem run_touches_only_its_files {T} `{CountingTable T} a w p :
  (forall filename, filename ∈ input_filenames a -> trimfilename_of filename <> p) ->
  under (mkdtemp "khmer" "tmp" (tempdir_arg a) w).1 p = false ->
  files (final_world (main a w)) !! p = files w !! p.
Proof.
  intros Hin Hunder.
  destruct (startup a w) as [[e w'] | [s tempdir]] eqn:Hstart.
  - unfold main. rewrite Hstart. cbn. by rewrite (startup_inl_files _ _ _ _ Hstart).
  - rewrite (main_files _ _ _ _ Hstart).
    pose proof (startup_tempdir _ _ _ _ Hstart) as [Hne Hend].
    pose proof (startup_inr _ _ _ _ Hstart) as (_ & Hdir & table & _ & Hs).
    rewrite <- Hdir in Hunder.
    transitivity (files (env s) !! p); [| by subst s].
    apply (always_reached _ (keeps p) s). apply passes_keeps; [| done].
    intros f Hf. split; [| by apply Hin].
    intros <-. by rewrite pass2filename_under in Hunder.
Qed.

Lemma run_touches_only_its_files_witness :
  files (final_world (main (T := Sketch.table) ex_args (ex_input 100)))
    !! "reads/x.fa" = Some ex_reads /\
  files (final_world (main (T := Sketch.table) ex_args (ex_input 3)))
    !! "reads/x.fa" = Some ex_reads.
Proof.
  split.
  - rewrite (run_touches_only_its_files ex_args (ex_input 100) "reads/x.fa").
    + vm_compute. reflexivity.
    + intros filename Hin. apply list_elem_of_singleton in Hin as ->.
      vm_compute. discriminate.
    + vm_compute. reflexivity.
  - rewrite (run_touches_only_its_files ex_args (ex_input 3) "reads/x.fa").
    + vm_compute. reflexivity.
    + intros filename Hin. apply list_elem_of_singleton in Hin as ->.
      vm_compute. discriminate.
    + vm_compute. reflexivity.
Defined.

(** ** Input files of the same name *)

Section Entries.
Context {T : Type} `{CountingTable T}.
Context (a : args) (tempdir : string).

(** A deferred store that is missing stays missing through a turn of
    the second loop, and that turn is not on this store. *)
Lemma pass2_file_absent entry p (s s' : state T) :
  files (env s) !! p = None -> entry.2 <> p ->
  pass2_file a entry s = Done tt s' ->
  entry.1.2 <> p /\ files (env s') !! p = None.
Proof.
  destruct entry as [[orig pass2filename] trimfilename]. cbn [fst snd].
  intros Hp Htf Hrun.
  assert (Hne : pass2filename <> p).
  { intros ->. unfold pass2_file in Hrun.
    apply bind_Done_inv in Hrun as ([] & s1 & Hopen & Hrun).
    apply bind_Done_inv in Hrun as (rs & s2 & Hread & _).
    pose proof (open_a_keeps p trimfilename Htf s) as Hk.
    rewrite Hopen in Hk. unfold keeps in Hk.
    unfold screed_open in Hread. by rewrite Hk, Hp in Hread. }
  split; [done |].
  pose proof (pass2_file_keeps p a (orig, pass2filename, trimfilename) Hne Htf s)
    as Hk.
  rewrite Hrun in Hk. unfold keeps in Hk. by rewrite Hk.
Qed.

Lemma pass2_files_absent entries p (s s' : state T) :
  files (env s) !! p = None ->
  Forall (fun e => e.2 <> p) entries ->
  forM_ (pass2_file a) entries s = Done tt s' ->
  p ∉ entries.*1.*2.
Proof.
  intros Hp Hall. revert s Hp.
  induction Hall as [| e entries He _ IH]; intros s Hp Hrun; cbn in Hrun |- *.
  - apply not_elem_of_nil.
  - apply bind_Done_inv in Hrun as ([] & s1 & Hfile & Hrest).
    apply (pass2_file_absent e p) in Hfile as [Hne Hp1]; [| done..].
    apply not_elem_of_cons. split; [done |]. by eapply IH.
Qed.

(** The second loop completes only on a list of distinct deferred
    stores: it deletes each one when it is done with it. *)
Lemma pass2_files_NoDup entries (s s' : state T) :
  (forall e e', e ∈ entries -> e' ∈ entries -> e.2 <> e'.1.2) ->
  forM_ (pass2_file a) entries s = Done tt s' ->
  NoDup entries.*1.*2.
Proof.
  revert s. induction entries as [| e entries IH]; intros s Hapart Hrun;
    cbn in Hrun |- *; [constructor |].
  apply bind_Done_inv in Hrun as ([] & s1 & Hfile & Hrest).
  constructor.
  - apply (pass2_files_absent entries _ s1 s'); [| | done].
    + by eapply pass2_file_unlinks.
    + apply Forall_forall. intros e' He'. apply Hapart; [by right | by left].
  - apply (IH s1); [| done]. intros e1 e2 H1 H2. apply Hapart; by right.
Qed.

(** The parts of a completed [passes]. *)
Lemma passes_Done_inv (s s' : state T) :
  passes a tempdir s = Done tt s' ->
  exists s1 s2,
    forM_ (pass1_file a tempdir) (input_filenames a) (set_pass2list [] s)
    = Done tt s1 /\
    forM_ (pass2_file a) (pass2entry tempdir <$> input_filenames a)
      (set_cnt (reset_skipped (cnt s1)) s1) = Done tt s2 /\
    rmtree tempdir s2 = Done tt s'.
Proof.
  intros Hrun. unfold passes in Hrun.
  apply bind_Done_inv in Hrun as ([] & s0 & Hm & Hrun).
  apply modify_Done in Hm as ->.
  apply bind_Done_inv in Hrun as ([] & s1 & Hpass1 & Hrun).
  apply bind_Done_inv in Hrun as ([] & s1' & Hm & Hrun).
  apply modify_Done in Hm as ->.
  apply bind_Done_inv in Hrun as (l & s1' & Hl & Hrun).
  apply gets_Done in Hl as [-> ->].
  apply bind_Done_inv in Hrun as ([] & s2 & Hpass2 & Hrun).
  pose proof (pass1_files_pass2list _ _ _ _ _ Hpass1) as Hlist.
  cbn in Hlist. cbn [pass2list set_cnt] in Hpass2. rewrite Hlist in Hpass2.
  exists s1, s2. by destruct s'.
Qed.

Lemma passes_Done_basenames (s s' : state T) :
  passes a tempdir s = Done tt s' -> NoDup (basename <$> input_filenames a).
Proof.
  intros Hrun. apply passes_Done_inv in Hrun as (s1 & s2 & _ & Hpass2 & _).
  apply pass2_files_NoDup in Hpass2.
  - rewrite <- !list_fmap_compose in Hpass2.
    apply (NoDup_fmap_1 (fun b => join tempdir (b ++ ".pass2"))).
    by rewrite <- list_fmap_compose.
  - intros e e' He He'.
    apply list_elem_of_fmap in He as (f & -> & _).
    apply list_elem_of_fmap in He' as (f' & -> & _). cbn.
    intros Heq. by eapply pass2filename_ne_trimfilename.
Qed.

End Entries.

(** X13.  Input files are told apart by their base names only.  The
    two passes never both complete when two input files share a base
    name, whatever the table and the files hold: the two files share
    one deferred store, the second loop deletes it after its first
    turn on it, and the next turn on it cannot open it.  So no run on
    such a command line ends normally. *)
Theorem shared_basename_never_completes {T} `{CountingTable T} a :
  (forall tempdir (s s' : state T),
     passes a tempdir s = Done tt s' -> NoDup (basename <$> input_filenames a)) /\
  (forall w, status (main a w) = None -> NoDup (basename <$> input_filenames a)).
Proof.
  split; [apply passes_Done_basenames |].
  intros w. unfold main.
  destruct (startup a w) as [[e w'] | [s tempdir]]; [discriminate |].
  cbn. rewrite bind_run.
  destruct (passes a tempdir s) as [[] s' | e s'] eqn:Hrun; [| discriminate].
  intros _. by eapply passes_Done_basenames.
Qed.

Lemma shared_basename_never_completes_witness :
  status (main (T := Sketch.table) ex_args (ex_input 100)) = None /\
  NoDup (basename <$> input_filenames ex_args).
Proof.
  assert (Hstatus : status (main (T := Sketch.table) ex_args (ex_input 100)) = None)
    by (vm_compute; reflexivity).
  split; [exact Hstatus |].
  exact (proj2 (shared_basename_never_completes (T := Sketch.table) ex_args)
           (ex_input 100) Hstatus).
Defined.

(** Two files [x.fa] in different directories: the first pass over the
    second one truncates what the first one left, and the second pass
    ends with [IOError] on the deferred store it has already deleted. *)
Example shared_basename_run :
  let r := main (T := Sketch.table) ex_args_same_name ex_same_name_input in
  status r = Some IOError /\
  files (final_world r) !! "x.fa.abundtrim" = Some [] /\
  files (final_world r) !! "./tmpAb3khmer/x.fa.pass2" = None.
Proof. repeat split; vm_compute; reflexivity. Qed.

(** ** The order of the records *)

Lemma sources_sublist p rs fs : sources p rs fs `sublist_of` rs.
Proof.
  revert fs. induction rs as [| r rs IH]; intros [| f fs]; cbn;
    try apply sublist_nil_l.
  destruct (p f); [by apply sublist_skip | by apply sublist_cons].
Qed.

Lemma emitted_from_sources rs fs :
  Forall2 fate_ok rs fs ->
  Forall2 from_input (sources is_emitted rs fs) (emitted_of fs).
Proof.
  induction 1 as [| r f rs fs Hok _ IH]; cbn; [constructor |].
  destruct f; cbn; try done. by constructor.
Qed.

(** X14.  Both loops keep the records in the order of their input.
    What a completed first-pass loop adds to the deferred store is a
    subsequence of the records it read, each one as it was read; what
    it adds to the output comes, record by record and in order, from a
    subsequence of them.  A completed second-pass loop likewise adds
    to the output records that come, in order, from a subsequence of
    the deferred ones. *)
Theorem order_is_kept {T} `{CountingTable T} a pass2fp trimfp :
  (forall chunks (s s' : state T),
     pass2fp <> trimfp ->
     pass1_loop a pass2fp trimfp chunks s = Done tt s' ->
     exists deferred kept out,
       content pass2fp s' = (content pass2fp s ++ deferred)%list /\
       content trimfp s' = (content trimfp s ++ out)%list /\
       deferred `sublist_of` all_reads chunks /\
       kept `sublist_of` all_reads chunks /\
       Forall2 from_input kept out) /\
  (forall rs (s s' : state T),
     pass2_loop a trimfp rs s = Done tt s' ->
     exists kept out,
       content trimfp s' = (content trimfp s ++ out)%list /\
       kept `sublist_of` rs /\
       Forall2 from_input kept out).
Proof.
  split.
  - intros chunks s s' Hne Hrun.
    apply pass1_loop_accounted in Hrun as (fs & Hok & Hdef & Hemit & _); [| done].
    exists (sources is_deferred (all_reads chunks) fs),
      (sources is_emitted (all_reads chunks) fs), (emitted_of fs).
    split_and!; try done; try apply sources_sublist.
    by apply emitted_from_sources.
  - intros rs s s' Hrun.
    apply pass2_loop_fates in Hrun as (fs & Hok & _ & [Hemit _]).
    exists (sources is_emitted rs fs), (emitted_of fs).
    split_and!; [done | apply sources_sublist | by apply emitted_from_sources].
Qed.

Lemma order_is_kept_witness :
  exists deferred,
    content "x.pass2" ex_after_pass1 = deferred /\
    deferred `sublist_of` all_reads ex_chunks.
Proof.
  destruct (proj1 (order_is_kept ex_args "x.pass2" "x.abundtrim")
              ex_chunks (ex_state ex_table) ex_after_pass1)
    as (deferred & kept & out & Hdef & _ & Hsub & _).
  - done.
  - vm_compute. reflexivity.
  - exists deferred. split; [exact Hdef | exact Hsub].
Defined.

(** ** What the second pass does to the table *)

Section ReadOnly.
Context {T : Type} `{CountingTable T}.
Hypothesis median_reads : forall q (t : T), state_of (get_median_count q t) = t.
Hypothesis trim_reads : forall q cutoff (t : T),
  state_of (trim_on_abundance q cutoff t) = t.

Lemma same_ht_preorder : PreOrder (same_ht (T := T)).
Proof.
  split; [by intros s |]. intros s1 s2 s3 H12 H23. unfold same_ht in *. congruence.
Qed.

Lemma same_ht_state {A} (m : M (state T) A) :
  (forall s, ht (state_of (m s)) = ht s) ->
  always m same_ht (fun _ => same_ht).
Proof. exact (always_state_of m same_ht). Qed.

Lemma on_ht_reads {A} (op : M T A) :
  (forall t, state_of (op t) = t) ->
  always (on_ht op) same_ht (fun _ => same_ht).
Proof.
  intros Hop. apply same_ht_state. intros s. unfold on_ht.
  specialize (Hop (ht s)). destruct (op (ht s)); cbn in *; done.
Qed.

Lemma pass2_file_same_ht a entry :
  always (pass2_file a entry) same_ht (fun _ => same_ht).
Proof.
  pose proof (steady_sequential _ same_ht_preorder).
  destruct entry as [[orig pass2filename] trimfilename].
  unfold pass2_file. always_steps.
  - apply same_ht_state. intros s. cbn. done.
  - apply same_ht_state. intros s. unfold screed_open.
    by destruct (files (env s) !! pass2filename).
  - apply (pass2_loop_always _ _ a trimfilename (fun _ => True)).
    + by intros s s' [Hht _].
    + intros r _. by apply on_ht_reads.
    + intros r cutoff _. by apply on_ht_reads.
    + intros r r' _ _. apply same_ht_state. intros s. unfold write_record.
      by destruct (free_space (env s)).
    + by apply Forall_true.
  - apply same_ht_state. intros s. unfold unlink.
    by destruct (files (env s) !! pass2filename).
Qed.

End ReadOnly.

Section SketchReads.

Lemma key_at_state q p t : state_of (Sketch.key_at q p t) = t.
Proof. unfold Sketch.key_at. by destruct (Sketch.encode _ _ _). Qed.

Lemma counts_state q ps t : state_of (Sketch.counts q ps t) = t.
Proof.
  induction ps as [| p ps IH]; [done |]. cbn [Sketch.counts].
  rewrite bind_run. pose proof (key_at_state q p t) as Hk.
  destruct (Sketch.key_at q p t) as [key t1 | e t1]; cbn in Hk; subst t1; [| done].
  rewrite bind_run. cbn [gets]. rewrite bind_run.
  destruct (Sketch.counts q ps t) as [cs t1 | e t1]; cbn in IH; subst t1; done.
Qed.

Lemma first_below_state cutoff q ps t :
  state_of (Sketch.first_below cutoff q ps t) = t.
Proof.
  induction ps as [| p ps IH]; [done |]. cbn [Sketch.first_below].
  rewrite bind_run. pose proof (key_at_state q p t) as Hk.
  destruct (Sketch.key_at q p t) as [key t1 | e t1]; cbn in Hk; subst t1; [| done].
  rewrite bind_run. cbn [gets]. by destruct (_ <? _).
Qed.

(** The queries of the table modelled from the spec do not change it. *)
Lemma sketch_median_reads q (t : Sketch.table) :
  state_of (get_median_count q t) = t.
Proof.
  cbn. unfold Sketch.get_median_count. destruct (_ <? _)%nat; [done |].
  rewrite bind_run.
  pose proof (counts_state q (Sketch.positions (Sketch.K t) (String.length q)) t) as Hc.
  destruct (Sketch.counts _ _ _) as [cs t1 | e t1]; cbn in Hc; subst t1; done.
Qed.

Lemma sketch_trim_reads q cutoff (t : Sketch.table) :
  state_of (trim_on_abundance q cutoff t) = t.
Proof.
  cbn. unfold Sketch.trim_on_abundance. destruct (_ <? _)%nat; [done |].
  rewrite bind_run.
  pose proof (first_below_state cutoff q
                (Sketch.positions (Sketch.K t) (String.length q)) t) as Hc.
  destruct (Sketch.first_below _ _ _ _) as [cs t1 | e t1]; cbn in Hc; subst t1; done.
Qed.

End SketchReads.

(** X15.  The second pass only queries the table.  For a table whose
    median and trim queries leave it as it is, the whole second loop,
    completed or cut short by an exception, leaves the table as the
    first pass left it; the false-positive rate reported at the end is
    then that of the table after the first pass. *)
Theorem second_pass_leaves_table {T} `{CountingTable T} a entries (s : state T) :
  (forall q (t : T), state_of (get_median_count q t) = t) ->
  (forall q cutoff (t : T), state_of (trim_on_abundance q cutoff t) = t) ->
  ht (state_of (forM_ (pass2_file a) entries s)) = ht s.
Proof.
  intros Hmedian Htrim.
  apply (always_reached _ same_ht s).
  apply (always_forM _ _ (Sequential0 := steady_sequential _ same_ht_preorder)).
  intros e _. by apply pass2_file_same_ht.
Qed.

Lemma second_pass_leaves_table_witness :
  let s1 := state_of (forM_ (pass1_file ex_args ex_tempdir) ["reads/x.fa"]
                        (ex_started ex_table)) in
  pass2list s1 <> [] /\
  ht (state_of (forM_ (pass2_file ex_args) (pass2list s1) s1)) = ht s1.
Proof.
  intros s1. split; [vm_compute; discriminate |].
  apply (second_pass_leaves_table ex_args (pass2list s1) s1).
  - apply sketch_median_reads.
  - apply sketch_trim_reads.
Defined.

(** ** What the table learns *)

Lemma calls_to_app o l1 l2 :
  calls_to o (l1 ++ l2) = (calls_to o l1 ++ calls_to o l2)%list.
Proof. unfold calls_to. by rewrite List.filter_app, fmap_app. Qed.

Lemma log_call_Done {T A} o q (op : M T A) tl x tl' :
  log_call o q op tl = Done x tl' -> tl'.2 = (tl.2 ++ [(o, q)])%list.
Proof.
  unfold log_call. destruct (op tl.1); [| discriminate]. by intros [= _ <-].
Qed.

Section Logged.
Context {T : Type} `{CountingTable T}.
Context (a : args) (pass2fp trimfp : string).
Hypothesis distinct : pass2fp <> trimfp.

Lemma pass1_chunk_logged c (s s' : state (logged T)) :
  pass1_chunk a pass2fp trimfp c s = Done tt s' ->
  logged_step pass2fp (reads_of c) s s'.
Proof.
  destruct c as [i r | i r1 r2]; intros Hrun; cbn [reads_of].
  - apply pass1_single_Done in Hrun as (med & t1 & Hmed & Hcase).
    pose proof (log_call_Done _ _ _ _ _ _ Hmed) as Hl1.
    destruct (med <? normalize_to a).
    + destruct Hcase as [Hcons [Happ _]].
      pose proof (log_call_Done _ _ _ _ _ _ Hcons) as Hl2.
      exists [r], [(Median, N_to_A (sequence r)); (Consume, N_to_A (sequence r))].
      split_and!; try done. unfold made. by rewrite Hl2, Hl1, <- app_assoc.
    + destruct Hcase as (trim_at & Htrim & Hcase).
      pose proof (log_call_Done _ _ _ _ _ _ Htrim) as Hl2.
      exists [], [(Median, N_to_A (sequence r)); (Trim, N_to_A (sequence r))].
      split_and!; try done.
      * rewrite app_nil_r. destruct (ksize a <=? Z.of_nat trim_at).
        -- by eapply appended_other.
        -- by apply same_files_content.
      * unfold made. by rewrite Hl2, Hl1, <- app_assoc.
  - apply pass1_paired_Done in Hrun as (med1 & med2 & t1 & t2 & Hmed1 & Hmed2 & Hcase).
    pose proof (log_call_Done _ _ _ _ _ _ Hmed1) as Hl1.
    pose proof (log_call_Done _ _ _ _ _ _ Hmed2) as Hl2.
    destruct ((med1 <? normalize_to a) || (med2 <? normalize_to a)).
    + destruct Hcase as [(t3 & Hcons1 & Hcons2) [Happ _]].
      pose proof (log_call_Done _ _ _ _ _ _ Hcons1) as Hl3.
      pose proof (log_call_Done _ _ _ _ _ _ Hcons2) as Hl4.
      exists [r1; r2],
        [(Median, N_to_A (sequence r1)); (Median, N_to_A (sequence r2));
         (Consume, N_to_A (sequence r1)); (Consume, N_to_A (sequence r2))].
      split_and!; try done.
      unfold made. by rewrite Hl4, Hl3, Hl2, Hl1, <- !app_assoc.
    + destruct Hcase as (trim_at1 & trim_at2 & t3 & Htrim1 & Htrim2 & Happ).
      pose proof (log_call_Done _ _ _ _ _ _ Htrim1) as Hl3.
      pose proof (log_call_Done _ _ _ _ _ _ Htrim2) as Hl4.
      exists [],
        [(Median, N_to_A (sequence r1)); (Median, N_to_A (sequence r2));
         (Trim, N_to_A (sequence r1)); (Trim, N_to_A (sequence r2))].
      split_and!; try done.
      * rewrite app_nil_r. by eapply appended_other.
      * unfold made. by rewrite Hl4, Hl3, Hl2, Hl1, <- !app_assoc.
Qed.

Lemma pass1_loop_logged chunks (s s' : state (logged T)) :
  pass1_loop a pass2fp trimfp chunks s = Done tt s' ->
  logged_step pass2fp (all_reads chunks) s s'.
Proof.
  unfold pass1_loop, all_reads. revert s.
  induction chunks as [| c chunks IH]; intros s Hrun; cbn in Hrun |- *.
  - apply mret_Done in Hrun as [_ ->]. exists [], [].
    unfold made. by rewrite !app_nil_r.
  - apply bind_Done_inv in Hrun as ([] & s1 & Hc & Hrest).
    apply pass1_chunk_logged in Hc as (d1 & c1 & Hd1 & Hm1 & Hq1 & Hk1).
    apply IH in Hrest as (d2 & c2 & Hd2 & Hm2 & Hq2 & Hk2).
    exists (d1 ++ d2)%list, (c1 ++ c2)%list. unfold made, seen in *.
    rewrite !calls_to_app, !fmap_app, Hd2, Hd1, Hm2, Hm1, Hq1, Hq2, Hk1, Hk2.
    by rewrite !app_assoc.
Qed.

Lemma no_consume_preorder : PreOrder (no_consume (T := T)).
Proof.
  split.
  - intros s. exists []. unfold made. by rewrite app_nil_r.
  - intros s1 s2 s3 (c1 & Hm1 & Hc1) (c2 & Hm2 & Hc2).
    exists (c1 ++ c2)%list. unfold made in *.
    by rewrite calls_to_app, Hc1, Hc2, Hm2, Hm1, app_assoc.
Qed.

Lemma no_consume_same_ht (s s' : state (logged T)) : ht s' = ht s -> no_consume s s'.
Proof. intros Hht. exists []. unfold made. by rewrite Hht, app_nil_r. Qed.

Lemma log_call_no_consume {A} o q (op : M T A) :
  o <> Consume ->
  always (on_ht (log_call o q op)) no_consume (fun _ => no_consume).
Proof.
  intros Ho. apply always_state_of. intros s. exists [(o, q)].
  split.
  - unfold made, on_ht, log_call. by destruct (op (ht s).1).
  - by destruct o.
Qed.

Lemma pass2_loop_no_consume rs :
  always (pass2_loop (T := logged T) a trimfp rs) no_consume (fun _ => no_consume).
Proof.
  apply (pass2_loop_always _ _ (Sequential0 := steady_sequential _ no_consume_preorder)
           a trimfp (fun _ => True)).
  - intros s s' [Hht _]. by apply no_consume_same_ht.
  - intros r _. by apply log_call_no_consume.
  - intros r cutoff _. by apply log_call_no_consume.
  - intros r r' _ _. apply always_state_of. intros s.
    apply no_consume_same_ht. unfold write_record.
    by destruct (free_space (env s)).
  - by apply Forall_true.
Qed.

End Logged.

(** X16.  Run the loops on a table that records the operations called.
    A completed first-pass loop has asked for the median of every
    record once, in order, and has consumed exactly the records it
    added to the deferred store, each once and in that order: a record
    that is emitted or dropped never updates the counts.  The second
    pass, however it ends, consumes nothing. *)
Theorem table_learns_the_deferred_records {T} `{CountingTable T} a pass2fp trimfp :
  (forall chunks (s s' : state (logged T)),
     pass2fp <> trimfp ->
     pass1_loop a pass2fp trimfp chunks s = Done tt s' ->
     exists deferred calls,
       content pass2fp s' = (content pass2fp s ++ deferred)%list /\
       (ht s').2 = ((ht s).2 ++ calls)%list /\
       calls_to Median calls = seen (all_reads chunks) /\
       calls_to Consume calls = seen deferred) /\
  (forall rs (s : state (logged T)),
     exists calls,
       (ht (state_of (pass2_loop a trimfp rs s))).2 = ((ht s).2 ++ calls)%list /\
       calls_to Consume calls = []).
Proof.
  split.
  - intros chunks s s' Hne Hrun. by eapply pass1_loop_logged.
  - intros rs s. apply (always_reached _ (no_consume (T := T)) s).
    apply pass2_loop_no_consume.
Qed.

Lemma table_learns_the_deferred_records_witness :
  let s : state (logged Sketch.table) :=
    State (ex_table, []) (ex_files ∅ 100) zero_counters [] 0 None in
  let s' := state_of (pass1_loop ex_args "x.pass2" "x.abundtrim" ex_chunks s) in
  exists deferred,
    content "x.pass2" s' = deferred /\
    calls_to Consume (ht s').2 = seen deferred.
Proof.
  intros s s'.
  destruct (proj1 (table_learns_the_deferred_records (T := Sketch.table)
                     ex_args "x.pass2" "x.abundtrim") ex_chunks s s')
    as (deferred & calls & Hdef & Hcalls & _ & Hconsumed).
  - done.
  - vm_compute. reflexivity.
  - exists deferred. split; [exact Hdef |]. by rewrite Hcalls.
Defined.

(** ** Standard error and the end of a run *)

Section Silent.
Context {T : Type} `{CountingTable T}.

Lemma silent_preorder : PreOrder (silent (T := T)).
Proof.
  split; [by intros s |]. intros s1 s2 s3 H12 H23. unfold silent in *. congruence.
Qed.

Lemma silent_state {A} (m : M (state T) A) :
  (forall s, stderr (env (state_of (m s))) = stderr (env s)) ->
  always m silent (fun _ => silent).
Proof. exact (always_state_of m silent). Qed.

Lemma write_record_silent r fp :
  always (write_record (T := T) r fp) silent (fun _ => silent).
Proof.
  apply silent_state. intros s. unfold write_record.
  by destruct (free_space (env s)).
Qed.

Lemma on_ht_silent {A} (op : M T A) : always (on_ht op) silent (fun _ => silent).
Proof. apply silent_state. intros s. by rewrite on_ht_env. Qed.

Lemma pass1_loop_silent a pass2fp trimfp chunks :
  always (pass1_loop (T := T) a pass2fp trimfp chunks) silent (fun _ => silent).
Proof.
  apply (pass1_loop_always _ _ (Sequential0 := steady_sequential _ silent_preorder)
           a pass2fp trimfp (fun _ => True)).
  - intros s s' [_ Henv]. unfold silent. by rewrite Henv.
  - intros r _. apply on_ht_silent.
  - intros r _. apply on_ht_silent.
  - intros r cutoff _. apply on_ht_silent.
  - intros r _. apply write_record_silent.
  - intros r r' _ _. apply write_record_silent.
  - by apply Forall_true.
Qed.

Lemma pass2_loop_silent a trimfp rs :
  always (pass2_loop (T := T) a trimfp rs) silent (fun _ => silent).
Proof.
  apply (pass2_loop_always _ _ (Sequential0 := steady_sequential _ silent_preorder)
           a trimfp (fun _ => True)).
  - intros s s' [_ Henv]. unfold silent. by rewrite Henv.
  - intros r _. apply on_ht_silent.
  - intros r cutoff _. apply on_ht_silent.
  - intros r r' _ _. apply write_record_silent.
  - by apply Forall_true.
Qed.

Lemma passes_silent a tempdir :
  always (passes (T := T) a tempdir) silent (fun _ => silent).
Proof.
  pose proof (steady_sequential _ silent_preorder).
  unfold passes. always_steps.
  - by apply silent_state.
  - apply always_forM; [done |]. intros f _.
    unfold pass1_file. cbv zeta. always_steps.
    + by apply silent_state.
    + apply silent_state. intros s. unfold screed_open.
      by destruct (files (env s) !! f).
    + by apply silent_state.
    + by apply silent_state.
    + by apply silent_state.
    + apply pass1_loop_silent.
    + by apply silent_state.
  - by apply silent_state.
  - apply always_forM; [done |]. intros [[orig pass2filename] trimfilename] _.
    unfold pass2_file. always_steps.
    + apply silent_state. intros s. cbn.
      by destruct (files (env s) !! trimfilename).
    + apply silent_state. intros s. unfold screed_open.
      by destruct (files (env s) !! pass2filename).
    + apply pass2_loop_silent.
    + apply silent_state. intros s. unfold unlink.
      by destruct (files (env s) !! pass2filename).
  - by apply silent_state.
Qed.

End Silent.

(** X17.  The two passes print nothing on standard error, however they
    end.  So all a run adds to standard error is one of: nothing, the
    line about a repeated file name, the false-positive rate, or the
    rate followed by the four lines of the warning; and a run that
    ends normally has added the rate and nothing else. *)
Theorem stderr_of_a_run {T} `{CountingTable T} a w :
  (forall tempdir (s : state T),
     stderr (env (state_of (passes a tempdir s))) = stderr (env s)) /\
  exists printed,
    stderr (final_world (main a w)) = (stderr w ++ printed)%list /\
    (printed = [] \/ printed = [duplicate_error] \/
     exists fp_rate,
       printed = [FpRateLine fp_rate] \/
       printed = FpRateLine fp_rate :: too_small_warning) /\
    (status (main a w) = None -> exists fp_rate, printed = [FpRateLine fp_rate]).
Proof.
  assert (Hsilent : forall tempdir (s : state T),
            stderr (env (state_of (passes a tempdir s))) = stderr (env s)).
  { intros tempdir s. apply (always_reached _ silent s), passes_silent. }
  split; [exact Hsilent |].
  unfold main.
  destruct (startup a w) as [[e w'] | [s tempdir]] eqn:Hstart.
  - cbn. unfold startup in Hstart. destruct (negb _).
    + injection Hstart as <- <-. exists [duplicate_error]. cbn.
      split_and!; [done | by eauto | done].
    + destruct (new_counting_hash _ _ _); [| discriminate].
      injection Hstart as <- <-. exists []. rewrite app_nil_r.
      split_and!; [done | by eauto | done].
  - pose proof (startup_inr _ _ _ _ Hstart) as (_ & _ & table & _ & Hs).
    assert (Hw : stderr (env s) = stderr w) by (by subst s).
    specialize (Hsilent tempdir s). rewrite Hw in Hsilent.
    cbn. rewrite bind_run.
    destruct (passes a tempdir s) as [[] s' | e s']; cbn in Hsilent |- *.
    2: { exists []. rewrite app_nil_r. split_and!; [done | by eauto | done]. }
    unfold report. mred.
    destruct (read_bp (cnt s') =? 0); mred.
    { exists []. rewrite app_nil_r. split_and!; [done | by eauto | done]. }
    destruct (negb (Qle_bool _ _)); cbn [forM_ too_small_warning]; mred.
    + exists (FpRateLine (calc_expected_collisions (ht s')) :: too_small_warning).
      rewrite Hsilent, <- !app_assoc. split; [done |]. split; [| done].
      right. right. eauto.
    + exists [FpRateLine (calc_expected_collisions (ht s'))].
      rewrite Hsilent. split; [done |]. split; [| eauto]. right. right. eauto.
Qed.

Lemma stderr_of_a_run_witness :
  exists fp_rate,
    stderr (final_world (main (T := Sketch.table) ex_args (ex_input 100)))
    = [FpRateLine fp_rate].
Proof.
  destruct (proj2 (stderr_of_a_run (T := Sketch.table) ex_args (ex_input 100)))
    as (printed & Hprinted & _ & Hnormal).
  destruct Hnormal as [fp_rate Hfp]; [vm_compute; reflexivity |].
  exists fp_rate. rewrite Hprinted, Hfp. reflexivity.
Defined.

(** X18.  Once both passes have completed, the summary decides how the
    run ends.  With no base read the percentage of line 291 divides by
    zero: the run ends with [ZeroDivisionError], after all output has
    been written, and nothing about the table is printed.  The run
    ends normally exactly when some base was read and the
    false-positive rate is at most [MAX_FALSE_POSITIVE_RATE]; all it
    then adds to what the passes left is the line with the rate. *)
Theorem run_verdict {T} `{CountingTable T} a w (s s' : state T) tempdir :
  startup a w = inr (s, tempdir) ->
  passes a tempdir s = Done tt s' ->
  let r := main a w in
  let fp_rate := calc_expected_collisions (ht s') in
  (read_bp (cnt s') = 0 ->
   status r = Some ZeroDivisionError /\ final_world r = env s') /\
  (status r = None <->
   read_bp (cnt s') <> 0 /\ (fp_rate <= MAX_FALSE_POSITIVE_RATE)%Q) /\
  (status r = None ->
   final_world r = set_stderr (stderr (env s') ++ [FpRateLine fp_rate])%list (env s')).
Proof.
  intros Hstart Hpasses r fp_rate. unfold r, main. rewrite Hstart.
  cbn. rewrite bind_run, Hpasses. unfold report. mred.
  destruct (Z.eqb_spec (read_bp (cnt s')) 0) as [Hz | Hnz]; mred.
  { split; [done |]. split; [| done]. split; [done | by intros [? _]]. }
  split; [done |]. fold fp_rate.
  destruct (Qle_bool fp_rate MAX_FALSE_POSITIVE_RATE) eqn:Hle;
    cbn [negb forM_ too_small_warning]; mred.
  - apply Qle_bool_iff in Hle. done.
  - split; [| done]. split; [done |]. intros [_ Hq].
    apply Qle_bool_iff in Hq. congruence.
Qed.

Lemma run_verdict_witness :
  let s' := state_of (passes ex_args ex_tempdir (ex_started ex_table)) in
  status (main (T := Sketch.table) ex_args (ex_input 100)) = None /\
  read_bp (cnt s') <> 0.
Proof.
  intros s'.
  destruct (run_verdict ex_args (ex_input 100) (ex_started ex_table) s' ex_tempdir)
    as (_ & Hiff & _).
  - vm_compute. reflexivity.
  - vm_compute. reflexivity.
  - assert (Hstatus : status (main (T := Sketch.table) ex_args (ex_input 100)) = None)
      by (vm_compute; reflexivity).
    split; [exact Hstatus |]. exact (proj1 (proj1 Hiff Hstatus)).
Defined.

(** ** A run on one file *)

Section Second.
Context {T : Type} `{CountingTable T}.

Lemma open_a_content path q (s : state T) :
  content q (state_of (open_a path s)) = content q s.
Proof.
  unfold content. cbn. destruct (files (env s) !! path) eqn:Hpath; [done |].
  cbn. destruct (decide (q = path)) as [-> | Hq].
  - by rewrite lookup_insert_eq, Hpath.
  - by rewrite lookup_insert_ne.
Qed.

(** A completed turn of the second loop: the deferred store was there,
    the loop over its records completed, and the store was deleted. *)
Lemma pass2_file_Done a orig pass2filename trimfilename (s s' : state T) :
  pass2filename <> trimfilename ->
  pass2_file a (orig, pass2filename, trimfilename) s = Done tt s' ->
  exists s2,
    pass2_loop a trimfilename (content pass2filename s)
      (state_of (open_a trimfilename s)) = Done tt s2 /\
    cnt s' = cnt s2 /\ ht s' = ht s2 /\
    files (env s') = delete pass2filename (files (env s2)).
Proof.
  intros Hne Hrun. unfold pass2_file in Hrun.
  apply bind_Done_inv in Hrun as ([] & s1 & Hopen & Hrun).
  apply bind_Done_inv in Hrun as (rs & s1' & Hread & Hrun).
  apply bind_Done_inv in Hrun as ([] & s2 & Hloop & Hrun).
  assert (Hs1 : s1 = state_of (open_a trimfilename s)) by (by rewrite Hopen).
  unfold screed_open in Hread.
  destruct (files (env s1) !! pass2filename) as [rs' |] eqn:Hfile; [| discriminate].
  injection Hread as -> ->.
  assert (Hrs : content pass2filename s = rs).
  { rewrite <- (open_a_content trimfilename), <- Hs1. unfold content.
    by rewrite Hfile. }
  unfold unlink in Hrun.
  destruct (files (env s2) !! pass2filename); [| discriminate].
  injection Hrun as <-. exists s2. rewrite Hrs, <- Hs1. done.
Qed.

End Second.

(** X19.  A run on one input file whose two passes complete.  Every
    record the reader yielded met one fate in the first pass, and every
    record deferred there met one in the second, where none is
    deferred again.  The output file holds what the first pass emitted
    followed by what the second pass emitted, and nothing else; the
    deferred store is gone.  The counters of the summary say what
    happened: [read_reads] and [read_bp] are the records read and
    their bases, [wrote_reads] is the number of records in the output,
    [save_pass2_total] the number of records deferred, and the number
    reported as removed, [read_reads - wrote_reads], is the number of
    records dropped in the two passes. *)
Theorem single_file_run {T} `{CountingTable T} a w (s s' : state T) tempdir
    filename rs :
  startup a w = inr (s, tempdir) ->
  input_filenames a = [filename] ->
  files w !! filename = Some rs ->
  passes a tempdir s = Done tt s' ->
  let records := all_reads (broken_paired_reader rs) in
  exists fs1 fs2,
    let deferred := sources is_deferred records fs1 in
    let output := (emitted_of fs1 ++ emitted_of fs2)%list in
    Forall2 fate_ok records fs1 /\
    Forall2 fate_ok deferred fs2 /\
    Forall (fun f => is_deferred f = false) fs2 /\
    content (trimfilename_of filename) s' = output /\
    files (env s') !! pass2filename_of tempdir filename = None /\
    read_reads (cnt s') = Z.of_nat (length records) /\
    read_bp (cnt s') = total_bp records /\
    wrote_reads (cnt s') = Z.of_nat (length output) /\
    save_pass2_total (cnt s') = Z.of_nat (length deferred) /\
    read_reads (cnt s') - wrote_reads (cnt s')
    = Z.of_nat (length (sources is_dropped records fs1)
                + length (sources is_dropped deferred fs2)).
Proof.
  intros Hstart Hin Hfile Hrun. cbv zeta.
  pose proof (startup_inr _ _ _ _ Hstart) as (_ & _ & table & _ & Hs).
  pose proof (pass2filename_ne_trimfilename tempdir filename filename) as Hne.
  set (p2 := pass2filename_of tempdir filename) in *.
  set (tf := trimfilename_of filename) in *.
  apply passes_Done_inv in Hrun as (s1 & s2 & Hpass1 & Hpass2 & Hrm).
  rewrite Hin in Hpass1, Hpass2. cbn [forM_ fmap list_fmap] in Hpass1, Hpass2.
  apply bind_Done_inv in Hpass1 as ([] & s1' & Hpass1 & Hret).
  apply mret_Done in Hret as [_ ->].
  apply bind_Done_inv in Hpass2 as ([] & s2' & Hpass2 & Hret).
  apply mret_Done in Hret as [_ <-].
  apply pass1_file_Done in Hpass1 as (rs' & sl & Hfile' & Hloop & _ & ->).
  assert (rs' = rs) as -> by (subst s; cbn in Hfile'; congruence).
  fold p2 tf in Hloop.
  destruct (opened_sizes tempdir filename (set_pass2list [] s)) as [Hp2 Htf].
  fold p2 in Hp2. fold tf in Htf.
  pose proof (pass1_loop_counted a _ _ Hne _ _ _ Hloop)
    as (Hreads & Hbp & Hwrote & Hsave & _ & Htotal & _).
  apply pass1_loop_accounted in Hloop as (fs1 & Hok1 & Hdef & Hemit & _);
    [| done].
  assert (Hnil : forall l : list read, Z.of_nat (length l) = 0 -> l = []).
  { intros [| x l]; [done | cbn; lia]. }
  rewrite (Hnil _ Hp2) in Hdef. rewrite (Hnil _ Htf) in Hemit.
  cbn [app] in Hdef, Hemit.
  unfold pass2entry in Hpass2. fold p2 tf in Hpass2.
  apply pass2_file_Done in Hpass2 as (sb & Hloop2 & Hcnt2 & _ & Hfiles2); [| done].
  change (content p2 (set_cnt _ (closed sl))) with (content p2 sl) in Hloop2.
  rewrite Hdef in Hloop2.
  pose proof (pass2_loop_counted a tf _ _ _ Hloop2)
    as (Hreads2 & Hbp2 & Htotal2 & _ & _ & Hwrote2 & _).
  apply pass2_loop_fates in Hloop2 as (fs2 & Hok2 & Hnodef & [Hemit2 _]).
  rewrite open_a_content in Hemit2.
  change (content tf (set_cnt _ (closed sl))) with (content tf sl) in Hemit2.
  rewrite Hemit in Hemit2.
  assert (Hkeep : content tf s' = content tf sb).
  { pose proof (rmtree_keeps tf tempdir (trimfilename_not_under _ _) s2) as Hk.
    rewrite Hrm in Hk. unfold keeps in Hk. unfold content.
    by rewrite Hk, Hfiles2, lookup_delete_ne. }
  apply modify_Done in Hrm.
  assert (Hcnt : cnt s' = cnt sb) by (by subst s').
  unfold size_of in *. rewrite open_a_content in Hwrote2.
  change (content tf (set_cnt _ (closed sl))) with (content tf sl) in Hwrote2.
  cbn in Hreads, Hbp, Hwrote, Hsave, Htotal, Hreads2, Hbp2, Htotal2, Hwrote2.
  rewrite Hemit2, Hemit in Hwrote2. rewrite Hemit in Hwrote. rewrite Hdef in Hsave.
  rewrite Hp2 in Hsave. rewrite Htf in Hwrote.
  subst s. cbn in Hreads, Hbp, Hwrote, Hsave, Htotal.
  pose proof (fates_partition _ fs1 (Forall2_length _ _ _ Hok1)) as Hperm1.
  pose proof (fates_partition _ fs2 (Forall2_length _ _ _ Hok2)) as Hperm2.
  rewrite (sources_none is_deferred _ fs2 Hnodef) in Hperm2.
  apply Permutation_length in Hperm1, Hperm2.
  rewrite !length_app in Hperm1. rewrite !length_app in Hperm2.
  rewrite <- (emitted_of_length _ _ Hok1) in Hperm1.
  rewrite <- (emitted_of_length _ _ Hok2) in Hperm2.
  cbn [length] in Hperm2.
  exists fs1, fs2. rewrite Hcnt, Hkeep, Hemit2, !length_app.
  rewrite !length_app in Hwrote2.
  split_and!; try done; try lia.
  subst s'. cbn. apply map_lookup_filter_None_2. left.
  by rewrite Hfiles2, lookup_delete_eq.
Qed.

Lemma single_file_run_witness :
  let s' := state_of (passes ex_args ex_tempdir (ex_started ex_table)) in
  passes ex_args ex_tempdir (ex_started ex_table) = Done tt s' /\
  read_reads (cnt s') = 3 /\
  wrote_reads (cnt s') = size_of (trimfilename_of "reads/x.fa") s'.
Proof.
  intros s'.
  assert (Hrun : passes ex_args ex_tempdir (ex_started ex_table) = Done tt s')
    by (vm_compute; reflexivity).
  split; [exact Hrun |].
  destruct (single_file_run ex_args (ex_input 100) (ex_started ex_table) s'
              ex_tempdir "reads/x.fa" ex_reads)
    as (fs1 & fs2 & _ & _ & _ & Hout & _ & Hreads & _ & Hwrote & _).
  - vm_compute. reflexivity.
  - reflexivity.
  - vm_compute. reflexivity.
  - exact Hrun.
  - split; [rewrite Hreads; vm_compute; reflexivity |].
    rewrite Hwrote, <- Hout. reflexivity.
Defined.

(** ** Errors and the working files *)

Section NothingRemoved.
Context {T : Type} `{CountingTable T}.

Lemma nothing_removed_preorder : PreOrder (nothing_removed (T := T)).
Proof.
  split.
  - by intros s.
  - intros s1 s2 s3 [Hf1 Hd1] [Hf2 Hd2]. split; [auto | congruence].
Qed.

Lemma nothing_removed_sequential :
  Sequential (nothing_removed (T := T)) (fun _ => nothing_removed).
Proof. apply steady_sequential, nothing_removed_preorder. Qed.

Lemma nothing_removed_env (s s' : state T) :
  env s' = env s -> nothing_removed s s'.
Proof. unfold nothing_removed. by intros ->. Qed.

Lemma nothing_removed_state {A} (m : M (state T) A) :
  (forall s, nothing_removed s (state_of (m s))) ->
  always m nothing_removed (fun _ => nothing_removed).
Proof. apply always_state_of. Qed.

Lemma on_ht_nothing_removed {A} (op : M T A) :
  always (on_ht op) nothing_removed (fun _ => nothing_removed).
Proof.
  apply nothing_removed_state. intros s. apply nothing_removed_env, on_ht_env.
Qed.

Lemma write_record_nothing_removed r fp :
  always (write_record (T := T) r fp) nothing_removed (fun _ => nothing_removed).
Proof.
  apply nothing_removed_state. intros s. unfold write_record.
  destruct (free_space (env s)) as [| k]; cbn [state_of]; [done |].
  split; [| done]. intros p Hp. cbn. apply lookup_insert_is_Some.
  destruct (decide (fp = p)); auto.
Qed.

Lemma open_w_nothing_removed fp :
  always (open_w (T := T) fp) nothing_removed (fun _ => nothing_removed).
Proof.
  apply nothing_removed_state. intros s. split; [| done].
  intros p Hp. cbn. apply lookup_insert_is_Some.
  destruct (decide (fp = p)); auto.
Qed.

Lemma open_a_nothing_removed fp :
  always (open_a (T := T) fp) nothing_removed (fun _ => nothing_removed).
Proof.
  apply nothing_removed_state. intros s. cbn.
  destruct (files (env s) !! fp); [done |]. split; [| done].
  intros p Hp. cbn. apply lookup_insert_is_Some.
  destruct (decide (fp = p)); auto.
Qed.

Lemma screed_open_nothing_removed path :
  always (screed_open (T := T) path) nothing_removed (fun _ => nothing_removed).
Proof.
  apply nothing_removed_state. intros s. unfold screed_open.
  by destruct (files (env s) !! path).
Qed.

Lemma modify_nothing_removed (f : state T -> state T) :
  (forall s, env (f s) = env s) ->
  always (modify f) nothing_removed (fun _ => nothing_removed).
Proof.
  intros Hf. apply nothing_removed_state. intros s.
  apply nothing_removed_env, Hf.
Qed.

Lemma pass1_loop_nothing_removed a pass2fp trimfp chunks :
  always (pass1_loop (T := T) a pass2fp trimfp chunks)
    nothing_removed (fun _ => nothing_removed).
Proof.
  apply (pass1_loop_always _ _ (Sequential0 := nothing_removed_sequential)
           a pass2fp trimfp (fun _ => True)).
  - intros s s' [_ Henv]. by apply nothing_removed_env.
  - intros r _. apply on_ht_nothing_removed.
  - intros r _. apply on_ht_nothing_removed.
  - intros r cutoff _. apply on_ht_nothing_removed.
  - intros r _. apply write_record_nothing_removed.
  - intros r r' _ _. apply write_record_nothing_removed.
  - by apply Forall_true.
Qed.

Lemma pass2_loop_nothing_removed a trimfp rs :
  always (pass2_loop (T := T) a trimfp rs)
    nothing_removed (fun _ => nothing_removed).
Proof.
  apply (pass2_loop_always _ _ (Sequential0 := nothing_removed_sequential)
           a trimfp (fun _ => True)).
  - intros s s' [_ Henv]. by apply nothing_removed_env.
  - intros r _. apply on_ht_nothing_removed.
  - intros r cutoff _. apply on_ht_nothing_removed.
  - intros r r' _ _. apply write_record_nothing_removed.
  - by apply Forall_true.
Qed.

Lemma pass1_file_nothing_removed a tempdir filename :
  always (pass1_file (T := T) a tempdir filename)
    nothing_removed (fun _ => nothing_removed).
Proof.
  pose proof nothing_removed_sequential.
  unfold pass1_file. cbv zeta. always_steps.
  - by apply modify_nothing_removed.
  - apply screed_open_nothing_removed.
  - apply open_w_nothing_removed.
  - apply open_w_nothing_removed.
  - by apply modify_nothing_removed.
  - apply pass1_loop_nothing_removed.
  - by apply modify_nothing_removed.
Qed.

Lemma pass1_files_nothing_removed a tempdir filenames :
  always (forM_ (pass1_file (T := T) a tempdir) filenames)
    nothing_removed (fun _ => nothing_removed).
Proof.
  pose proof nothing_removed_sequential.
  apply always_forM; [done |]. intros f _. apply pass1_file_nothing_removed.
Qed.

(** A turn of the second loop that raises has not come to its
    [os.unlink], or the [os.unlink] itself has failed. *)
Lemma pass2_file_Raised a entry (s s' : state T) e :
  pass2_file a entry s = Raised e s' ->
  nothing_removed s s' /\
  (entry.1.2 <> entry.2 -> keeps entry.1.2 s s').
Proof.
  destruct entry as [[orig pass2filename] trimfilename]. cbn [fst snd].
  pose proof nothing_removed_preorder as Hpre.
  unfold pass2_file. rewrite bind_run.
  pose proof (open_a_nothing_removed trimfilename s) as Hopen.
  pose proof (fun Hne : pass2filename <> trimfilename =>
                open_a_keeps pass2filename trimfilename (not_eq_sym Hne) s) as Kopen.
  destruct (open_a trimfilename s) as [[] s1 | e1 s1] eqn:Ho; [| done].
  rewrite bind_run.
  pose proof (screed_open_nothing_removed pass2filename s1) as Hread.
  pose proof (screed_open_keeps pass2filename pass2filename s1) as Kread.
  destruct (screed_open pass2filename s1) as [rs s2 | e2 s2].
  2: { intros [= <- <-]. split; [by etrans | intros Hne; specialize (Kopen Hne)].
       unfold keeps in *. congruence. }
  rewrite bind_run.
  pose proof (pass2_loop_nothing_removed a trimfilename rs s2) as Hloop.
  pose proof (fun Hne : pass2filename <> trimfilename =>
                pass2_loop_keeps pass2filename a trimfilename rs (not_eq_sym Hne) s2)
    as Kloop.
  destruct (pass2_loop a trimfilename rs s2) as [[] s3 | e3 s3].
  2: { intros [= <- <-]. split; [etrans; [done |]; by etrans |].
       intros Hne. specialize (Kopen Hne). specialize (Kloop Hne).
       unfold keeps in *. congruence. }
  unfold unlink. destruct (files (env s3) !! pass2filename); [discriminate |].
  intros [= <- <-]. split; [etrans; [done |]; by etrans |].
  intros Hne. specialize (Kopen Hne). specialize (Kloop Hne).
  unfold keeps in *. congruence.
Qed.

(** No turn of the second loop touches the directories. *)
Lemma pass2_file_dirs a entry (s : state T) :
  dirs (env (state_of (pass2_file a entry s))) = dirs (env s).
Proof.
  destruct (pass2_file a entry s) as [[] s' | e s'] eqn:Hturn; cbn [state_of].
  2: by apply pass2_file_Raised in Hturn as [[_ Hd] _].
  destruct entry as [[orig pass2filename] trimfilename].
  unfold pass2_file in Hturn.
  apply bind_Done_inv in Hturn as ([] & s1 & Hopen & Hturn).
  apply bind_Done_inv in Hturn as (rs & s2 & Hread & Hturn).
  apply bind_Done_inv in Hturn as ([] & s3 & Hloop & Hturn).
  pose proof (always_reached _ _ s (open_a_nothing_removed trimfilename)) as H1.
  rewrite Hopen in H1. destruct H1 as [_ H1].
  pose proof (always_reached _ _ s1 (screed_open_nothing_removed pass2filename)) as H2.
  rewrite Hread in H2. destruct H2 as [_ H2].
  pose proof (always_reached _ _ s2 (pass2_loop_nothing_removed a trimfilename rs)) as H3.
  rewrite Hloop in H3. destruct H3 as [_ H3]. cbn [state_of] in *.
  unfold unlink in Hturn. destruct (files (env s3) !! pass2filename); [| done].
  injection Hturn as <-. cbn. congruence.
Qed.

(** The two passes raise only before [shutil.rmtree]. *)
Lemma passes_Raised a tempdir (s s' : state T) e :
  passes a tempdir s = Raised e s' -> dirs (env s') = dirs (env s).
Proof.
  unfold passes. rewrite bind_run. cbn [modify]. rewrite bind_run.
  pose proof (pass1_files_nothing_removed a tempdir (input_filenames a)
                (set_pass2list [] s)) as Hpass1.
  destruct (forM_ _ _ (set_pass2list [] s)) as [[] s1 | e1 s1].
  2: { intros [= <- <-]. by destruct Hpass1. }
  destruct Hpass1 as [_ Hd1]. cbn in Hd1.
  rewrite bind_run. cbn [count modify]. rewrite bind_run. cbn [gets].
  rewrite bind_run.
  assert (Hpass2 : always (forM_ (pass2_file (T := T) a)
                            (pass2list (set_cnt (reset_skipped (cnt s1)) s1)))
                     (fun s s' => dirs (env s') = dirs (env s))
                     (fun _ s s' => dirs (env s') = dirs (env s))).
  { apply always_forM.
    - apply steady_sequential. split; [by intros ? | intros ? ? ? ? ?; congruence].
    - intros entry _. apply always_state_of. intros s0. apply pass2_file_dirs. }
  specialize (Hpass2 (set_cnt (reset_skipped (cnt s1)) s1)).
  destruct (forM_ _ _ (set_cnt (reset_skipped (cnt s1)) s1)) as [[] s2 | e2 s2].
  - discriminate.
  - intros [= <- <-]. cbn in Hpass2. congruence.
Qed.

Lemma startup_makes_tempdir a w (s : state T) tempdir :
  startup a w = inr (s, tempdir) -> tempdir ∈ dirs (env s).
Proof.
  unfold startup. destruct (negb _); [discriminate |].
  destruct (new_counting_hash _ _ _) as [e | t]; [discriminate |].
  cbn. intros [= <- <-]. cbn. left.
Qed.

End NothingRemoved.

(** C6, as the code has it.  The deferred store of a file is deleted
    once the second pass over it has completed, and the temporary
    directory once the second pass has completed for all files.  So a
    run whose two passes complete leaves no deferred store and no
    temporary directory, whether it then ends normally or with the
    fatal exit for an undersized table.  Nothing is deleted on the way
    of an exception, whatever the exception and whatever raised it, a
    write or the table: the loop over the input files removes no file
    and no directory, however it ends; a turn of the second loop that
    raises has removed nothing, and its deferred store is as it was
    before the turn; and a run whose passes raise ends with that
    exception, in the state the passes left, with the temporary
    directory still there. *)
Theorem deferred_store_removed_on_completion {T} `{CountingTable T} a :
  (forall entry (s s' : state T),
     pass2_file a entry s = Done tt s' ->
     files (env s') !! entry.1.2 = None) /\
  (forall w (s s' : state T) tempdir,
     startup a w = inr (s, tempdir) ->
     passes a tempdir s = Done tt s' ->
     let w' := final_world (main a w) in
     (forall filename, files w' !! pass2filename_of tempdir filename = None) /\
     (forall p, under tempdir p = true -> files w' !! p = None) /\
     tempdir ∉ dirs w') /\
  (forall tempdir filenames (s : state T),
     nothing_removed s (state_of (forM_ (pass1_file a tempdir) filenames s))) /\
  (forall entry (s s' : state T) e,
     pass2_file a entry s = Raised e s' ->
     nothing_removed s s' /\
     (entry.1.2 <> entry.2 ->
      files (env s') !! entry.1.2 = files (env s) !! entry.1.2)) /\
  (forall w (s s' : state T) tempdir e,
     startup a w = inr (s, tempdir) ->
     passes a tempdir s = Raised e s' ->
     status (main a w) = Some e /\
     final_world (main a w) = env s' /\
     tempdir ∈ dirs (env s')).
Proof.
  split_and!.
  - apply pass2_file_unlinks.
  - intros w s s' tempdir Hstart Hpasses w'.
    assert (Hw' : files w' = files (env s') /\ dirs w' = dirs (env s')).
    { unfold w', main. rewrite Hstart. cbn. rewrite bind_run, Hpasses.
      apply report_world. }
    destruct Hw' as [Hfiles Hdirs]. rewrite Hfiles, Hdirs.
    apply passes_Done_clean in Hpasses as [Hunder Hdir].
    apply startup_tempdir in Hstart as [Hne Hend].
    repeat split; try done.
    intros filename. by apply Hunder, pass2filename_under.
  - intros tempdir filenames s. apply always_reached.
    apply pass1_files_nothing_removed.
  - intros entry s s' e. apply pass2_file_Raised.
  - intros w s s' tempdir e Hstart Hpasses.
    unfold main. rewrite Hstart. cbn. rewrite bind_run, Hpasses. cbn.
    split; [done |]. split; [done |].
    rewrite (passes_Raised _ _ _ _ _ Hpasses).
    by apply startup_makes_tempdir in Hstart.
Qed.

(** A run that completes leaves neither the deferred store nor the
    temporary directory.  A run on a file with a record shorter than K
    ends in the first pass with the [TooShort] of the table: the
    temporary directory and the deferred store, with the one record
    put aside before, are still there.  A turn of the second loop on a
    deferred store that holds a record shorter than K raises
    [TooShort], and the store is as it was. *)
Lemma deferred_store_removed_on_completion_witness :
  let w := ex_input 100 in
  let s' := state_of (passes ex_args ex_tempdir (ex_started ex_table)) in
  let s2 := state_of (passes ex_args ex_tempdir ex_short_started) in
  let s3 := state_of (pass2_file ex_args ex_entry ex_store_short) in
  (startup ex_args w = inr (ex_started ex_table, ex_tempdir) /\
   passes ex_args ex_tempdir (ex_started ex_table) = Done tt s' /\
   files (final_world (main (T := Sketch.table) ex_args w))
     !! "./tmpAb3khmer/x.fa.pass2" = None /\
   ex_tempdir ∉ dirs (final_world (main (T := Sketch.table) ex_args w))) /\
  (passes ex_args ex_tempdir ex_short_started = Raised (KhmerError TooShort) s2 /\
   status (main (T := Sketch.table) ex_args ex_short_input)
   = Some (KhmerError TooShort) /\
   final_world (main (T := Sketch.table) ex_args ex_short_input) = env s2 /\
   ex_tempdir ∈ dirs (env s2) /\
   files (env s2) !! "./tmpAb3khmer/x.fa.pass2" = Some [solid]) /\
  (pass2_file ex_args ex_entry ex_store_short = Raised (KhmerError TooShort) s3 /\
   files (env s3) !! "./tmpAb3khmer/x.fa.pass2"
   = files (env ex_store_short) !! "./tmpAb3khmer/x.fa.pass2" /\
   files (env ex_store_short) !! "./tmpAb3khmer/x.fa.pass2" = Some [short]).
Proof.
  intros w s' s2 s3.
  destruct (deferred_store_removed_on_completion (T := Sketch.table) ex_args)
    as (_ & Hdone & _ & Hturn & Hrun).
  assert (Hstart : startup ex_args w = inr (ex_started ex_table, ex_tempdir))
    by (vm_compute; reflexivity).
  assert (Hpasses : passes ex_args ex_tempdir (ex_started ex_table) = Done tt s')
    by (vm_compute; reflexivity).
  assert (Hstart2 : startup ex_args ex_short_input = inr (ex_short_started, ex_tempdir))
    by (vm_compute; reflexivity).
  assert (Hpasses2 : passes ex_args ex_tempdir ex_short_started
                     = Raised (KhmerError TooShort) s2)
    by (vm_compute; reflexivity).
  assert (Hturn3 : pass2_file ex_args ex_entry ex_store_short
                   = Raised (KhmerError TooShort) s3)
    by (vm_compute; reflexivity).
  split_and!.
  - exact Hstart.
  - exact Hpasses.
  - exact (proj1 (Hdone w (ex_started ex_table) s' ex_tempdir Hstart Hpasses)
             "reads/x.fa").
  - exact (proj2 (proj2 (Hdone w (ex_started ex_table) s' ex_tempdir Hstart Hpasses))).
  - exact Hpasses2.
  - exact (proj1 (Hrun _ _ _ _ _ Hstart2 Hpasses2)).
  - exact (proj1 (proj2 (Hrun _ _ _ _ _ Hstart2 Hpasses2))).
  - exact (proj2 (proj2 (Hrun _ _ _ _ _ Hstart2 Hpasses2))).
  - vm_compute. reflexivity.
  - exact Hturn3.
  - apply (proj2 (Hturn ex_entry ex_store_short s3 _ Hturn3)). discriminate.
  - vm_compute. reflexivity.
Defined.

(** C6, as stated, fails.  With room for three records on the device
    the fourth write, in the second pass, raises [IOError]; the run ends
    there, and the deferred store and the temporary directory are still
    in place. *)
Lemma failed_write_leaves_deferred_store :
  let r := main (T := Sketch.table) ex_args (ex_input 3) in
  status r = Some IOError /\
  files (final_world r) !! "./tmpAb3khmer/x.fa.pass2" = Some [novel; solid] /\
  dirs (final_world r) = [ex_tempdir].
Proof. repeat split; vm_compute; reflexivity. Qed.
